(** * The HLSL front end of d3dcompiler: a shallow embedding

    The development follows the parser source (the bison grammar file with its
    C prologue and epilogue).  C data is kept as the code has it: [unsigned
    int] and [DWORD] values are integers in [Z] with the 32-bit wrap-around
    written out, modifier sets are bit masks handled with [Z.land] and
    [Z.lor], intrusive lists are Rocq lists in list order, pointers to
    variables and to instruction nodes are addresses into finite maps, and the
    owning pointers of the instruction tree (the branches of an [if], the body
    of a loop) are sub-terms.

    Part I holds the definitions, Part II the properties. *)

From Stdlib Require Import ZArith QArith Lia List Bool Ascii String.
From stdpp Require Import base option list gmap strings pretty.

Local Open Scope string_scope.
Local Open Scope Z_scope.
Local Open Scope list_scope.

(** * Part I: definitions *)

(** ** Machine integers *)

Definition UINT_MAX : Z := 4294967295.

(** Reduction of an integer to the range of [unsigned int]. *)
Definition u32 (z : Z) : Z := z mod 4294967296.

Definition min (a b : Z) : Z := if a <? b then a else b.
Definition max (a b : Z) : Z := if a >? b then a else b.

(** ** Enumerations of the private header *)

(** Modelled from the spec: [enum hlsl_type_class] (declared in the private
    header, which is not part of the sources at hand).  The spec lists the
    classes scalar, vector, matrix, array, struct and object and calls the
    first three numeric; the order of the constructors is the one the
    comparisons against [HLSL_CLASS_LAST_NUMERIC] need. *)
Inductive hlsl_type_class : Type :=
| HLSL_CLASS_SCALAR
| HLSL_CLASS_VECTOR
| HLSL_CLASS_MATRIX
| HLSL_CLASS_STRUCT
| HLSL_CLASS_ARRAY
| HLSL_CLASS_OBJECT.

Definition HLSL_CLASS_LAST_NUMERIC : hlsl_type_class := HLSL_CLASS_MATRIX.

Definition class_rank (c : hlsl_type_class) : Z :=
  match c with
  | HLSL_CLASS_SCALAR => 0
  | HLSL_CLASS_VECTOR => 1
  | HLSL_CLASS_MATRIX => 2
  | HLSL_CLASS_STRUCT => 3
  | HLSL_CLASS_ARRAY => 4
  | HLSL_CLASS_OBJECT => 5
  end.

Definition class_eqb (a b : hlsl_type_class) : bool := class_rank a =? class_rank b.
Definition class_leb (a b : hlsl_type_class) : bool := class_rank a <=? class_rank b.

(** Modelled from the spec: [enum hlsl_base_type] (private header).  The
    scalar base types come in the order of the name table of
    [declare_predefined_types]. *)
Inductive hlsl_base_type : Type :=
| HLSL_TYPE_FLOAT
| HLSL_TYPE_HALF
| HLSL_TYPE_DOUBLE
| HLSL_TYPE_INT
| HLSL_TYPE_UINT
| HLSL_TYPE_BOOL
| HLSL_TYPE_SAMPLER
| HLSL_TYPE_TEXTURE
| HLSL_TYPE_PIXELSHADER
| HLSL_TYPE_VERTEXSHADER
| HLSL_TYPE_STRING
| HLSL_TYPE_VOID.

Inductive hlsl_matrix_majority : Type :=
| HLSL_COLUMN_MAJOR
| HLSL_ROW_MAJOR.

Inductive parse_status : Type :=
| PARSE_SUCCESS
| PARSE_WARN
| PARSE_ERR.

Inductive hlsl_error_level : Type :=
| HLSL_LEVEL_ERROR
| HLSL_LEVEL_WARNING
| HLSL_LEVEL_NOTE.

(** ** Modifier bits *)

(** Modelled from the spec: the modifier constants of the private header.  The
    spec describes the modifiers of a type or variable as a bit set with the
    storage classes, the qualifiers and the two matrix majorities; each
    constant is one bit. *)
Definition HLSL_STORAGE_EXTERN : Z := 1.
Definition HLSL_STORAGE_NOINTERPOLATION : Z := 2.
Definition HLSL_MODIFIER_PRECISE : Z := 4.
Definition HLSL_STORAGE_SHARED : Z := 8.
Definition HLSL_STORAGE_GROUPSHARED : Z := 16.
Definition HLSL_STORAGE_STATIC : Z := 32.
Definition HLSL_STORAGE_UNIFORM : Z := 64.
Definition HLSL_STORAGE_VOLATILE : Z := 128.
Definition HLSL_MODIFIER_CONST : Z := 256.
Definition HLSL_MODIFIER_ROW_MAJOR : Z := 512.
Definition HLSL_MODIFIER_COLUMN_MAJOR : Z := 1024.
Definition HLSL_STORAGE_IN : Z := 2048.
Definition HLSL_STORAGE_OUT : Z := 4096.

Definition HLSL_TYPE_MODIFIERS_MASK : Z :=
  Z.lor HLSL_MODIFIER_PRECISE
    (Z.lor HLSL_STORAGE_VOLATILE
       (Z.lor HLSL_MODIFIER_CONST
          (Z.lor HLSL_MODIFIER_ROW_MAJOR HLSL_MODIFIER_COLUMN_MAJOR))).

Definition HLSL_MODIFIERS_MAJORITY_MASK : Z :=
  Z.lor HLSL_MODIFIER_ROW_MAJOR HLSL_MODIFIER_COLUMN_MAJOR.

(** The C test [if (a & b)]. *)
Definition has_bits (a b : Z) : bool := negb (Z.land a b =? 0).

(** [a & ~b] on 32-bit values. *)
Definition clear_bits (a b : Z) : Z := Z.land a (Z.lxor UINT_MAX b).

(** ** Types *)

(** [struct hlsl_type] with its union [e] and [struct hlsl_struct_field].  The
    sampler dimension and the list linkage are left out: nothing below reads
    them. *)
Inductive hlsl_type : Type :=
| mk_hlsl_type (name : option string) (type : hlsl_type_class)
    (base_type : hlsl_base_type) (dimx dimy modifiers reg_size : Z)
    (e : hlsl_type_e)
with hlsl_type_e : Type :=
| e_none
| e_array (array_type : hlsl_type) (elements_count : Z)
| e_elements (elements : list hlsl_struct_field)
with hlsl_struct_field : Type :=
| mk_hlsl_struct_field (type : hlsl_type) (name : string)
    (semantic : option string) (modifiers reg_offset : Z).

Definition ty_name (t : hlsl_type) : option string :=
  match t with mk_hlsl_type n _ _ _ _ _ _ _ => n end.
Definition ty_type (t : hlsl_type) : hlsl_type_class :=
  match t with mk_hlsl_type _ c _ _ _ _ _ _ => c end.
Definition ty_base_type (t : hlsl_type) : hlsl_base_type :=
  match t with mk_hlsl_type _ _ b _ _ _ _ _ => b end.
Definition ty_dimx (t : hlsl_type) : Z :=
  match t with mk_hlsl_type _ _ _ x _ _ _ _ => x end.
Definition ty_dimy (t : hlsl_type) : Z :=
  match t with mk_hlsl_type _ _ _ _ y _ _ _ => y end.
Definition ty_modifiers (t : hlsl_type) : Z :=
  match t with mk_hlsl_type _ _ _ _ _ m _ _ => m end.
Definition ty_reg_size (t : hlsl_type) : Z :=
  match t with mk_hlsl_type _ _ _ _ _ _ r _ => r end.
Definition ty_e (t : hlsl_type) : hlsl_type_e :=
  match t with mk_hlsl_type _ _ _ _ _ _ _ e => e end.

Definition field_type (f : hlsl_struct_field) : hlsl_type :=
  match f with mk_hlsl_struct_field t _ _ _ _ => t end.
Definition field_name (f : hlsl_struct_field) : string :=
  match f with mk_hlsl_struct_field _ n _ _ _ => n end.

Definition set_ty_modifiers (t : hlsl_type) (m : Z) : hlsl_type :=
  mk_hlsl_type (ty_name t) (ty_type t) (ty_base_type t) (ty_dimx t) (ty_dimy t)
    m (ty_reg_size t) (ty_e t).

Definition set_ty_reg_size (t : hlsl_type) (r : Z) : hlsl_type :=
  mk_hlsl_type (ty_name t) (ty_type t) (ty_base_type t) (ty_dimx t) (ty_dimy t)
    (ty_modifiers t) r (ty_e t).

Definition set_ty_name (t : hlsl_type) (n : option string) : hlsl_type :=
  mk_hlsl_type n (ty_type t) (ty_base_type t) (ty_dimx t) (ty_dimy t)
    (ty_modifiers t) (ty_reg_size t) (ty_e t).

(** Modelled from the spec: [new_hlsl_type] (in the utility file, not part of
    the sources at hand).  A type descriptor is built from the name, class,
    base type and dimensions it is given; [declare_predefined_types] relies on
    the class being stored as passed, since it builds a matrix, a vector and a
    scalar descriptor of the same dimensions.  A fresh type has no modifier
    and, not being an array or a structure, the register size of one
    register. *)
Definition new_hlsl_type (name : option string) (type_class : hlsl_type_class)
    (base_type : hlsl_base_type) (dimx dimy : Z) : hlsl_type :=
  mk_hlsl_type name type_class base_type dimx dimy 0 1 e_none.

(** Modelled from the spec: [components_count_type] (utility file).  The
    component count of a numeric type is the product of its dimensions, that
    of an array the count of its element times its length, that of a structure
    the sum over its fields; other types have none. *)
Fixpoint components_count_type (t : hlsl_type) : Z :=
  match t with
  | mk_hlsl_type _ c _ dimx dimy _ _ e =>
      if class_leb c HLSL_CLASS_LAST_NUMERIC then u32 (dimx * dimy)
      else match c, e with
           | HLSL_CLASS_ARRAY, e_array elt n => u32 (components_count_type elt * n)
           | HLSL_CLASS_STRUCT, e_elements fields =>
               (fix sum (l : list hlsl_struct_field) : Z :=
                  match l with
                  | [] => 0
                  | f :: l' =>
                      match f with
                      | mk_hlsl_struct_field ft _ _ _ _ =>
                          u32 (components_count_type ft + sum l')
                      end
                  end) fields
           | _, _ => 0
           end
  end.

Definition is_row_major (t : hlsl_type) : bool :=
  has_bits (ty_modifiers t) HLSL_MODIFIER_ROW_MAJOR.

(** ** Source locations, variables and instructions *)

Record source_location : Type := mk_source_location {
  loc_file : option string;
  loc_line : Z;
  loc_col : Z }.

(** The location of a node that was allocated and never given one. *)
Definition no_location : source_location := mk_source_location None 0 0.

Inductive bwritershader_param_register_type : Type :=
| BWRITERSPR_CONST
| BWRITERSPR_CONSTINT
| BWRITERSPR_CONSTBOOL
| BWRITERSPR_SAMPLER.

Record reg_reservation : Type := mk_reg_reservation {
  reg_type : bwritershader_param_register_type;
  regnum : Z }.

(** [struct hlsl_ir_var].  Variables are shared objects: a scope, a parameter
    list and every dereference point at the same variable, so they live in a
    store indexed by their address. *)
Record hlsl_ir_var : Type := mk_hlsl_ir_var {
  ivar_data_type : hlsl_type;
  ivar_loc : source_location;
  ivar_name : string;
  ivar_modifiers : Z;
  ivar_semantic : option string;
  ivar_reg_reservation : option reg_reservation;
  ivar_first_write : Z;
  ivar_last_read : Z }.

Definition set_ivar_modifiers (v : hlsl_ir_var) (m : Z) : hlsl_ir_var :=
  mk_hlsl_ir_var (ivar_data_type v) (ivar_loc v) (ivar_name v) m (ivar_semantic v)
    (ivar_reg_reservation v) (ivar_first_write v) (ivar_last_read v).

Definition set_ivar_first_write (v : hlsl_ir_var) (i : Z) : hlsl_ir_var :=
  mk_hlsl_ir_var (ivar_data_type v) (ivar_loc v) (ivar_name v) (ivar_modifiers v)
    (ivar_semantic v) (ivar_reg_reservation v) i (ivar_last_read v).

Definition set_ivar_last_read (v : hlsl_ir_var) (i : Z) : hlsl_ir_var :=
  mk_hlsl_ir_var (ivar_data_type v) (ivar_loc v) (ivar_name v) (ivar_modifiers v)
    (ivar_semantic v) (ivar_reg_reservation v) (ivar_first_write v) i.

(** [struct hlsl_deref].  The [array] and [record] members point at another
    instruction, which [deref_from_node] takes to be a dereference and whose
    own [src] the liveness pass reads; that [src] is carried along with the
    address. *)
Inductive hlsl_deref : Type :=
| HLSL_IR_DEREF_VAR (var : Z)
| HLSL_IR_DEREF_ARRAY (array : Z) (array_src : hlsl_deref) (index : Z)
| HLSL_IR_DEREF_RECORD (record : Z) (record_src : hlsl_deref) (field : string).

(** Modelled from the spec: [enum hlsl_ir_expr_op] (private header); the
    operators the grammar actions name. *)
Inductive hlsl_ir_expr_op : Type :=
| HLSL_IR_UNOP_BIT_NOT
| HLSL_IR_UNOP_LOGIC_NOT
| HLSL_IR_UNOP_NEG
| HLSL_IR_UNOP_PREINC
| HLSL_IR_UNOP_PREDEC
| HLSL_IR_UNOP_POSTINC
| HLSL_IR_UNOP_POSTDEC
| HLSL_IR_UNOP_CAST
| HLSL_IR_BINOP_ADD
| HLSL_IR_BINOP_SUB
| HLSL_IR_BINOP_MUL
| HLSL_IR_BINOP_DIV
| HLSL_IR_BINOP_MOD
| HLSL_IR_BINOP_LESS
| HLSL_IR_BINOP_GREATER
| HLSL_IR_BINOP_LEQUAL
| HLSL_IR_BINOP_GEQUAL
| HLSL_IR_BINOP_EQUAL
| HLSL_IR_BINOP_NEQUAL.

Inductive hlsl_ir_jump_type : Type :=
| HLSL_IR_JUMP_BREAK
| HLSL_IR_JUMP_CONTINUE
| HLSL_IR_JUMP_RETURN.

(** The first element of each member of the value union of a constant; the
    code reads the member its base type selects. *)
Record hlsl_constant_value : Type := mk_hlsl_constant_value {
  value_u : Z;
  value_i : Z;
  value_f : Q;
  value_d : Q;
  value_b : Z }.

(** [struct hlsl_ir_node] with the payload of each node kind.  A node carries
    its own address, by which operands refer to it.  Its [last_read] field is
    written through those references and is kept in a store of its own (see
    the liveness pass). *)
Inductive hlsl_ir_node : Type :=
| mk_node (addr : Z) (data_type : option hlsl_type) (loc : source_location)
    (index : Z) (payload : hlsl_ir_payload)
with hlsl_ir_payload : Type :=
| HLSL_IR_ASSIGNMENT (lhs : hlsl_deref) (rhs : Z)
| HLSL_IR_CONSTANT (v : hlsl_constant_value)
| HLSL_IR_CONSTRUCTOR (args : list Z)
| HLSL_IR_DEREF (src : hlsl_deref)
| HLSL_IR_EXPR (op : hlsl_ir_expr_op) (operand0 : Z) (operand1 operand2 : option Z)
| HLSL_IR_IF (condition : Z) (then_instrs : list hlsl_ir_node)
    (else_instrs : option (list hlsl_ir_node))
| HLSL_IR_JUMP (type : hlsl_ir_jump_type) (return_value : option Z)
| HLSL_IR_LOOP (body : list hlsl_ir_node) (next_index : Z)
| HLSL_IR_SWIZZLE (val : Z) (swizzle : Z).

Definition node_addr (n : hlsl_ir_node) : Z :=
  match n with mk_node a _ _ _ _ => a end.
Definition node_data_type (n : hlsl_ir_node) : option hlsl_type :=
  match n with mk_node _ t _ _ _ => t end.
Definition node_loc (n : hlsl_ir_node) : source_location :=
  match n with mk_node _ _ l _ _ => l end.
Definition node_index (n : hlsl_ir_node) : Z :=
  match n with mk_node _ _ _ i _ => i end.
Definition node_payload (n : hlsl_ir_node) : hlsl_ir_payload :=
  match n with mk_node _ _ _ _ p => p end.

(** Modelled from the spec: [node_from_list] (private header).  The result of
    an expression is the last element of its instruction list. *)
Definition node_from_list (l : list hlsl_ir_node) : option hlsl_ir_node :=
  last l.

(** [struct hlsl_ir_function_decl]; parameters are addresses of variables. *)
Record hlsl_ir_function_decl : Type := mk_hlsl_ir_function_decl {
  func_return_type : hlsl_type;
  func_loc : source_location;
  func_parameters : list Z;
  func_semantic : option string;
  func_body : option (list hlsl_ir_node) }.

(** ** The compilation context *)

(** [struct hlsl_scope]: the variables in declaration order and the named
    types. *)
Record hlsl_scope : Type := mk_hlsl_scope {
  scope_vars : list Z;
  scope_types : gmap string hlsl_type }.

(** The process heap as the parser sees it: the address the next allocation
    returns, and for the coming allocations whether they fail (an exhausted
    list means that no later allocation fails). *)
Record heap : Type := mk_heap {
  heap_next : Z;
  heap_fails : list bool }.

(** [struct hlsl_parse_ctx].  The scopes are a stack with the current scope
    first and the global scope last; [ctx_vars] holds the variable objects and
    [ctx_heap] the state of the allocator. *)
Record hlsl_parse_ctx : Type := mk_hlsl_parse_ctx {
  ctx_status : parse_status;
  ctx_messages : list string;
  ctx_matrix_majority : hlsl_matrix_majority;
  ctx_scopes : list hlsl_scope;
  ctx_functions : gmap string (list hlsl_ir_function_decl);
  ctx_vars : gmap Z hlsl_ir_var;
  ctx_cur_function : option hlsl_ir_function_decl;
  ctx_heap : heap }.

Definition set_ctx_status (c : hlsl_parse_ctx) (s : parse_status) : hlsl_parse_ctx :=
  mk_hlsl_parse_ctx s (ctx_messages c) (ctx_matrix_majority c) (ctx_scopes c)
    (ctx_functions c) (ctx_vars c) (ctx_cur_function c) (ctx_heap c).

Definition set_ctx_messages (c : hlsl_parse_ctx) (m : list string) : hlsl_parse_ctx :=
  mk_hlsl_parse_ctx (ctx_status c) m (ctx_matrix_majority c) (ctx_scopes c)
    (ctx_functions c) (ctx_vars c) (ctx_cur_function c) (ctx_heap c).

Definition set_ctx_scopes (c : hlsl_parse_ctx) (s : list hlsl_scope) : hlsl_parse_ctx :=
  mk_hlsl_parse_ctx (ctx_status c) (ctx_messages c) (ctx_matrix_majority c) s
    (ctx_functions c) (ctx_vars c) (ctx_cur_function c) (ctx_heap c).

Definition set_ctx_vars (c : hlsl_parse_ctx) (v : gmap Z hlsl_ir_var) : hlsl_parse_ctx :=
  mk_hlsl_parse_ctx (ctx_status c) (ctx_messages c) (ctx_matrix_majority c)
    (ctx_scopes c) (ctx_functions c) v (ctx_cur_function c) (ctx_heap c).

Definition set_ctx_heap (c : hlsl_parse_ctx) (h : heap) : hlsl_parse_ctx :=
  mk_hlsl_parse_ctx (ctx_status c) (ctx_messages c) (ctx_matrix_majority c)
    (ctx_scopes c) (ctx_functions c) (ctx_vars c) (ctx_cur_function c) h.

(** Modelled from the spec: [d3dcompiler_alloc] (private header).  An
    allocation either fails, returning a null pointer, or returns a fresh
    block; the block is zeroed, which is what makes index 0 mean "unused". *)
Definition d3dcompiler_alloc (h : heap) : option Z * heap :=
  match heap_fails h with
  | true :: rest => (None, mk_heap (heap_next h) rest)
  | false :: rest => (Some (heap_next h), mk_heap (heap_next h + 1) rest)
  | [] => (Some (heap_next h), mk_heap (heap_next h + 1) [])
  end.

Definition ctx_alloc (c : hlsl_parse_ctx) : option Z * hlsl_parse_ctx :=
  let '(p, h) := d3dcompiler_alloc (ctx_heap c) in (p, set_ctx_heap c h).

(** ** Diagnostics *)

(** Modelled from the spec: [set_parse_status] (private header).  The status
    only moves from success to warning to error. *)
Definition set_parse_status (current update : parse_status) : parse_status :=
  match update, current with
  | PARSE_ERR, _ => PARSE_ERR
  | PARSE_WARN, PARSE_SUCCESS => PARSE_WARN
  | _, _ => current
  end.

(** Modelled from the spec: [compilation_message] (utility file), reached
    through [hlsl_message]: the text is appended to the one message buffer. *)
Definition hlsl_message (text : string) (c : hlsl_parse_ctx) : hlsl_parse_ctx :=
  set_ctx_messages c (ctx_messages c ++ [text]).

Definition hlsl_get_error_level_name (level : hlsl_error_level) : string :=
  match level with
  | HLSL_LEVEL_ERROR => "error"
  | HLSL_LEVEL_WARNING => "warning"
  | HLSL_LEVEL_NOTE => "note"
  end.

Definition newline : string := String (ascii_of_nat 10) EmptyString.
Definition dquote : string := String (ascii_of_nat 34) EmptyString.

Definition format_location (loc : source_location) : string :=
  default "(null)" (loc_file loc) +:+ ":" +:+ pretty (loc_line loc) +:+ ":"
    +:+ pretty (loc_col loc).

(** [hlsl_report_message]: the text, already formatted by the caller, is
    copied into a freshly allocated string (one allocation; when it fails
    nothing is reported), prefixed with the location and the level, appended
    to the buffer, and the status is raised. *)
Definition hlsl_report_message (loc : source_location) (level : hlsl_error_level)
    (text : string) (c : hlsl_parse_ctx) : hlsl_parse_ctx :=
  match ctx_alloc c with
  | (None, c1) => c1
  | (Some _, c1) =>
      let c2 :=
        hlsl_message (format_location loc +:+ ": "
                      +:+ hlsl_get_error_level_name level +:+ ": " +:+ text
                      +:+ newline) c1 in
      match level with
      | HLSL_LEVEL_ERROR => set_ctx_status c2 (set_parse_status (ctx_status c2) PARSE_ERR)
      | HLSL_LEVEL_WARNING => set_ctx_status c2 (set_parse_status (ctx_status c2) PARSE_WARN)
      | HLSL_LEVEL_NOTE => c2
      end
  end.

(** ** Type modifiers *)

Definition modifier_names : list (Z * string) :=
  [ (HLSL_STORAGE_EXTERN, "extern");
    (HLSL_STORAGE_NOINTERPOLATION, "nointerpolation");
    (HLSL_MODIFIER_PRECISE, "precise");
    (HLSL_STORAGE_SHARED, "shared");
    (HLSL_STORAGE_GROUPSHARED, "groupshared");
    (HLSL_STORAGE_STATIC, "static");
    (HLSL_STORAGE_UNIFORM, "uniform");
    (HLSL_STORAGE_VOLATILE, "volatile");
    (HLSL_MODIFIER_CONST, "const");
    (HLSL_MODIFIER_ROW_MAJOR, "row_major");
    (HLSL_MODIFIER_COLUMN_MAJOR, "column_major");
    (HLSL_STORAGE_IN, "in");
    (HLSL_STORAGE_OUT, "out") ].

(** Modelled from the spec: [debug_modifiers] (utility file), which names the
    modifiers of a set for a message. *)
Definition debug_modifiers (modifiers : Z) : string :=
  String.concat " "
    (map snd (filter (fun p => has_bits modifiers (fst p) = true) modifier_names)).

Definition check_invalid_matrix_modifiers (modifiers : Z) (loc : source_location)
    (c : hlsl_parse_ctx) : hlsl_parse_ctx :=
  if has_bits modifiers HLSL_MODIFIERS_MAJORITY_MASK then
    hlsl_report_message loc HLSL_LEVEL_ERROR
      "'row_major' or 'column_major' modifiers are only allowed for matrices" c
  else c.

Definition add_modifiers (modifiers md : Z) (loc : source_location)
    (c : hlsl_parse_ctx) : Z * hlsl_parse_ctx :=
  if has_bits modifiers md then
    (modifiers,
     hlsl_report_message loc HLSL_LEVEL_ERROR
       ("modifier '" +:+ debug_modifiers md +:+ "' already specified") c)
  else if has_bits md HLSL_MODIFIERS_MAJORITY_MASK
          && has_bits modifiers HLSL_MODIFIERS_MAJORITY_MASK then
    (modifiers,
     hlsl_report_message loc HLSL_LEVEL_ERROR
       "more than one matrix majority keyword" c)
  else (Z.lor modifiers md, c).

(** Modelled from the spec: [clone_hlsl_type] (utility file).  The type is
    copied (one allocation, whose failure gives a null pointer) and the
    default majority it is given is injected when the type carries none. *)
Definition clone_hlsl_type (old : hlsl_type) (default_majority : Z)
    (c : hlsl_parse_ctx) : option hlsl_type * hlsl_parse_ctx :=
  match ctx_alloc c with
  | (None, c1) => (None, c1)
  | (Some _, c1) =>
      (Some (if has_bits (ty_modifiers old) HLSL_MODIFIERS_MAJORITY_MASK then old
             else set_ty_modifiers old (Z.lor (ty_modifiers old) default_majority)),
       c1)
  end.

(** Modelled from the spec: [new_array_type] (utility file): the array of the
    given length over the given element type, of which it keeps the
    modifiers, the base type and the dimensions. *)
Definition new_array_type (basic_type : hlsl_type) (array_size : Z) : hlsl_type :=
  mk_hlsl_type None HLSL_CLASS_ARRAY (ty_base_type basic_type)
    (ty_dimx basic_type) (ty_dimy basic_type) (ty_modifiers basic_type)
    (u32 (ty_reg_size basic_type * array_size)) (e_array basic_type array_size).

(** [apply_type_modifiers]: the result is the type (a null pointer when the
    copy could not be allocated), the modifiers left for the variable, and the
    context. *)
Definition apply_type_modifiers (type : hlsl_type) (modifiers : Z)
    (loc : source_location) (c : hlsl_parse_ctx)
    : option hlsl_type * Z * hlsl_parse_ctx :=
  let default_majority :=
    if negb (has_bits modifiers HLSL_MODIFIERS_MAJORITY_MASK)
       && negb (has_bits (ty_modifiers type) HLSL_MODIFIERS_MAJORITY_MASK)
       && class_eqb (ty_type type) HLSL_CLASS_MATRIX
    then match ctx_matrix_majority c with
         | HLSL_COLUMN_MAJOR => HLSL_MODIFIER_COLUMN_MAJOR
         | HLSL_ROW_MAJOR => HLSL_MODIFIER_ROW_MAJOR
         end
    else 0 in
  if (default_majority =? 0) && negb (has_bits modifiers HLSL_TYPE_MODIFIERS_MASK)
  then (Some type, modifiers, c)
  else
    match clone_hlsl_type type default_majority c with
    | (None, c1) => (None, modifiers, c1)
    | (Some new_type, c1) =>
        let '(m, c2) := add_modifiers (ty_modifiers new_type) modifiers loc c1 in
        let new_type1 := set_ty_modifiers new_type m in
        let modifiers1 := clear_bits modifiers HLSL_TYPE_MODIFIERS_MASK in
        let new_type2 :=
          if class_eqb (ty_type new_type1) HLSL_CLASS_MATRIX then
            set_ty_reg_size new_type1
              (if is_row_major new_type1 then ty_dimy new_type1
               else ty_dimx new_type1)
          else new_type1 in
        (Some new_type2, modifiers1, c2)
    end.

(** The modifier keywords of the grammar. *)
Inductive modifier_keyword : Type :=
| KW_EXTERN
| KW_NOINTERPOLATION
| KW_PRECISE
| KW_SHARED
| KW_GROUPSHARED
| KW_STATIC
| KW_UNIFORM
| KW_VOLATILE
| KW_CONST
| KW_ROW_MAJOR
| KW_COLUMN_MAJOR.

Definition keyword_modifier (k : modifier_keyword) : Z :=
  match k with
  | KW_EXTERN => HLSL_STORAGE_EXTERN
  | KW_NOINTERPOLATION => HLSL_STORAGE_NOINTERPOLATION
  | KW_PRECISE => HLSL_MODIFIER_PRECISE
  | KW_SHARED => HLSL_STORAGE_SHARED
  | KW_GROUPSHARED => HLSL_STORAGE_GROUPSHARED
  | KW_STATIC => HLSL_STORAGE_STATIC
  | KW_UNIFORM => HLSL_STORAGE_UNIFORM
  | KW_VOLATILE => HLSL_STORAGE_VOLATILE
  | KW_CONST => HLSL_MODIFIER_CONST
  | KW_ROW_MAJOR => HLSL_MODIFIER_ROW_MAJOR
  | KW_COLUMN_MAJOR => HLSL_MODIFIER_COLUMN_MAJOR
  end.

(** The rule [var_modifiers]: empty, or a keyword followed by
    [var_modifiers]; the keyword is added to the modifiers of the rest.  Each
    keyword comes with its location. *)
Fixpoint var_modifiers (kws : list (modifier_keyword * source_location))
    (c : hlsl_parse_ctx) : Z * hlsl_parse_ctx :=
  match kws with
  | [] => (0, c)
  | (k, loc) :: rest =>
      let '(m, c1) := var_modifiers rest c in
      add_modifiers m (keyword_modifier k) loc c1
  end.

(** ** Scopes *)

(** Modelled from the spec: [get_type] (utility file): the type of that name
    in the scope, and when asked in the enclosing scopes, walking outwards. *)
Fixpoint get_type (scopes : list hlsl_scope) (name : string) (recursive : bool)
    : option hlsl_type :=
  match scopes with
  | [] => None
  | s :: upper =>
      match scope_types s !! name with
      | Some t => Some t
      | None => if recursive then get_type upper name recursive else None
      end
  end.

Definition add_type_to_scope (def_name : string) (def : hlsl_type)
    (c : hlsl_parse_ctx) : bool * hlsl_parse_ctx :=
  match ctx_scopes c with
  | [] => (false, c)
  | s :: upper =>
      match get_type (ctx_scopes c) def_name false with
      | Some _ => (false, c)
      | None =>
          (true,
           set_ctx_scopes c
             (mk_hlsl_scope (scope_vars s) (<[def_name := def]> (scope_types s))
              :: upper))
      end
  end.

(** A declarator as the rules [variable_def] and [type_spec] build it. *)
Record parse_initializer : Type := mk_parse_initializer {
  init_args : list hlsl_ir_node;
  init_instrs : list hlsl_ir_node }.

Definition args_count (i : parse_initializer) : Z := Z.of_nat (length (init_args i)).

Record parse_variable_def : Type := mk_parse_variable_def {
  v_loc : source_location;
  v_name : string;
  v_array_size : Z;
  v_semantic : option string;
  v_reg_reservation : option reg_reservation;
  v_initializer : parse_initializer }.

(** [add_typedef], with the body of its loop as [add_typedef_one]. *)
Definition add_typedef_one (modifiers : Z) (orig_type : hlsl_type)
    (v : parse_variable_def) (c : hlsl_parse_ctx) : bool * hlsl_parse_ctx :=
  let '(type, c1) :=
    if negb (v_array_size v =? 0) then (Some (new_array_type orig_type (v_array_size v)), c)
    else clone_hlsl_type orig_type 0 c in
  match type with
  | None => (false, c1)
  | Some type =>
      let type1 := set_ty_name type (Some (v_name v)) in
      let type2 := set_ty_modifiers type1 (Z.lor (ty_modifiers type1) modifiers) in
      let '(type3, c2) :=
        if negb (class_eqb (ty_type type2) HLSL_CLASS_MATRIX) then
          (type2, check_invalid_matrix_modifiers (ty_modifiers type2) (v_loc v) c1)
        else
          (set_ty_reg_size type2
             (if is_row_major type2 then ty_dimy type2 else ty_dimx type2), c1) in
      let c3 :=
        if has_bits (ty_modifiers type3) HLSL_MODIFIER_COLUMN_MAJOR
           && has_bits (ty_modifiers type3) HLSL_MODIFIER_ROW_MAJOR
        then hlsl_report_message (v_loc v) HLSL_LEVEL_ERROR
               "more than one matrix majority keyword" c2
        else c2 in
      let '(ret, c4) := add_type_to_scope (v_name v) type3 c3 in
      (true,
       if ret then c4
       else hlsl_report_message (v_loc v) HLSL_LEVEL_ERROR
              ("redefinition of custom type '" +:+ v_name v +:+ "'") c4)
  end.

Fixpoint add_typedef (modifiers : Z) (orig_type : hlsl_type)
    (l : list parse_variable_def) (c : hlsl_parse_ctx) : bool * hlsl_parse_ctx :=
  match l with
  | [] => (true, c)
  | v :: rest =>
      match add_typedef_one modifiers orig_type v c with
      | (false, c1) => (false, c1)
      | (true, c1) => add_typedef modifiers orig_type rest c1
      end
  end.

(** ** Swizzles *)

(** [new_swizzle]: a swizzle node over [val], typed as a vector of
    [components] components of the base type of [val]. *)
Definition new_swizzle (s : Z) (components : Z) (val : hlsl_ir_node)
    (val_type : hlsl_type) (loc : source_location) (c : hlsl_parse_ctx)
    : option hlsl_ir_node * hlsl_parse_ctx :=
  match ctx_alloc c with
  | (None, c1) => (None, c1)
  | (Some a, c1) =>
      (Some (mk_node a
               (Some (new_hlsl_type None HLSL_CLASS_VECTOR (ty_base_type val_type)
                        components 1))
               loc 0 (HLSL_IR_SWIZZLE (node_addr val) s)),
       c1)
  end.

Definition char_code (ch : ascii) : Z := Z.of_nat (nat_of_ascii ch).

Definition ascii_eqb (a b : ascii) : bool := char_code a =? char_code b.

(** The two component alphabets [c[set]] of [get_swizzle]. *)
Definition swizzle_set (set : Z) : list ascii :=
  if set =? 0 then ["x"; "y"; "z"; "w"]%char else ["r"; "g"; "b"; "a"]%char.

(** The inner search [for (s = 0; s < 4; ++s)]: the position of the character
    in the alphabet, 4 when it is not there. *)
Fixpoint find_component (alphabet : list ascii) (ch : ascii) (s : Z) : Z :=
  match alphabet with
  | [] => s
  | a :: rest => if ascii_eqb ch a then s else find_component rest ch (s + 1)
  end.

(** The ways the loop over the characters of a vector swizzle ends: by
    [break] with [valid] false, by [return NULL], or at the end of the
    string.  The mask built so far survives a [break]. *)
Inductive vector_scan : Type :=
| scan_break (swiz : Z)
| scan_return_null
| scan_end (swiz component : Z).

Fixpoint vector_swizzle_scan (set dimx : Z) (chars : list ascii)
    (swiz component : Z) : vector_scan :=
  match chars with
  | [] => scan_end swiz component
  | ch :: rest =>
      let s := find_component (swizzle_set set) ch 0 in
      if s =? 4 then scan_break swiz
      else if s >=? dimx then scan_return_null
      else vector_swizzle_scan set dimx rest
             (Z.lor swiz (u32 (Z.shiftl s (component * 2)))) (component + 1)
  end.

(** The loop of the matrix branch, one group of [inc] characters at a time;
    [None] stands for [return NULL]. *)
Fixpoint matrix_swizzle_scan (m_swizzle : bool) (dimx dimy : Z)
    (chars : list ascii) (swiz component : Z) : option (Z * Z) :=
  let step (x y : Z) (rest : list ascii)
           (continue : list ascii -> Z -> Z -> option (Z * Z)) :=
    if (x >=? dimx) || (y >=? dimy) then None
    else continue rest
           (Z.lor swiz (u32 (Z.shiftl (Z.lor (u32 (Z.shiftl y 4)) x) (component * 8))))
           (component + 1) in
  match chars with
  | [] => Some (swiz, component)
  | c0 :: tl0 =>
      if negb (ascii_eqb c0 "_") then None
      else if m_swizzle then
        match tl0 with
        | c1 :: c2 :: c3 :: rest =>
            if negb (ascii_eqb c1 "m") then None
            else step (u32 (char_code c2 - char_code "0"))
                      (u32 (char_code c3 - char_code "0")) rest
                      (matrix_swizzle_scan m_swizzle dimx dimy)
        | _ => None
        end
      else
        match tl0 with
        | c1 :: c2 :: rest =>
            step (u32 (char_code c1 - char_code "1"))
                 (u32 (char_code c2 - char_code "1")) rest
                 (matrix_swizzle_scan m_swizzle dimx dimy)
        | _ => None
        end
  end.

(** [get_swizzle]; [None] is the null pointer.  The operand is a node with a
    data type. *)
Definition get_swizzle (value : hlsl_ir_node) (swizzle : string)
    (loc : source_location) (c : hlsl_parse_ctx)
    : option hlsl_ir_node * hlsl_parse_ctx :=
  match node_data_type value with
  | None => (None, c)
  | Some vt =>
      let chars := list_ascii_of_string swizzle in
      let len := Z.of_nat (length chars) in
      if class_eqb (ty_type vt) HLSL_CLASS_MATRIX then
        if (len <? 3) || negb (ascii_eqb (nth 0 chars "000"%char) "_") then (None, c)
        else
          let m_swizzle := ascii_eqb (nth 1 chars "000"%char) "m" in
          let inc := if m_swizzle then 4 else 3 in
          if negb (len mod inc =? 0) || (len >? inc * 4) then (None, c)
          else
            match matrix_swizzle_scan m_swizzle (ty_dimx vt) (ty_dimy vt) chars 0 0 with
            | None => (None, c)
            | Some (swiz, component) => new_swizzle swiz component value vt loc c
            end
      else if len >? 4 then (None, c)
      else
        match vector_swizzle_scan 0 (ty_dimx vt) chars 0 0 with
        | scan_return_null => (None, c)
        | scan_end swiz component => new_swizzle swiz component value vt loc c
        | scan_break swiz =>
            match vector_swizzle_scan 1 (ty_dimx vt) chars swiz 0 with
            | scan_return_null => (None, c)
            | scan_end swiz1 component => new_swizzle swiz1 component value vt loc c
            | scan_break _ => (None, c)
            end
        end
  end.

(** ** Loops *)

(** Modelled from the spec: [new_unary_expr] (private header and utility
    file): one new expression node with the operator and its operand, typed as
    the operand. *)
Definition new_unary_expr (op : hlsl_ir_expr_op) (op1 : hlsl_ir_node)
    (loc : source_location) (c : hlsl_parse_ctx)
    : option hlsl_ir_node * hlsl_parse_ctx :=
  match ctx_alloc c with
  | (None, c1) => (None, c1)
  | (Some a, c1) =>
      (Some (mk_node a (node_data_type op1) loc 0
               (HLSL_IR_EXPR op (node_addr op1) None None)), c1)
  end.

(** [append_conditional_break]: [None] is the result [FALSE]; otherwise the
    condition list as the function leaves it. *)
Definition append_conditional_break (cond_list : list hlsl_ir_node)
    (c : hlsl_parse_ctx) : option (list hlsl_ir_node) * hlsl_parse_ctx :=
  match node_from_list cond_list with
  | None => (Some cond_list, c)
  | Some condition =>
      match new_unary_expr HLSL_IR_UNOP_LOGIC_NOT condition (node_loc condition) c with
      | (None, c1) => (None, c1)
      | (Some not, c1) =>
          match ctx_alloc c1 with
          | (None, c2) => (None, c2)
          | (Some iff, c2) =>
              match ctx_alloc c2 with
              | (None, c3) => (None, c3)
              | (Some _, c3) =>
                  match ctx_alloc c3 with
                  | (None, c4) => (None, c4)
                  | (Some jump, c4) =>
                      let jump_node :=
                        mk_node jump None no_location 0
                          (HLSL_IR_JUMP HLSL_IR_JUMP_BREAK None) in
                      let iff_node :=
                        mk_node iff None no_location 0
                          (HLSL_IR_IF (node_addr not) [jump_node] None) in
                      (Some (cond_list ++ [not; iff_node]), c4)
                  end
              end
          end
      end
  end.

Inductive loop_type : Type :=
| LOOP_FOR
| LOOP_WHILE
| LOOP_DO_WHILE.

Definition is_do_while (t : loop_type) : bool :=
  match t with LOOP_DO_WHILE => true | _ => false end.

Definition list_of_null (l : option (list hlsl_ir_node)) : list hlsl_ir_node :=
  default [] l.

(** [create_loop]; [init] and [iter] may be null pointers, and [None] is the
    null result of the out-of-memory exit. *)
Definition create_loop (type : loop_type) (init : option (list hlsl_ir_node))
    (cond : list hlsl_ir_node) (iter : option (list hlsl_ir_node))
    (body : list hlsl_ir_node) (loc : source_location) (c : hlsl_parse_ctx)
    : option (list hlsl_ir_node) * hlsl_parse_ctx :=
  match ctx_alloc c with
  | (None, c1) => (None, c1)
  | (Some _, c1) =>
      let list0 := list_of_null init in
      match ctx_alloc c1 with
      | (None, c2) => (None, c2)
      | (Some loop, c2) =>
          match ctx_alloc c2 with
          | (None, c3) => (None, c3)
          | (Some _, c3) =>
              match append_conditional_break cond c3 with
              | (None, c4) => (None, c4)
              | (Some cond1, c4) =>
                  let body0 := if negb (is_do_while type) then cond1 else [] in
                  let body1 := body0 ++ body in
                  let body2 := body1 ++ list_of_null iter in
                  let body3 := if is_do_while type then body2 ++ cond1 else body2 in
                  (Some (list0 ++ [mk_node loop None loc 0 (HLSL_IR_LOOP body3 0)]), c4)
              end
          end
      end
  end.

(** The four alternatives of the rule [loop_statement]. *)
Definition loop_statement_while (cond body : list hlsl_ir_node)
    (loc : source_location) (c : hlsl_parse_ctx) :=
  create_loop LOOP_WHILE None cond None body loc c.

Definition loop_statement_do_while (body cond : list hlsl_ir_node)
    (loc : source_location) (c : hlsl_parse_ctx) :=
  create_loop LOOP_DO_WHILE None cond None body loc c.

Definition loop_statement_for (init : option (list hlsl_ir_node))
    (cond iter body : list hlsl_ir_node) (loc : source_location)
    (c : hlsl_parse_ctx) :=
  create_loop LOOP_FOR init cond (Some iter) body loc c.

(** ** Instruction indices *)

(** [index_instructions] on one instruction and on a list.  The instruction
    takes the index and the count moves on (within [unsigned int]); the
    branches of an [if] and the body of a loop are numbered next, and a loop
    records the index reached after its body. *)
Fixpoint index_instruction (instr : hlsl_ir_node) (index : Z) {struct instr}
    : hlsl_ir_node * Z :=
  let index_list :=
    fix index_list (l : list hlsl_ir_node) (index : Z) {struct l}
        : list hlsl_ir_node * Z :=
      match l with
      | [] => ([], index)
      | instr :: rest =>
          let '(instr1, index1) := index_instruction instr index in
          let '(rest1, index2) := index_list rest index1 in
          (instr1 :: rest1, index2)
      end in
  match instr with
  | mk_node a t loc _ p =>
      let index1 := u32 (index + 1) in
      match p with
      | HLSL_IR_IF cond then_instrs else_instrs =>
          let '(then1, index2) := index_list then_instrs index1 in
          match else_instrs with
          | Some else_instrs =>
              let '(else1, index3) := index_list else_instrs index2 in
              (mk_node a t loc index (HLSL_IR_IF cond then1 (Some else1)), index3)
          | None => (mk_node a t loc index (HLSL_IR_IF cond then1 None), index2)
          end
      | HLSL_IR_LOOP body _ =>
          let '(body1, index2) := index_list body index1 in
          (mk_node a t loc index (HLSL_IR_LOOP body1 index2), index2)
      | _ => (mk_node a t loc index p, index1)
      end
  end.

Fixpoint index_instructions (instrs : list hlsl_ir_node) (index : Z)
    : list hlsl_ir_node * Z :=
  match instrs with
  | [] => ([], index)
  | instr :: rest =>
      let '(instr1, index1) := index_instruction instr index in
      let '(rest1, index2) := index_instructions rest index1 in
      (instr1 :: rest1, index2)
  end.

(** ** Liveness *)

(** The objects the liveness pass writes to: the variables, and the
    [last_read] field of the instruction nodes, by address.  A node that was
    never written has [last_read] 0. *)
Record liveness : Type := mk_liveness {
  live_vars : gmap Z hlsl_ir_var;
  live_last_read : gmap Z Z }.

Definition node_last_read (st : liveness) (node : Z) : Z :=
  default 0 (live_last_read st !! node).

(** [node->last_read = i]. *)
Definition set_node_last_read (node : Z) (i : Z) (st : liveness) : liveness :=
  mk_liveness (live_vars st) (<[node := i]> (live_last_read st)).

(** [var->last_read = i]. *)
Definition set_last_read (var : Z) (i : Z) (st : liveness) : liveness :=
  mk_liveness (alter (fun v => set_ivar_last_read v i) var (live_vars st))
    (live_last_read st).

(** [var->first_write = i]. *)
Definition set_first_write (var : Z) (i : Z) (st : liveness) : liveness :=
  mk_liveness (alter (fun v => set_ivar_first_write v i) var (live_vars st))
    (live_last_read st).

Fixpoint hlsl_var_from_deref (deref : hlsl_deref) : Z :=
  match deref with
  | HLSL_IR_DEREF_VAR var => var
  | HLSL_IR_DEREF_ARRAY _ array_src _ => hlsl_var_from_deref array_src
  | HLSL_IR_DEREF_RECORD _ record_src _ => hlsl_var_from_deref record_src
  end.

(** The body of the loop of [compute_liveness_recurse] for one instruction,
    and the loop itself. *)
Fixpoint compute_liveness_instr (instr : hlsl_ir_node) (loop_first loop_last : Z)
    (st : liveness) {struct instr} : liveness :=
  let recurse :=
    fix recurse (l : list hlsl_ir_node) (loop_first loop_last : Z)
        (st : liveness) {struct l} : liveness :=
      match l with
      | [] => st
      | instr :: rest =>
          recurse rest loop_first loop_last
            (compute_liveness_instr instr loop_first loop_last st)
      end in
  match instr with
  | mk_node _ _ _ index p =>
      match p with
      | HLSL_IR_ASSIGNMENT lhs rhs =>
          let var := hlsl_var_from_deref lhs in
          let st1 :=
            match live_vars st !! var with
            | Some v =>
                if ivar_first_write v =? 0 then
                  set_first_write var
                    (if negb (loop_first =? 0) then min index loop_first else index) st
                else st
            | None => st
            end in
          set_node_last_read rhs index st1
      | HLSL_IR_CONSTANT _ => st
      | HLSL_IR_CONSTRUCTOR args =>
          fold_left (fun s arg => set_node_last_read arg index s) args st
      | HLSL_IR_DEREF src =>
          let var := hlsl_var_from_deref src in
          let st1 :=
            set_last_read var
              (if negb (loop_last =? 0) then max index loop_last else index) st in
          match src with
          | HLSL_IR_DEREF_ARRAY _ _ idx => set_node_last_read idx index st1
          | _ => st1
          end
      | HLSL_IR_EXPR _ operand0 operand1 operand2 =>
          let st1 := set_node_last_read operand0 index st in
          let st2 :=
            match operand1 with
            | Some o => set_node_last_read o index st1
            | None => st1
            end in
          match operand2 with
          | Some o => set_node_last_read o index st2
          | None => st2
          end
      | HLSL_IR_IF condition then_instrs else_instrs =>
          let st1 := recurse then_instrs loop_first loop_last st in
          let st2 :=
            match else_instrs with
            | Some else_instrs => recurse else_instrs loop_first loop_last st1
            | None => st1
            end in
          set_node_last_read condition index st2
      | HLSL_IR_JUMP type return_value =>
          match type, return_value with
          | HLSL_IR_JUMP_RETURN, Some value => set_node_last_read value index st
          | _, _ => st
          end
      | HLSL_IR_LOOP body next_index =>
          recurse body
            (if negb (loop_first =? 0) then loop_first else index)
            (if negb (loop_last =? 0) then loop_last else next_index) st
      | HLSL_IR_SWIZZLE val _ => set_node_last_read val index st
      end
  end.

Fixpoint compute_liveness_recurse (instrs : list hlsl_ir_node)
    (loop_first loop_last : Z) (st : liveness) : liveness :=
  match instrs with
  | [] => st
  | instr :: rest =>
      compute_liveness_recurse rest loop_first loop_last
        (compute_liveness_instr instr loop_first loop_last st)
  end.

(** The two loops that open [compute_liveness]: over the variables of the
    global scope, and over the parameters of the entry function. *)
Definition liveness_globals (globals_vars : list Z) (st : liveness) : liveness :=
  fold_left (fun s var => set_first_write var 1 s) globals_vars st.

Definition liveness_parameter (var : Z) (st : liveness) : liveness :=
  match live_vars st !! var with
  | None => st
  | Some v =>
      let st1 :=
        if has_bits (ivar_modifiers v) HLSL_STORAGE_IN
        then set_first_write var 1 st else st in
      if has_bits (ivar_modifiers v) HLSL_STORAGE_OUT
      then set_last_read var UINT_MAX st1 else st1
  end.

Definition liveness_parameters (parameters : list Z) (st : liveness) : liveness :=
  fold_left (fun s var => liveness_parameter var s) parameters st.

Definition compute_liveness_start (globals_vars : list Z)
    (entry_func : hlsl_ir_function_decl) (st : liveness) : liveness :=
  liveness_parameters (func_parameters entry_func)
    (liveness_globals globals_vars st).

(** [compute_liveness]; the body of the entry function is the list the
    recursion walks. *)
Definition compute_liveness (globals_vars : list Z)
    (entry_func : hlsl_ir_function_decl) (body : list hlsl_ir_node)
    (st : liveness) : liveness :=
  compute_liveness_recurse body 0 0
    (compute_liveness_start globals_vars entry_func st).

(** ** Declarations *)

(** Modelled from the spec: [find_function] (utility file): whether a function
    of that name is in the function table. *)
Definition find_function (name : string) (c : hlsl_parse_ctx) : bool :=
  bool_decide (is_Some (ctx_functions c !! name)).

Definition var_named (c : hlsl_parse_ctx) (name : string) (a : Z) : bool :=
  match ctx_vars c !! a with
  | Some v => String.eqb (ivar_name v) name
  | None => false
  end.

(** Modelled from the spec: [get_variable] (utility file): the variable of
    that name in the scope or, walking outwards, in an enclosing scope. *)
Fixpoint get_variable_from (c : hlsl_parse_ctx) (scopes : list hlsl_scope)
    (name : string) : option Z :=
  match scopes with
  | [] => None
  | s :: upper =>
      match find (var_named c name) (scope_vars s) with
      | Some a => Some a
      | None => get_variable_from c upper name
      end
  end.

Definition get_variable (c : hlsl_parse_ctx) (name : string) : option Z :=
  get_variable_from c (ctx_scopes c) name.

(** Modelled from the spec: [add_declaration] (utility file).  A variable
    whose name is taken in the current scope is refused; otherwise it is
    appended to the variables of that scope. *)
Definition add_declaration (a : Z) (decl : hlsl_ir_var) (local_var : bool)
    (c : hlsl_parse_ctx) : bool * hlsl_parse_ctx :=
  match ctx_scopes c with
  | [] => (false, c)
  | s :: upper =>
      match find (var_named c (ivar_name decl)) (scope_vars s) with
      | Some _ => (false, c)
      | None =>
          (true,
           set_ctx_vars
             (set_ctx_scopes c
                (mk_hlsl_scope (scope_vars s ++ [a]) (scope_types s) :: upper))
             (<[a := decl]> (ctx_vars c)))
      end
  end.

Definition local_invalid_modifiers : Z :=
  Z.lor HLSL_STORAGE_EXTERN
    (Z.lor HLSL_STORAGE_SHARED (Z.lor HLSL_STORAGE_GROUPSHARED HLSL_STORAGE_UNIFORM)).

(** [declare_variable]; the variable lives at address [a]. *)
Definition declare_variable (a : Z) (decl : hlsl_ir_var) (local : bool)
    (c : hlsl_parse_ctx) : bool * hlsl_parse_ctx :=
  let c1 :=
    if negb (class_eqb (ty_type (ivar_data_type decl)) HLSL_CLASS_MATRIX)
    then check_invalid_matrix_modifiers (ivar_modifiers decl) (ivar_loc decl) c
    else c in
  let after_checks (c2 : hlsl_parse_ctx) :=
    let '(ret, c3) := add_declaration a decl local c2 in
    if negb ret then
      match get_variable c3 (ivar_name decl) with
      | Some old_addr =>
          let c4 :=
            hlsl_report_message (ivar_loc decl) HLSL_LEVEL_ERROR
              (dquote +:+ ivar_name decl +:+ dquote +:+ " already declared") c3 in
          let old_loc := default no_location (ivar_loc <$> ctx_vars c4 !! old_addr) in
          let old_name := default EmptyString (ivar_name <$> ctx_vars c4 !! old_addr) in
          (false,
           hlsl_report_message old_loc HLSL_LEVEL_NOTE
             (dquote +:+ old_name +:+ dquote +:+ " was previously declared here") c4)
      | None => (false, c3)
      end
    else (true, c3) in
  if local then
    let invalid := Z.land (ivar_modifiers decl) local_invalid_modifiers in
    let c2 :=
      if negb (invalid =? 0) then
        hlsl_report_message (ivar_loc decl) HLSL_LEVEL_ERROR
          ("modifier '" +:+ debug_modifiers invalid
           +:+ "' invalid for local variables") c1
      else c1 in
    match ivar_semantic decl with
    | Some _ =>
        (false,
         hlsl_report_message (ivar_loc decl) HLSL_LEVEL_ERROR
           "semantics are not allowed on local variables" c2)
    | None => after_checks c2
    end
  else if find_function (ivar_name decl) c1 then
    (false,
     hlsl_report_message (ivar_loc decl) HLSL_LEVEL_ERROR
       ("redefinition of '" +:+ ivar_name decl +:+ "'") c1)
  else after_checks c1.

Definition node_components (n : hlsl_ir_node) : Z :=
  match node_data_type n with
  | Some t => components_count_type t
  | None => 0
  end.

Definition initializer_size (initializer : parse_initializer) : Z :=
  fold_left (fun count arg => u32 (count + node_components arg))
    (init_args initializer) 0.

(** Modelled from the spec: [new_var_deref] (utility file): a dereference of
    the variable, typed as the variable. *)
Definition new_var_deref (var : Z) (var_type : hlsl_type) (c : hlsl_parse_ctx)
    : option hlsl_ir_node * hlsl_parse_ctx :=
  match ctx_alloc c with
  | (None, c1) => (None, c1)
  | (Some a, c1) =>
      (Some (mk_node a (Some var_type) no_location 0
               (HLSL_IR_DEREF (HLSL_IR_DEREF_VAR var))), c1)
  end.

Definition deref_src (n : hlsl_ir_node) : option hlsl_deref :=
  match node_payload n with
  | HLSL_IR_DEREF src => Some src
  | _ => None
  end.

(** Modelled from the spec: [new_record_deref] (utility file): a dereference
    of a field of the record a node yields, typed as the field. *)
Definition new_record_deref (record : hlsl_ir_node) (field : hlsl_struct_field)
    (c : hlsl_parse_ctx) : option hlsl_ir_node * hlsl_parse_ctx :=
  match deref_src record with
  | None => (None, c)
  | Some record_src =>
      match ctx_alloc c with
      | (None, c1) => (None, c1)
      | (Some a, c1) =>
          (Some (mk_node a (Some (field_type field)) no_location 0
                   (HLSL_IR_DEREF
                      (HLSL_IR_DEREF_RECORD (node_addr record) record_src
                         (field_name field)))), c1)
      end
  end.

(** Modelled from the spec: [make_assignment] (utility file) for the plain
    assignment operator: an assignment node storing the right-hand side
    through the dereference on the left, typed as the left-hand side. *)
Definition make_assignment (lhs rhs : hlsl_ir_node) (c : hlsl_parse_ctx)
    : option hlsl_ir_node * hlsl_parse_ctx :=
  match deref_src lhs with
  | None => (None, c)
  | Some src =>
      match ctx_alloc c with
      | (None, c1) => (None, c1)
      | (Some a, c1) =>
          (Some (mk_node a (node_data_type lhs) (node_loc rhs) 0
                   (HLSL_IR_ASSIGNMENT src (node_addr rhs))), c1)
      end
  end.

Definition set_node_loc (n : hlsl_ir_node) (l : source_location) : hlsl_ir_node :=
  mk_node (node_addr n) (node_data_type n) l (node_index n) (node_payload n).

Definition type_fields (t : hlsl_type) : list hlsl_struct_field :=
  match ty_e t with
  | e_elements fields => fields
  | _ => []
  end.

(** The loop over the fields in [struct_var_initializer]; [args] are the
    initializer arguments from the current position on.  [None] stands for a
    null pointer handed to code that dereferences it. *)
Fixpoint struct_var_initializer_fields (var : Z) (var_type : hlsl_type)
    (fields : list hlsl_struct_field) (args : list hlsl_ir_node)
    (instrs : list hlsl_ir_node) (c : hlsl_parse_ctx)
    : option (list hlsl_ir_node * hlsl_parse_ctx) :=
  match fields with
  | [] => Some (instrs, c)
  | field :: fields' =>
      match args with
      | [] => Some (instrs, c)
      | node :: args' =>
          if components_count_type (field_type field) =? node_components node then
            match new_var_deref var var_type c with
            | (None, _) => None
            | (Some var_deref, c1) =>
                match new_record_deref var_deref field c1 with
                | (None, c2) => Some (instrs, c2)
                | (Some deref, c2) =>
                    let deref1 := set_node_loc deref (node_loc node) in
                    match make_assignment deref1 node c2 with
                    | (None, _) => None
                    | (Some assignment, c3) =>
                        struct_var_initializer_fields var var_type fields' args'
                          (instrs ++ [deref1; assignment]) c3
                    end
                end
            end
          else
            struct_var_initializer_fields var var_type fields' args' instrs c
      end
  end.

Definition struct_var_initializer (instrs : list hlsl_ir_node) (var : Z)
    (var_decl : hlsl_ir_var) (initializer : parse_initializer)
    (c : hlsl_parse_ctx) : option (list hlsl_ir_node * hlsl_parse_ctx) :=
  let type := ivar_data_type var_decl in
  if negb (initializer_size initializer =? components_count_type type) then
    Some (instrs,
          hlsl_report_message (ivar_loc var_decl) HLSL_LEVEL_ERROR
            "structure initializer mismatch" c)
  else
    struct_var_initializer_fields var type (type_fields type)
      (init_args initializer) (instrs ++ init_instrs initializer) c.

Definition is_global_scope (c : hlsl_parse_ctx) : bool :=
  match ctx_scopes c with
  | [_] => true
  | _ => false
  end.

(** The body of the loop of [declare_vars] for one declarator [v]: the
    statements gathered so far and the context, before and after.  [None]
    stands for a null pointer handed to code that dereferences it. *)
Definition declare_var (basic_type : hlsl_type) (modifiers : Z)
    (v : parse_variable_def) (statements_list : list hlsl_ir_node)
    (c : hlsl_parse_ctx) : option (list hlsl_ir_node * hlsl_parse_ctx) :=
  match ctx_alloc c with
  | (None, c1) => Some (statements_list, c1)
  | (Some var, c1) =>
      let type :=
        if negb (v_array_size v =? 0) then new_array_type basic_type (v_array_size v)
        else basic_type in
      let global := is_global_scope c1 in
      let var_modifiers1 :=
        if global then Z.lor modifiers HLSL_STORAGE_UNIFORM else modifiers in
      let decl :=
        mk_hlsl_ir_var type (v_loc v) (v_name v) var_modifiers1 (v_semantic v)
          (v_reg_reservation v) 0 0 in
      let local := negb global in
      if has_bits (ty_modifiers type) HLSL_MODIFIER_CONST
         && negb (has_bits var_modifiers1 HLSL_STORAGE_UNIFORM)
         && (args_count (v_initializer v) =? 0)
      then
        Some (statements_list,
              hlsl_report_message (v_loc v) HLSL_LEVEL_ERROR
                "const variable without initializer" c1)
      else
        let '(ret, c2) := declare_variable var decl local c1 in
        if negb ret then Some (statements_list, c2)
        else if args_count (v_initializer v) =? 0 then Some (statements_list, c2)
        else
          let size := initializer_size (v_initializer v) in
          let mismatch :=
            hlsl_report_message (v_loc v) HLSL_LEVEL_ERROR
              ("'" +:+ v_name v +:+ "' initializer does not match") in
          if class_leb (ty_type type) HLSL_CLASS_LAST_NUMERIC
             && negb (u32 (ty_dimx type * ty_dimy type) =? size)
             && negb (size =? 1)
             && (size <? u32 (ty_dimx type * ty_dimy type))
          then Some (statements_list, mismatch c2)
          else if (class_eqb (ty_type type) HLSL_CLASS_STRUCT
                   || class_eqb (ty_type type) HLSL_CLASS_ARRAY)
                  && negb (components_count_type type =? size)
          then Some (statements_list, mismatch c2)
          else if class_eqb (ty_type type) HLSL_CLASS_STRUCT then
            struct_var_initializer statements_list var decl (v_initializer v) c2
          else if negb (class_leb (ty_type type) HLSL_CLASS_LAST_NUMERIC) then
            Some (statements_list, c2)
          else if v_array_size v >? 0 then Some (statements_list, c2)
          else if args_count (v_initializer v) >? 1 then Some (statements_list, c2)
          else
            let list1 := statements_list ++ init_instrs (v_initializer v) in
            match new_var_deref var type c2 with
            | (None, _) => None
            | (Some deref, c3) =>
                match init_args (v_initializer v) with
                | [] => None
                | arg0 :: _ =>
                    match make_assignment deref arg0 c3 with
                    | (None, _) => None
                    | (Some assignment, c4) =>
                        Some (list1 ++ [deref; assignment], c4)
                    end
                end
            end
  end.

Fixpoint declare_vars_loop (basic_type : hlsl_type) (modifiers : Z)
    (var_list : list parse_variable_def) (statements_list : list hlsl_ir_node)
    (c : hlsl_parse_ctx) : option (list hlsl_ir_node * hlsl_parse_ctx) :=
  match var_list with
  | [] => Some (statements_list, c)
  | v :: rest =>
      match declare_var basic_type modifiers v statements_list c with
      | None => None
      | Some (list1, c1) => declare_vars_loop basic_type modifiers rest list1 c1
      end
  end.

(** The outcome of a grammar action or of a function with an assertion: it
    completes with a value, or the program stops there (a failed assertion, a
    null pointer dereferenced). *)
Inductive outcome (A : Type) : Type :=
| completes (a : A)
| stops.

Arguments completes {A} a.
Arguments stops {A}.

(** [declare_vars]: the statement list (a null pointer when it could not be
    allocated) and the context. *)
Definition declare_vars (basic_type : hlsl_type) (modifiers : Z)
    (var_list : option (list parse_variable_def)) (c : hlsl_parse_ctx)
    : outcome (option (list hlsl_ir_node) * hlsl_parse_ctx) :=
  let '(statements_list, c1) := ctx_alloc c in
  if class_eqb (ty_type basic_type) HLSL_CLASS_MATRIX
     && negb (has_bits (ty_modifiers basic_type) HLSL_MODIFIERS_MAJORITY_MASK)
  then stops
  else
    match statements_list with
    | None => completes (None, c1)
    | Some _ =>
        match var_list with
        | None => completes (Some [], c1)
        | Some var_list =>
            match declare_vars_loop basic_type modifiers var_list [] c1 with
            | None => stops
            | Some (l, c2) => completes (Some l, c2)
            end
        end
    end.

(** The rule [declaration]: [var_modifiers type variables_def ';'], where
    [None] is [YYABORT]. *)
Definition declaration (kws : list (modifier_keyword * source_location))
    (type : hlsl_type) (variables_def : list parse_variable_def)
    (loc : source_location) (c : hlsl_parse_ctx)
    : outcome (option (option (list hlsl_ir_node)) * hlsl_parse_ctx) :=
  let '(modifiers, c1) := var_modifiers kws c in
  match apply_type_modifiers type modifiers loc c1 with
  | (None, _, c2) => completes (None, c2)
  | (Some type1, modifiers1, c2) =>
      match declare_vars type1 modifiers1 (Some variables_def) c2 with
      | stops => stops
      | completes (l, c3) => completes (Some l, c3)
      end
  end.

(** ** Array sizes *)

(** The conversion of a floating-point value to [unsigned int]: the fraction
    is dropped.  A constant is kept as the rational number it denotes. *)
Definition float_to_uint (q : Q) : Z :=
  u32 (Z.quot (Qnum q) (Z.pos (Qden q))).

Definition evaluate_array_dimension (node : hlsl_ir_node) : Z :=
  match node_data_type node with
  | None => 0
  | Some t =>
      if negb (class_eqb (ty_type t) HLSL_CLASS_SCALAR) then 0
      else
        match node_payload node with
        | HLSL_IR_CONSTANT v =>
            match ty_base_type t with
            | HLSL_TYPE_UINT => u32 (value_u v)
            | HLSL_TYPE_INT => u32 (value_i v)
            | HLSL_TYPE_FLOAT => float_to_uint (value_f v)
            | HLSL_TYPE_DOUBLE => float_to_uint (value_d v)
            | HLSL_TYPE_BOOL => u32 (value_b v)
            | _ => 0
            end
        | _ => 0
        end
  end.

(** The rule [array]: empty, or a bracketed expression whose result node is
    [size_expr]; the value is the size, and [None] is [YYABORT]. *)
Definition array (size_expr : option hlsl_ir_node) (loc : source_location)
    (c : hlsl_parse_ctx) : option Z * hlsl_parse_ctx :=
  match size_expr with
  | None => (Some 0, c)
  | Some node =>
      let size := evaluate_array_dimension node in
      if size =? 0 then
        (None,
         hlsl_report_message loc HLSL_LEVEL_ERROR
           ("array size is not a positive integer constant" +:+ newline) c)
      else if size >? 65536 then
        (None,
         hlsl_report_message loc HLSL_LEVEL_ERROR
           "array size must be between 1 and 65536" c)
      else (Some size, c)
  end.

(** ** Predefined types and the entry point *)

Definition scalar_base_types : list (hlsl_base_type * string) :=
  [ (HLSL_TYPE_FLOAT, "float"); (HLSL_TYPE_HALF, "half");
    (HLSL_TYPE_DOUBLE, "double"); (HLSL_TYPE_INT, "int");
    (HLSL_TYPE_UINT, "uint"); (HLSL_TYPE_BOOL, "bool") ].

Definition add_predefined (name : string) (type_class : hlsl_type_class)
    (bt : hlsl_base_type) (x y : Z) (c : hlsl_parse_ctx) : hlsl_parse_ctx :=
  snd (add_type_to_scope name (new_hlsl_type (Some name) type_class bt x y) c).

Definition declare_predefined_xy (bt : hlsl_base_type * string) (y x : Z)
    (c : hlsl_parse_ctx) : hlsl_parse_ctx :=
  let c1 :=
    add_predefined (snd bt +:+ pretty x +:+ "x" +:+ pretty y)
      HLSL_CLASS_MATRIX (fst bt) x y c in
  if y =? 1 then
    let c2 := add_predefined (snd bt +:+ pretty x) HLSL_CLASS_VECTOR (fst bt) x y c1 in
    if x =? 1 then add_predefined (snd bt) HLSL_CLASS_SCALAR (fst bt) x y c2
    else c2
  else c1.

Definition declare_predefined_types (c : hlsl_parse_ctx) : hlsl_parse_ctx :=
  let c1 :=
    fold_left
      (fun c bt =>
         fold_left
           (fun c y => fold_left (fun c x => declare_predefined_xy bt y x c) [1; 2; 3; 4] c)
           [1; 2; 3; 4] c)
      scalar_base_types c in
  let c2 := add_predefined "DWORD" HLSL_CLASS_SCALAR HLSL_TYPE_INT 1 1 c1 in
  let c3 := add_predefined "FLOAT" HLSL_CLASS_SCALAR HLSL_TYPE_FLOAT 1 1 c2 in
  let c4 := add_predefined "VECTOR" HLSL_CLASS_VECTOR HLSL_TYPE_FLOAT 4 1 c3 in
  let c5 := add_predefined "MATRIX" HLSL_CLASS_MATRIX HLSL_TYPE_FLOAT 4 4 c4 in
  let c6 := add_predefined "STRING" HLSL_CLASS_OBJECT HLSL_TYPE_STRING 1 1 c5 in
  let c7 := add_predefined "TEXTURE" HLSL_CLASS_OBJECT HLSL_TYPE_TEXTURE 1 1 c6 in
  let c8 := add_predefined "PIXELSHADER" HLSL_CLASS_OBJECT HLSL_TYPE_PIXELSHADER 1 1 c7 in
  add_predefined "VERTEXSHADER" HLSL_CLASS_OBJECT HLSL_TYPE_VERTEXSHADER 1 1 c8.

(** The context as [parse_hlsl] sets it up before the parser runs: one scope,
    the global one, holding the predefined types. *)
Definition initial_ctx (h : heap) : hlsl_parse_ctx :=
  declare_predefined_types
    (mk_hlsl_parse_ctx PARSE_SUCCESS [] HLSL_COLUMN_MAJOR
       [mk_hlsl_scope [] ∅] ∅ ∅ None h).

Definition get_func_entry (name : string) (c : hlsl_parse_ctx)
    : option hlsl_ir_function_decl :=
  match ctx_functions c !! name with
  | Some (decl :: _) => Some decl
  | _ => None
  end.

Definition globals_vars (c : hlsl_parse_ctx) : list Z :=
  match last (ctx_scopes c) with
  | Some s => scope_vars s
  | None => []
  end.

Inductive shader_type : Type :=
| ST_VERTEX
| ST_PIXEL.

(** Modelled from the spec: [struct bwriter_shader], the bytecode object a
    compilation would hand to the bytecode writer; only its header fields. *)
Record bwriter_shader : Type := mk_bwriter_shader {
  shader_kind : shader_type;
  major_version : Z;
  minor_version : Z }.

Definition debugstr_a (s : string) : string := dquote +:+ s +:+ dquote.

Section Parser.

(** The parser bison generates from the grammar, run over the token stream of
    one compilation: it takes the context [parse_hlsl] has set up to the
    context the grammar actions leave. *)
Variable hlsl_parse : hlsl_parse_ctx -> hlsl_parse_ctx.

(** What [parse_hlsl] does between the lookup of the entry point and the
    label [out]: the body is indexed from 2 on, then liveness is computed.  A
    function that was declared and not defined has a null body, which
    [index_instructions] walks all the same. *)
Definition index_and_liveness (c : hlsl_parse_ctx)
    (entry_func : hlsl_ir_function_decl) : outcome (list hlsl_ir_node * liveness) :=
  match func_body entry_func with
  | None => stops
  | Some body =>
      let body1 := fst (index_instructions body 2) in
      completes
        (body1,
         compute_liveness (globals_vars c) entry_func body1
           (mk_liveness (ctx_vars c) ∅))
  end.

(** [parse_hlsl]: the pointer it returns and what it stores through
    [messages] (when that pointer is given).  Everything the compilation built
    is freed before the return. *)
Definition parse_hlsl (type : shader_type) (major minor : Z) (entrypoint : string)
    (messages : bool) (h : heap)
    : outcome (option bwriter_shader * option (option (list string))) :=
  let c := hlsl_parse (initial_ctx h) in
  let messages_out :=
    if messages then
      Some (if negb (Z.of_nat (length (ctx_messages c)) =? 0)
            then Some (ctx_messages c) else None)
    else None in
  match ctx_status c with
  | PARSE_ERR => completes (None, messages_out)
  | _ =>
      match get_func_entry entrypoint c with
      | None =>
          let c1 :=
            hlsl_message ("error: entry point " +:+ debugstr_a entrypoint
                          +:+ " is not defined" +:+ newline) c in
          completes (None, messages_out)
      | Some entry_func =>
          match index_and_liveness c entry_func with
          | stops => stops
          | completes _ => completes (None, messages_out)
          end
      end
  end.

End Parser.

(** The rule [typedef]: [KW_TYPEDEF var_modifiers typedef_type type_specs ';'];
    the result [false] is [YYABORT]. *)
Definition typedef (kws : list (modifier_keyword * source_location))
    (typedef_type : hlsl_type) (type_specs : list parse_variable_def)
    (loc : source_location) (c : hlsl_parse_ctx) : bool * hlsl_parse_ctx :=
  let '(modifiers, c1) := var_modifiers kws c in
  if negb (clear_bits modifiers HLSL_TYPE_MODIFIERS_MASK =? 0) then
    (false,
     hlsl_report_message loc HLSL_LEVEL_ERROR "modifier not allowed on typedefs" c1)
  else add_typedef modifiers typedef_type type_specs c1.

(** ** Sample inputs *)

Definition sample_loc (line col : Z) : source_location :=
  mk_source_location (Some "shader.hlsl") line col.

(** A heap on which no allocation fails. *)
Definition sample_heap : heap := mk_heap 4096 [].

Definition sample_ctx : hlsl_parse_ctx := initial_ctx sample_heap.

(** A declarator without array size, semantic or initializer. *)
Definition plain_declarator (name : string) (loc : source_location)
    : parse_variable_def :=
  mk_parse_variable_def loc name 0 None None (mk_parse_initializer [] []).

Definition predefined_type (name : string) : hlsl_type :=
  default (new_hlsl_type None HLSL_CLASS_OBJECT HLSL_TYPE_VOID 1 1)
    (get_type (ctx_scopes sample_ctx) name true).

(** The context after [typedef const float4x4 cm;] at global scope, and the
    type [cm] it declares. *)
Definition ctx_after_typedef_cm : hlsl_parse_ctx :=
  snd (typedef [(KW_CONST, sample_loc 1 9)] (predefined_type "float4x4")
         [plain_declarator "cm" (sample_loc 1 24)] (sample_loc 1 1) sample_ctx).

Definition type_cm : hlsl_type :=
  default (new_hlsl_type None HLSL_CLASS_OBJECT HLSL_TYPE_VOID 1 1)
    (get_type (ctx_scopes ctx_after_typedef_cm) "cm" true).

(** The modifier keywords of [const row_major cm x;], as the second
    declaration of the program. *)
Definition const_row_major : list (modifier_keyword * source_location) :=
  [(KW_CONST, sample_loc 2 1); (KW_ROW_MAJOR, sample_loc 2 7)].

(** A value of type [float4], the operand of the sample swizzles. *)
Definition sample_float4_value : hlsl_ir_node :=
  mk_node 16 (Some (predefined_type "float4")) (sample_loc 3 12) 0
    (HLSL_IR_DEREF (HLSL_IR_DEREF_VAR 8)).

Definition sample_float : option hlsl_type := Some (predefined_type "float").

Definition sample_constant (f : Q) : hlsl_constant_value :=
  mk_hlsl_constant_value 0 0 f 0 0.

(** The body of an entry function before it is indexed: a constant, a loop
    that reads the variable at address 8, negates what it read and leaves on
    it, and the return of the constant. *)
Definition sample_body : list hlsl_ir_node :=
  [ mk_node 40 sample_float (sample_loc 5 9) 0 (HLSL_IR_CONSTANT (sample_constant 1));
    mk_node 41 None (sample_loc 6 5) 0
      (HLSL_IR_LOOP
         [ mk_node 42 sample_float (sample_loc 6 12) 0
             (HLSL_IR_DEREF (HLSL_IR_DEREF_VAR 8));
           mk_node 43 sample_float (sample_loc 6 12) 0
             (HLSL_IR_EXPR HLSL_IR_UNOP_LOGIC_NOT 42 None None);
           mk_node 44 None no_location 0
             (HLSL_IR_IF 43
                [mk_node 45 None no_location 0 (HLSL_IR_JUMP HLSL_IR_JUMP_BREAK None)]
                None) ]
         0);
    mk_node 46 None (sample_loc 7 5) 0 (HLSL_IR_JUMP HLSL_IR_JUMP_RETURN (Some 40)) ].

(** The variable at address 8, a global of type [float]. *)
Definition sample_var : hlsl_ir_var :=
  mk_hlsl_ir_var (predefined_type "float") (sample_loc 4 7) "g"
    HLSL_STORAGE_UNIFORM None None 0 0.

Definition sample_liveness : liveness := mk_liveness {[ 8 := sample_var ]} ∅.

(** An entry function with an input parameter at address 9 and an output
    parameter at address 10, and the variables as the parser leaves them. *)
Definition sample_in_param : hlsl_ir_var :=
  mk_hlsl_ir_var (predefined_type "float4") (sample_loc 5 20) "p"
    HLSL_STORAGE_IN (Some "TEXCOORD") None 0 0.

Definition sample_out_param : hlsl_ir_var :=
  mk_hlsl_ir_var (predefined_type "float4") (sample_loc 5 40) "o"
    HLSL_STORAGE_OUT (Some "COLOR") None 0 0.

Definition sample_entry_func : hlsl_ir_function_decl :=
  mk_hlsl_ir_function_decl (predefined_type "float") (sample_loc 5 7) [9; 10]
    (Some "COLOR") (Some sample_body).

Definition sample_start : liveness :=
  mk_liveness {[ 8 := sample_var; 9 := sample_in_param; 10 := sample_out_param ]} ∅.

(** The condition [g < 1] and the iteration [++g] of a loop over the global at
    address 8, with the constant of the sample body. *)
Definition sample_cond : list hlsl_ir_node :=
  [ mk_node 50 sample_float (sample_loc 6 17) 0 (HLSL_IR_DEREF (HLSL_IR_DEREF_VAR 8));
    mk_node 51 sample_float (sample_loc 6 19) 0
      (HLSL_IR_EXPR HLSL_IR_BINOP_LESS 50 (Some 40) None) ].

Definition sample_iter : list hlsl_ir_node :=
  [ mk_node 52 sample_float (sample_loc 6 26) 0 (HLSL_IR_DEREF (HLSL_IR_DEREF_VAR 8));
    mk_node 53 sample_float (sample_loc 6 24) 0
      (HLSL_IR_EXPR HLSL_IR_UNOP_PREINC 52 None None) ].

(** The context inside a function body: one scope above the global scope. *)
Definition sample_local_ctx : hlsl_parse_ctx :=
  set_ctx_scopes sample_ctx (mk_hlsl_scope [] ∅ :: ctx_scopes sample_ctx).

(** The type [const int]. *)
Definition sample_const_int : hlsl_type :=
  set_ty_modifiers (predefined_type "int") HLSL_MODIFIER_CONST.

(** A declarator with one initializer expression, given by the instructions
    that compute it. *)
Definition initialized_declarator (name : string) (loc : source_location)
    (instrs : list hlsl_ir_node) : parse_variable_def :=
  mk_parse_variable_def loc name 0 None None
    (mk_parse_initializer (from_option (fun n => [n]) [] (node_from_list instrs))
       instrs).

(** The declarators of [float2 v = p;] with [p] of type [float4], and of
    [float4 w = q;] with [q] of type [float2]. *)
Definition sample_float2_value : hlsl_ir_node :=
  mk_node 17 (Some (predefined_type "float2")) (sample_loc 3 30) 0
    (HLSL_IR_DEREF (HLSL_IR_DEREF_VAR 8)).

Definition declarator_v : parse_variable_def :=
  initialized_declarator "v" (sample_loc 8 12) [sample_float4_value].

Definition declarator_w : parse_variable_def :=
  initialized_declarator "w" (sample_loc 8 12) [sample_float2_value].


(** The constant [n] of type [int], as the bracketed size of an array. *)
Definition sample_int_constant (n : Z) : hlsl_ir_node :=
  mk_node 18 (Some (predefined_type "int")) (sample_loc 10 9) 0
    (HLSL_IR_CONSTANT (mk_hlsl_constant_value 0 n 0 0 0)).

Definition set_ctx_functions (c : hlsl_parse_ctx)
    (f : gmap string (list hlsl_ir_function_decl)) : hlsl_parse_ctx :=
  mk_hlsl_parse_ctx (ctx_status c) (ctx_messages c) (ctx_matrix_majority c)
    (ctx_scopes c) f (ctx_vars c) (ctx_cur_function c) (ctx_heap c).

(** What the parser leaves for the program [float4 main();]: the function
    table holds [main] with its one declaration, which has no body. *)
Definition parse_prototype_of_main (c : hlsl_parse_ctx) : hlsl_parse_ctx :=
  set_ctx_functions c
    (<[ "main" := [mk_hlsl_ir_function_decl (predefined_type "float4")
                     (sample_loc 1 8) [] None None] ]> (ctx_functions c)).

(** What the parser leaves for a program that defines [main] with the sample
    body and the global at address 8. *)
Definition parse_definition_of_main (c : hlsl_parse_ctx) : hlsl_parse_ctx :=
  set_ctx_vars
    (set_ctx_scopes
       (set_ctx_functions c (<[ "main" := [sample_entry_func] ]> (ctx_functions c)))
       [mk_hlsl_scope [8] ∅])
    (live_vars sample_start).

(** ** Predicates of the statements *)

(** A set of modifiers carries exactly one of the two majority bits. *)
Definition one_majority_bit (modifiers : Z) : bool :=
  xorb (has_bits modifiers HLSL_MODIFIER_ROW_MAJOR)
       (has_bits modifiers HLSL_MODIFIER_COLUMN_MAJOR).

(** It carries at most one of them. *)
Definition majority_consistent (modifiers : Z) : bool :=
  negb (has_bits modifiers HLSL_MODIFIER_ROW_MAJOR
        && has_bits modifiers HLSL_MODIFIER_COLUMN_MAJOR).


(** The first [n] allocations to come succeed. *)
Definition allocs_succeed (n : nat) (h : heap) : bool :=
  forallb negb (take n (heap_fails h)).

(** The component a character names in each of the two alphabets. *)
Definition xyzw_index (ch : ascii) : option Z :=
  if ascii_eqb ch "x" then Some 0
  else if ascii_eqb ch "y" then Some 1
  else if ascii_eqb ch "z" then Some 2
  else if ascii_eqb ch "w" then Some 3
  else None.

Definition rgba_index (ch : ascii) : option Z :=
  if ascii_eqb ch "r" then Some 0
  else if ascii_eqb ch "g" then Some 1
  else if ascii_eqb ch "b" then Some 2
  else if ascii_eqb ch "a" then Some 3
  else None.

Definition component_below (dimx : Z) (i : option Z) : bool :=
  match i with
  | Some i => i <? dimx
  | None => false
  end.

(** A valid vector swizzle: one to four characters, all from [xyzw] or all
    from [rgba], each naming a component the operand has. *)
Definition valid_vector_swizzle (dimx : Z) (swizzle : string) : bool :=
  let chars := list_ascii_of_string swizzle in
  (1 <=? Z.of_nat (length chars)) && (Z.of_nat (length chars) <=? 4)
  && (forallb (fun ch => component_below dimx (xyzw_index ch)) chars
      || forallb (fun ch => component_below dimx (rgba_index ch)) chars).

(** The number of instructions of a node with everything nested in it, and of
    a list. *)
Fixpoint instruction_count (instr : hlsl_ir_node) : Z :=
  let count_list :=
    fix count_list (l : list hlsl_ir_node) : Z :=
      match l with
      | [] => 0
      | instr :: rest => instruction_count instr + count_list rest
      end in
  match instr with
  | mk_node _ _ _ _ p =>
      1 + match p with
          | HLSL_IR_IF _ then_instrs else_instrs =>
              count_list then_instrs
              + match else_instrs with
                | Some else_instrs => count_list else_instrs
                | None => 0
                end
          | HLSL_IR_LOOP body _ => count_list body
          | _ => 0
          end
  end.

Fixpoint instructions_count (l : list hlsl_ir_node) : Z :=
  match l with
  | [] => 0
  | instr :: rest => instruction_count instr + instructions_count rest
  end.

(** The indices of the instructions in the order of the walk: a node, then
    what is nested in it, then what follows it. *)
Fixpoint instruction_indices (instr : hlsl_ir_node) : list Z :=
  let indices_list :=
    fix indices_list (l : list hlsl_ir_node) : list Z :=
      match l with
      | [] => []
      | instr :: rest => instruction_indices instr ++ indices_list rest
      end in
  match instr with
  | mk_node _ _ _ index p =>
      index :: match p with
               | HLSL_IR_IF _ then_instrs else_instrs =>
                   indices_list then_instrs
                   ++ match else_instrs with
                      | Some else_instrs => indices_list else_instrs
                      | None => []
                      end
               | HLSL_IR_LOOP body _ => indices_list body
               | _ => []
               end
  end.

Fixpoint instructions_indices (l : list hlsl_ir_node) : list Z :=
  match l with
  | [] => []
  | instr :: rest => instruction_indices instr ++ instructions_indices rest
  end.

(** The index of the first instruction of a list, or [after] when the list
    is empty: the index of the instruction that comes next in the walk. *)
Definition first_index (l : list hlsl_ir_node) (after : Z) : Z :=
  match l with
  | instr :: _ => node_index instr
  | [] => after
  end.

(** Every loop of the instruction, at any depth, has for [next_index] the
    index of the first instruction after the loop ([after] stands for the
    index of what follows the instruction), and every index inside the body
    of the loop is below it. *)
Fixpoint loops_annotated_instr (instr : hlsl_ir_node) (after : Z) : bool :=
  let annotated_list :=
    fix annotated_list (l : list hlsl_ir_node) (after : Z) : bool :=
      match l with
      | [] => true
      | instr :: rest =>
          loops_annotated_instr instr (first_index rest after)
          && annotated_list rest after
      end in
  match instr with
  | mk_node _ _ _ _ p =>
      match p with
      | HLSL_IR_IF _ then_instrs else_instrs =>
          match else_instrs with
          | Some else_instrs =>
              annotated_list then_instrs (first_index else_instrs after)
              && annotated_list else_instrs after
          | None => annotated_list then_instrs after
          end
      | HLSL_IR_LOOP body next_index =>
          (next_index =? after)
          && forallb (fun i => i <? next_index) (instructions_indices body)
          && annotated_list body after
      | _ => true
      end
  end.

Fixpoint loops_annotated (l : list hlsl_ir_node) (after : Z) : bool :=
  match l with
  | [] => true
  | instr :: rest =>
      loops_annotated_instr instr (first_index rest after)
      && loops_annotated rest after
  end.

(** Whether the payload of a node owns instruction lists. *)
Definition is_control (p : hlsl_ir_payload) : bool :=
  match p with
  | HLSL_IR_IF _ _ _ | HLSL_IR_LOOP _ _ => true
  | _ => false
  end.

(** What numbering from [i] on is to achieve for an instruction [instr],
    stated on the pair [index_instruction] returns, and likewise for a list:
    the count it returns, the indices in the order of the walk, and the loops
    annotated. *)
Definition indexed_instr (instr : hlsl_ir_node) (i : Z) (r : hlsl_ir_node * Z)
    : Prop :=
  snd r = i + instruction_count instr
  /\ node_index (fst r) = i
  /\ instruction_indices (fst r) = seqZ i (instruction_count instr)
  /\ loops_annotated_instr (fst r) (snd r) = true
  /\ instruction_count (fst r) = instruction_count instr.

Definition indexed_list (l : list hlsl_ir_node) (i : Z)
    (r : list hlsl_ir_node * Z) : Prop :=
  snd r = i + instructions_count l
  /\ instructions_indices (fst r) = seqZ i (instructions_count l)
  /\ loops_annotated (fst r) (snd r) = true
  /\ first_index (fst r) (snd r) = i
  /\ instructions_count (fst r) = instructions_count l.

(** The nodes an instruction refers to and marks as read: the right-hand side
    of an assignment, the arguments of a constructor, the index of an array
    dereference, the operands of an expression, the condition of an [if], the
    value of a return, the operand of a swizzle. *)
Definition referenced_nodes (instr : hlsl_ir_node) : list Z :=
  match node_payload instr with
  | HLSL_IR_ASSIGNMENT _ rhs => [rhs]
  | HLSL_IR_CONSTANT _ => []
  | HLSL_IR_CONSTRUCTOR args => args
  | HLSL_IR_DEREF (HLSL_IR_DEREF_ARRAY _ _ idx) => [idx]
  | HLSL_IR_DEREF _ => []
  | HLSL_IR_EXPR _ operand0 operand1 operand2 =>
      operand0 :: from_option (fun o => [o]) [] operand1
               ++ from_option (fun o => [o]) [] operand2
  | HLSL_IR_IF condition _ _ => [condition]
  | HLSL_IR_JUMP HLSL_IR_JUMP_RETURN (Some value) => [value]
  | HLSL_IR_JUMP _ _ => []
  | HLSL_IR_LOOP _ _ => []
  | HLSL_IR_SWIZZLE val _ => [val]
  end.

(** The variables dereferenced by an instruction or by one nested in it. *)
Fixpoint dereferenced_vars_instr (instr : hlsl_ir_node) : list Z :=
  let vars_list :=
    fix vars_list (l : list hlsl_ir_node) : list Z :=
      match l with
      | [] => []
      | instr :: rest => dereferenced_vars_instr instr ++ vars_list rest
      end in
  match node_payload instr with
  | HLSL_IR_DEREF src => [hlsl_var_from_deref src]
  | HLSL_IR_IF _ then_instrs else_instrs =>
      vars_list then_instrs
      ++ match else_instrs with
         | Some else_instrs => vars_list else_instrs
         | None => []
         end
  | HLSL_IR_LOOP body _ => vars_list body
  | _ => []
  end.

Fixpoint dereferenced_vars (l : list hlsl_ir_node) : list Z :=
  match l with
  | [] => []
  | instr :: rest => dereferenced_vars_instr instr ++ dereferenced_vars rest
  end.

(** The pairs of a variable and the [next_index] of a loop such that the
    variable is dereferenced somewhere inside the body of that loop. *)
Fixpoint loop_reads_instr (instr : hlsl_ir_node) : list (Z * Z) :=
  let reads_list :=
    fix reads_list (l : list hlsl_ir_node) : list (Z * Z) :=
      match l with
      | [] => []
      | instr :: rest => loop_reads_instr instr ++ reads_list rest
      end in
  match node_payload instr with
  | HLSL_IR_IF _ then_instrs else_instrs =>
      reads_list then_instrs
      ++ match else_instrs with
         | Some else_instrs => reads_list else_instrs
         | None => []
         end
  | HLSL_IR_LOOP body next_index =>
      map (fun var => (var, next_index)) (dereferenced_vars body)
      ++ reads_list body
  | _ => []
  end.

Fixpoint loop_reads (l : list hlsl_ir_node) : list (Z * Z) :=
  match l with
  | [] => []
  | instr :: rest => loop_reads_instr instr ++ loop_reads rest
  end.

(** The variable at [var] exists and its [last_read] is at least [bound]. *)
Definition last_read_at_least (st : liveness) (var : Z) (bound : Z) : Prop :=
  exists v, live_vars st !! var = Some v /\ bound <= ivar_last_read v.

(** What the liveness pass is to achieve on a list whose indices run from [i]
    up to [j], walked inside a loop that ends at [loop_last] (0 outside
    loops): the exits of the loops of the list are at most [j]; no variable is
    lost; a lower bound on a [last_read] that lies at or below [i], or at or
    below the exit of the loop around, is kept; a variable dereferenced inside
    a loop of the list ends with a [last_read] of at least the exit of that
    loop; and a variable dereferenced in the list ends with a [last_read] of
    at least the exit of the loop around. *)
Definition reads_ok (run : Z -> Z -> liveness -> liveness)
    (reads : list (Z * Z)) (derefs : list Z) (i j : Z) : Prop :=
  (forall x e, (x, e) ∈ reads -> e <= j)
  /\ forall loop_first loop_last st,
       (loop_last = 0 \/ j <= loop_last) ->
       (forall x, is_Some (live_vars st !! x) ->
                  is_Some (live_vars (run loop_first loop_last st) !! x))
       /\ (forall x b, (b <= i \/ (loop_last <> 0 /\ b <= loop_last)) ->
                       last_read_at_least st x b ->
                       last_read_at_least (run loop_first loop_last st) x b)
       /\ (forall x e, (x, e) ∈ reads -> is_Some (live_vars st !! x) ->
                       last_read_at_least (run loop_first loop_last st) x e)
       /\ (forall x, x ∈ derefs -> is_Some (live_vars st !! x) ->
                     loop_last <> 0 ->
                     last_read_at_least (run loop_first loop_last st) x loop_last).

Definition reads_ok_instr (instr : hlsl_ir_node) (i j : Z) : Prop :=
  reads_ok (compute_liveness_instr instr) (loop_reads_instr instr)
    (dereferenced_vars_instr instr) i j.

Definition reads_ok_list (l : list hlsl_ir_node) (i j : Z) : Prop :=
  reads_ok (compute_liveness_recurse l) (loop_reads l) (dereferenced_vars l) i j.

(** How a variable may change while the liveness pass is set up: it keeps its
    modifiers, a [first_write] of 1 and a [last_read] of [UINT_MAX]. *)
Definition start_kept (v v' : hlsl_ir_var) : Prop :=
  ivar_modifiers v' = ivar_modifiers v
  /\ (ivar_first_write v = 1 -> ivar_first_write v' = 1)
  /\ (ivar_last_read v = UINT_MAX -> ivar_last_read v' = UINT_MAX).

(** A parameter is marked according to its storage. *)
Definition storage_marked (v : hlsl_ir_var) : Prop :=
  (has_bits (ivar_modifiers v) HLSL_STORAGE_IN = true -> ivar_first_write v = 1)
  /\ (has_bits (ivar_modifiers v) HLSL_STORAGE_OUT = true ->
      ivar_last_read v = UINT_MAX).

(** The two nodes [append_conditional_break] appends for the condition
    [condition]: its negation, and an [if] on the negation that holds a
    [break]. *)
Definition negated_break (condition : hlsl_ir_node) (a_not a_iff a_jump : Z)
    : list hlsl_ir_node :=
  [ mk_node a_not (node_data_type condition) (node_loc condition) 0
      (HLSL_IR_EXPR HLSL_IR_UNOP_LOGIC_NOT (node_addr condition) None None);
    mk_node a_iff None no_location 0
      (HLSL_IR_IF a_not
         [mk_node a_jump None no_location 0 (HLSL_IR_JUMP HLSL_IR_JUMP_BREAK None)]
         None) ].

(** [cond1] is the condition list [cond] with its conditional break: [cond]
    itself when it is empty, and otherwise [cond] followed by the negation of
    its result and the [if] with the [break]. *)
Definition is_conditional_break (cond cond1 : list hlsl_ir_node) : Prop :=
  match last cond with
  | None => cond1 = []
  | Some condition =>
      exists a_not a_iff a_jump,
        cond1 = cond ++ negated_break condition a_not a_iff a_jump
  end.

(** The line [hlsl_report_message] appends to the message buffer. *)
Definition message_line (loc : source_location) (level : hlsl_error_level)
    (text : string) : string :=
  format_location loc +:+ ": " +:+ hlsl_get_error_level_name level +:+ ": "
    +:+ text +:+ newline.

(** The type and the modifiers [declare_vars] gives the variable of a
    declarator. *)
Definition declared_type (basic_type : hlsl_type) (v : parse_variable_def)
    : hlsl_type :=
  if negb (v_array_size v =? 0) then new_array_type basic_type (v_array_size v)
  else basic_type.

Definition declared_modifiers (modifiers : Z) (c : hlsl_parse_ctx) : Z :=
  if is_global_scope c then Z.lor modifiers HLSL_STORAGE_UNIFORM else modifiers.

Definition declared_var (basic_type : hlsl_type) (modifiers : Z)
    (v : parse_variable_def) (c : hlsl_parse_ctx) : hlsl_ir_var :=
  mk_hlsl_ir_var (declared_type basic_type v) (v_loc v) (v_name v)
    (declared_modifiers modifiers c) (v_semantic v) (v_reg_reservation v) 0 0.

(** The test [declare_vars] makes on the component count [size] of the
    initializer of a numeric variable of [count] components. *)
Definition initializer_too_small (count size : Z) : bool :=
  negb (count =? size) && negb (size =? 1) && (size <? count).

(** The context [declare_vars] reaches for [w] once the variable is
    declared. *)
Definition ctx_w_declared : hlsl_parse_ctx :=
  snd (declare_variable (heap_next (ctx_heap sample_local_ctx))
         (declared_var (predefined_type "float4") 0 declarator_w sample_local_ctx)
         (negb (is_global_scope sample_local_ctx))
         (snd (ctx_alloc sample_local_ctx))).

(** The array sizes [1.5] and [2 + 2]: a constant of type [float], and the
    sum of the constant of [sample_int_constant] with itself. *)
Definition sample_float_size : hlsl_ir_node :=
  mk_node 19 sample_float (sample_loc 10 9) 0
    (HLSL_IR_CONSTANT (sample_constant (3 # 2))).

Definition sample_sum_size : hlsl_ir_node :=
  mk_node 20 (Some (predefined_type "int")) (sample_loc 10 11) 0
    (HLSL_IR_EXPR HLSL_IR_BINOP_ADD 18 (Some 18) None).

(** ** Predicates of the further properties *)

(** No allocation to come fails. *)
Definition never_fails (c : hlsl_parse_ctx) : Prop := heap_fails (ctx_heap c) = [].

Definition keywords (kws : list (modifier_keyword * source_location))
    : list modifier_keyword :=
  map fst kws.

(** The component the swizzle mask of a vector swizzle names at position
    [i]: two bits for each position. *)
Definition mask_component (swiz : Z) (i : Z) : Z :=
  Z.land (Z.shiftr swiz (2 * i)) 3.

(** The swizzle mask of a swizzle node. *)
Definition swizzle_mask (node : hlsl_ir_node) : Z :=
  match node_payload node with
  | HLSL_IR_SWIZZLE _ s => s
  | _ => 0
  end.

(** The component a character names, in whichever alphabet has it. *)
Definition component_index (ch : ascii) : option Z :=
  match xyzw_index ch with
  | Some i => Some i
  | None => rgba_index ch
  end.

(** The length of one group of a matrix swizzle: [_mXY] or [_XY]. *)
Definition matrix_swizzle_inc (swizzle : string) : Z :=
  if ascii_eqb (nth 1 (list_ascii_of_string swizzle) "000"%char) "m" then 4 else 3.

(** The liveness pass leaves the declaration of a variable alone. *)
Definition same_declaration (v v' : hlsl_ir_var) : Prop :=
  ivar_data_type v' = ivar_data_type v
  /\ ivar_loc v' = ivar_loc v
  /\ ivar_name v' = ivar_name v
  /\ ivar_modifiers v' = ivar_modifiers v
  /\ ivar_semantic v' = ivar_semantic v
  /\ ivar_reg_reservation v' = ivar_reg_reservation v.

(** What a walk that dereferences the variables [derefs] keeps of the
    variable at [var]: its declaration, a [first_write] that was set, and its
    [last_read] unless the walk dereferences it. *)
Definition liveness_kept (derefs : list Z) (var : Z) (v v' : hlsl_ir_var) : Prop :=
  same_declaration v v'
  /\ (ivar_first_write v <> 0 -> ivar_first_write v' = ivar_first_write v)
  /\ (var ∉ derefs -> ivar_last_read v' = ivar_last_read v).

(** A value of type [float4x4], the operand of the sample matrix swizzle. *)
Definition sample_float4x4_value : hlsl_ir_node :=
  mk_node 17 (Some (predefined_type "float4x4")) (sample_loc 3 12) 0
    (HLSL_IR_DEREF (HLSL_IR_DEREF_VAR 8)).

(** What no action on declarations undoes: a message once in the buffer
    stays, in its place; the status, once an error, stays an error; and the
    function table and the default majority are left alone. *)
Definition reports_kept (c c' : hlsl_parse_ctx) : Prop :=
  ctx_messages c `prefix_of` ctx_messages c'
  /\ (ctx_status c = PARSE_ERR -> ctx_status c' = PARSE_ERR)
  /\ ctx_functions c' = ctx_functions c
  /\ ctx_matrix_majority c' = ctx_matrix_majority c.

(** The value of an outcome, with a default for an action that stops. *)
Definition outcome_value {A : Type} (d : A) (o : outcome A) : A :=
  match o with
  | completes a => a
  | stops => d
  end.

(** The declaration [row_major column_major float4x4 m;] at global scope. *)
Definition two_majorities : list (modifier_keyword * source_location) :=
  [(KW_ROW_MAJOR, sample_loc 2 1); (KW_COLUMN_MAJOR, sample_loc 2 11)].

Definition declaration_of_m
    : outcome (option (option (list hlsl_ir_node)) * hlsl_parse_ctx) :=
  declaration two_majorities (predefined_type "float4x4")
    [plain_declarator "m" (sample_loc 2 33)] (sample_loc 2 1) sample_ctx.

(** A local variable [float x] for the address the sample heap gives next. *)
Definition sample_local_var : hlsl_ir_var :=
  mk_hlsl_ir_var (predefined_type "float") (sample_loc 9 11) "x" 0 None None 0 0.

(** The same with a semantic, which a local variable must not have. *)
Definition sample_local_var_semantic : hlsl_ir_var :=
  mk_hlsl_ir_var (predefined_type "float") (sample_loc 9 11) "x" 0
    (Some "COLOR") None 0 0.

(** The scopes and the variables are the same in both contexts. *)
Definition same_scopes (c c' : hlsl_parse_ctx) : Prop :=
  ctx_scopes c' = ctx_scopes c /\ ctx_vars c' = ctx_vars c.

(** From [c] to [c'] the nesting of scopes is unchanged and every variable in
    the store is one that was there or one that satisfies [P]. *)
Definition store_grows (P : hlsl_ir_var -> Prop) (c c' : hlsl_parse_ctx) : Prop :=
  is_global_scope c' = is_global_scope c
  /\ forall a d, ctx_vars c' !! a = Some d -> ctx_vars c !! a = Some d \/ P d.

(** The declarator of [float g;] and what the loop of [declare_vars] makes of
    it at global scope. *)
Definition declarator_g : parse_variable_def := plain_declarator "g" (sample_loc 4 7).

Definition declared_g : list hlsl_ir_node * hlsl_parse_ctx :=
  default ([], sample_ctx)
    (declare_vars_loop (predefined_type "float") 0 [declarator_g] [] sample_ctx).

(** ** Structures *)

Definition field_semantic (f : hlsl_struct_field) : option string :=
  match f with mk_hlsl_struct_field _ _ s _ _ => s end.
Definition field_modifiers (f : hlsl_struct_field) : Z :=
  match f with mk_hlsl_struct_field _ _ _ m _ => m end.
Definition field_reg_offset (f : hlsl_struct_field) : Z :=
  match f with mk_hlsl_struct_field _ _ _ _ r => r end.

Definition set_field_reg_offset (f : hlsl_struct_field) (r : Z) : hlsl_struct_field :=
  mk_hlsl_struct_field (field_type f) (field_name f) (field_semantic f)
    (field_modifiers f) r.

(** [add_struct_field]: the field is appended unless a field of the list has
    its name. *)
Definition add_struct_field (fields : list hlsl_struct_field)
    (field : hlsl_struct_field) : bool * list hlsl_struct_field :=
  if existsb (fun f => String.eqb (field_name f) (field_name field)) fields
  then (false, fields)
  else (true, fields ++ [field]).

(** The action of the rule [fields_list: fields_list field]: the fields of
    one member declaration are added one by one to the list gathered so far;
    [loc] is the location of the member declaration. *)
Fixpoint fields_list (fields new_fields : list hlsl_struct_field)
    (loc : source_location) (c : hlsl_parse_ctx)
    : list hlsl_struct_field * hlsl_parse_ctx :=
  match new_fields with
  | [] => (fields, c)
  | field :: rest =>
      let '(ret, fields1) := add_struct_field fields field in
      let c1 :=
        if ret then c
        else hlsl_report_message loc HLSL_LEVEL_ERROR
               ("redefinition of '" +:+ field_name field +:+ "'") c in
      fields_list fields1 rest loc c1
  end.

(** The loop of [new_struct_type]: each field is given the register offset
    reached so far, which then moves on by the register size of the field's
    type; the result is the fields and the offset reached at the end. *)
Fixpoint assign_reg_offsets (fields : list hlsl_struct_field) (reg_size : Z)
    : list hlsl_struct_field * Z :=
  match fields with
  | [] => ([], reg_size)
  | field :: rest =>
      let '(rest1, total) :=
        assign_reg_offsets rest (u32 (reg_size + ty_reg_size (field_type field))) in
      (set_field_reg_offset field reg_size :: rest1, total)
  end.

(** [new_struct_type].  The descriptor is allocated zeroed, so its base type
    is the first of the enumeration and it has no modifiers. *)
Definition new_struct_type (name : option string) (fields : list hlsl_struct_field)
    (c : hlsl_parse_ctx) : option hlsl_type * hlsl_parse_ctx :=
  match ctx_alloc c with
  | (None, c1) => (None, c1)
  | (Some _, c1) =>
      let '(fields1, reg_size) := assign_reg_offsets fields 0 in
      (Some (mk_hlsl_type name HLSL_CLASS_STRUCT HLSL_TYPE_FLOAT 1 1 0 reg_size
               (e_elements fields1)), c1)
  end.

(** The registers the types of a list of fields take together. *)
Definition fields_reg_size (fields : list hlsl_struct_field) : Z :=
  foldr (fun f s => ty_reg_size (field_type f) + s) 0 fields.

(** Three members of a structure, the third named like the first. *)
Definition sample_fields : list hlsl_struct_field :=
  [ mk_hlsl_struct_field (predefined_type "float4") "pos" (Some "POSITION") 0 0;
    mk_hlsl_struct_field (predefined_type "float2") "uv" (Some "TEXCOORD") 0 0;
    mk_hlsl_struct_field (predefined_type "float") "pos" None 0 0 ].

(** The variable an instruction reads or writes through a dereference, as the
    liveness pass will find it. *)
Definition node_variable (n : hlsl_ir_node) : option Z :=
  match node_payload n with
  | HLSL_IR_ASSIGNMENT lhs _ => Some (hlsl_var_from_deref lhs)
  | HLSL_IR_DEREF src => Some (hlsl_var_from_deref src)
  | _ => None
  end.

(** The declarator [v = <float2 value>] of a [float2] variable. *)
Definition declarator_v2 : parse_variable_def :=
  mk_parse_variable_def (sample_loc 9 12) "v" 0 None None
    (mk_parse_initializer [sample_float2_value] [sample_float2_value]).

(** An instruction without what [index_instructions] writes: the [index] of
    every node and the [next_index] of every loop are set to 0, in the
    instruction and in the instructions nested in it. *)
Fixpoint clear_index (instr : hlsl_ir_node) {struct instr} : hlsl_ir_node :=
  let clear_list :=
    fix clear_list (l : list hlsl_ir_node) {struct l} : list hlsl_ir_node :=
      match l with
      | [] => []
      | instr :: rest => clear_index instr :: clear_list rest
      end in
  match instr with
  | mk_node a t loc _ p =>
      mk_node a t loc 0
        match p with
        | HLSL_IR_IF cond then_instrs else_instrs =>
            HLSL_IR_IF cond (clear_list then_instrs)
              match else_instrs with
              | Some else_instrs => Some (clear_list else_instrs)
              | None => None
              end
        | HLSL_IR_LOOP body _ => HLSL_IR_LOOP (clear_list body) 0
        | _ => p
        end
  end.

Definition clear_indices (l : list hlsl_ir_node) : list hlsl_ir_node :=
  map clear_index l.
(** * Part II: properties *)

(** ** Modifier bits *)

Lemma has_bits_lor (a b m : Z) :
  has_bits (Z.lor a b) m = has_bits a m || has_bits b m.
Proof.
  unfold has_bits. rewrite Z.land_lor_distr_l.
  destruct (Z.eqb_spec (Z.land a m) 0) as [Ha|Ha];
    destruct (Z.eqb_spec (Z.land b m) 0) as [Hb|Hb]; simpl.
  - rewrite Ha, Hb. reflexivity.
  - destruct (Z.eqb_spec (Z.lor (Z.land a m) (Z.land b m)) 0) as [H|H]; [|reflexivity].
    apply Z.lor_eq_0_iff in H. tauto.
  - destruct (Z.eqb_spec (Z.lor (Z.land a m) (Z.land b m)) 0) as [H|H]; [|reflexivity].
    apply Z.lor_eq_0_iff in H. tauto.
  - destruct (Z.eqb_spec (Z.lor (Z.land a m) (Z.land b m)) 0) as [H|H]; [|reflexivity].
    apply Z.lor_eq_0_iff in H. tauto.
Qed.

Lemma has_bits_comm (a b : Z) : has_bits a b = has_bits b a.
Proof. unfold has_bits. rewrite Z.land_comm. reflexivity. Qed.

Lemma has_bits_mask (a m1 m2 : Z) :
  has_bits a (Z.lor m1 m2) = has_bits a m1 || has_bits a m2.
Proof. rewrite has_bits_comm, has_bits_lor, !(has_bits_comm a). reflexivity. Qed.

Lemma has_bits_0_l (m : Z) : has_bits 0 m = false.
Proof. unfold has_bits. rewrite Z.land_0_l. reflexivity. Qed.

Lemma has_bits_majority (a : Z) :
  has_bits a HLSL_MODIFIERS_MAJORITY_MASK
  = has_bits a HLSL_MODIFIER_ROW_MAJOR || has_bits a HLSL_MODIFIER_COLUMN_MAJOR.
Proof. apply has_bits_mask. Qed.

Lemma add_modifiers_result (modifiers md : Z) loc c :
  fst (add_modifiers modifiers md loc c) = modifiers
  \/ (fst (add_modifiers modifiers md loc c) = Z.lor modifiers md
      /\ has_bits modifiers md = false
      /\ (has_bits md HLSL_MODIFIERS_MAJORITY_MASK
          && has_bits modifiers HLSL_MODIFIERS_MAJORITY_MASK = false)
      /\ snd (add_modifiers modifiers md loc c) = c).
Proof.
  unfold add_modifiers.
  destruct (has_bits modifiers md); [left; reflexivity|].
  destruct (has_bits md HLSL_MODIFIERS_MAJORITY_MASK
            && has_bits modifiers HLSL_MODIFIERS_MAJORITY_MASK) eqn:E;
    [left; reflexivity|].
  right. simpl. auto.
Qed.

(** Adding a set of modifiers that is consistent to one that is consistent
    leaves a consistent set. *)
Lemma add_modifiers_consistent (modifiers md : Z) loc c :
  majority_consistent modifiers = true ->
  majority_consistent md = true ->
  majority_consistent (fst (add_modifiers modifiers md loc c)) = true.
Proof.
  intros Hm Hd.
  destruct (add_modifiers_result modifiers md loc c) as [->|(-> & _ & Hx & _)];
    [exact Hm|].
  unfold majority_consistent in *. rewrite !has_bits_majority in Hx.
  rewrite !has_bits_lor.
  destruct (has_bits modifiers HLSL_MODIFIER_ROW_MAJOR),
           (has_bits modifiers HLSL_MODIFIER_COLUMN_MAJOR),
           (has_bits md HLSL_MODIFIER_ROW_MAJOR),
           (has_bits md HLSL_MODIFIER_COLUMN_MAJOR); simpl in *; congruence.
Qed.

Lemma keyword_modifier_consistent (k : modifier_keyword) :
  majority_consistent (keyword_modifier k) = true.
Proof. destruct k; reflexivity. Qed.

(** The modifiers the rule [var_modifiers] builds never hold both majority
    bits, whatever keywords are written. *)
Lemma var_modifiers_consistent kws c :
  majority_consistent (fst (var_modifiers kws c)) = true.
Proof.
  induction kws as [|[k loc] rest IH]; simpl; [reflexivity|].
  destruct (var_modifiers rest c) as [m c1] eqn:E. simpl in IH.
  apply add_modifiers_consistent; [exact IH|apply keyword_modifier_consistent].
Qed.

Lemma clone_hlsl_type_result (old : hlsl_type) (d : Z) c t c' :
  clone_hlsl_type old d c = (Some t, c') ->
  t = (if has_bits (ty_modifiers old) HLSL_MODIFIERS_MAJORITY_MASK then old
       else set_ty_modifiers old (Z.lor (ty_modifiers old) d)).
Proof.
  unfold clone_hlsl_type. destruct (ctx_alloc c) as [[a|] c1]; [|discriminate].
  intros H. inversion H. reflexivity.
Qed.

(** What [apply_type_modifiers] returns for a matrix when no diagnostic is
    due: neither the type nor the declaration names both majorities, and no
    modifier of the declaration is already on the type.  The type it returns
    carries exactly one majority bit; when the type was copied its register
    size follows the majority. *)
Lemma apply_type_modifiers_majority (type : hlsl_type) (modifiers : Z) loc c t m c' :
  ty_type type = HLSL_CLASS_MATRIX ->
  majority_consistent (ty_modifiers type) = true ->
  majority_consistent modifiers = true ->
  has_bits (ty_modifiers type) modifiers = false ->
  apply_type_modifiers type modifiers loc c = (Some t, m, c') ->
  ty_type t = HLSL_CLASS_MATRIX
  /\ one_majority_bit (ty_modifiers t) = true
  /\ (t = type
      \/ ty_reg_size t = (if is_row_major t then ty_dimy t else ty_dimx t)).
Proof.
  intros Hc Ht Hm Hdup. unfold apply_type_modifiers.
  rewrite Hc. change (class_eqb HLSL_CLASS_MATRIX HLSL_CLASS_MATRIX) with true.
  rewrite andb_true_r.
  unfold majority_consistent, one_majority_bit in *.
  assert (Hmask : has_bits modifiers HLSL_TYPE_MODIFIERS_MASK = false ->
                  has_bits modifiers HLSL_MODIFIERS_MAJORITY_MASK = false).
  { unfold HLSL_TYPE_MODIFIERS_MASK. rewrite !has_bits_mask, has_bits_majority.
    intros H. do 3 (apply orb_false_iff in H as [_ H]). exact H. }
  rewrite !has_bits_majority in *.
  destruct type as [n cl b x y tm r e]. simpl in Hc, Ht, Hdup. subst cl.
  simpl ty_modifiers.
  remember (has_bits tm HLSL_MODIFIER_ROW_MAJOR) as tr.
  remember (has_bits tm HLSL_MODIFIER_COLUMN_MAJOR) as tc.
  remember (has_bits modifiers HLSL_MODIFIER_ROW_MAJOR) as mr.
  remember (has_bits modifiers HLSL_MODIFIER_COLUMN_MAJOR) as mc.
  match goal with
  | |- context [if (?d =? 0) && ?nn then _ else _] =>
      remember d as dm eqn:Edm; destruct ((dm =? 0) && nn) eqn:Eret
  end.
  - intros H. inversion H as [[Ht' Hm' Hc']]. simpl. rewrite <- Heqtr, <- Heqtc.
    split; [reflexivity|]. split; [|left; reflexivity].
    apply andb_true_iff in Eret as [Ed Hn].
    apply negb_true_iff in Hn. apply Hmask in Hn.
    destruct mr, mc, tr, tc, (ctx_matrix_majority c); simpl in *;
      subst dm; try discriminate; reflexivity.
  - destruct (clone_hlsl_type (mk_hlsl_type n HLSL_CLASS_MATRIX b x y tm r e) dm c)
      as [[new_type|] c1] eqn:Eclone; [|discriminate].
    apply clone_hlsl_type_result in Eclone. simpl ty_modifiers in Eclone.
    rewrite has_bits_majority, <- Heqtr, <- Heqtc in Eclone.
    destruct (add_modifiers (ty_modifiers new_type) modifiers loc c1)
      as [m1 c2] eqn:Eadd.
    intros H. inversion H as [[Ht' Hm' Hc']]. clear H Ht'.
    assert (Hcls : ty_type new_type = HLSL_CLASS_MATRIX)
      by (subst new_type; destruct (tr || tc); reflexivity).
    assert (Hnew : ty_modifiers new_type = if tr || tc then tm else Z.lor tm dm)
      by (subst new_type; destruct (tr || tc); reflexivity).
    clear Eclone. rewrite Hcls.
    change (class_eqb HLSL_CLASS_MATRIX HLSL_CLASS_MATRIX) with true. cbv iota.
    destruct new_type as [n' cl' b' x' y' tm' r' e'].
    simpl in Hcls, Hnew, Eadd |- *. subst cl'.
    split; [reflexivity|]. split; [|right; reflexivity].
    unfold add_modifiers in Eadd. clear Eret Hmask.
    destruct tr, tc; simpl in Ht; try discriminate;
      destruct mr, mc; simpl in Hm; try discriminate;
      destruct (ctx_matrix_majority c); simpl in Edm, Hnew; subst dm tm';
      rewrite ?Z.lor_0_r, ?has_bits_lor, ?has_bits_majority, ?has_bits_lor in Eadd;
      rewrite ?(has_bits_comm HLSL_MODIFIER_ROW_MAJOR modifiers),
        ?(has_bits_comm HLSL_MODIFIER_COLUMN_MAJOR modifiers),
        <- ?Heqtr, <- ?Heqtc, <- ?Heqmr, <- ?Heqmc, ?Hdup in Eadd;
      simpl in Eadd; inversion Eadd; subst m1;
      rewrite ?has_bits_lor, <- ?Heqtr, <- ?Heqtc, <- ?Heqmr, <- ?Heqmc;
      reflexivity.
Qed.

(** C6.  The program [typedef const float4x4 cm; const row_major cm x;].  The
    typedef is accepted and names a constant matrix type without majority.  In
    the declaration [add_modifiers] finds [const] on the type already, reports
    it and hands back the modifiers of the type as they were, so the
    [row_major] of the declaration is dropped with it: the matrix type of the
    declaration carries no majority bit, where every matrix type of a
    declaration is to carry exactly one, and [declare_vars] stops at its
    assertion on the majority. *)
Theorem declared_matrix_without_majority :
  ctx_status ctx_after_typedef_cm = PARSE_SUCCESS
  /\ ty_type type_cm = HLSL_CLASS_MATRIX
  /\ ty_modifiers type_cm = HLSL_MODIFIER_CONST
  /\ (exists t m c,
        apply_type_modifiers type_cm
          (fst (var_modifiers const_row_major ctx_after_typedef_cm))
          (sample_loc 2 1) ctx_after_typedef_cm = (Some t, m, c)
        /\ ty_type t = HLSL_CLASS_MATRIX
        /\ has_bits (ty_modifiers t) HLSL_MODIFIERS_MAJORITY_MASK = false
        /\ one_majority_bit (ty_modifiers t) = false)
  /\ declaration const_row_major type_cm
       [plain_declarator "x" (sample_loc 2 21)] (sample_loc 2 1)
       ctx_after_typedef_cm = stops.
Proof.
  split; [vm_compute; reflexivity|].
  split; [vm_compute; reflexivity|].
  split; [vm_compute; reflexivity|].
  split; [|vm_compute; reflexivity].
  eexists _, _, _. split; [vm_compute; reflexivity|].
  split; [reflexivity|]. split; reflexivity.
Qed.

(** ** Swizzles *)

Lemma ascii_eqb_eq (a b : ascii) : ascii_eqb a b = true -> a = b.
Proof.
  unfold ascii_eqb, char_code. intros H. apply Z.eqb_eq, Nat2Z.inj in H.
  rewrite <- (ascii_nat_embedding a), <- (ascii_nat_embedding b), H.
  reflexivity.
Qed.

Lemma find_component_xyzw (ch : ascii) :
  find_component (swizzle_set 0) ch 0 = default 4 (xyzw_index ch).
Proof.
  unfold xyzw_index. simpl.
  repeat (match goal with |- context [ascii_eqb ch ?a] => destruct (ascii_eqb ch a) end;
          [reflexivity|]).
  reflexivity.
Qed.

Lemma find_component_rgba (ch : ascii) :
  find_component (swizzle_set 1) ch 0 = default 4 (rgba_index ch).
Proof.
  unfold rgba_index. simpl.
  repeat (match goal with |- context [ascii_eqb ch ?a] => destruct (ascii_eqb ch a) end;
          [reflexivity|]).
  reflexivity.
Qed.

Lemma index_below_4 (f : ascii -> option Z) (ch : ascii) (i : Z) :
  (f = xyzw_index \/ f = rgba_index) -> f ch = Some i -> 0 <= i < 4.
Proof.
  intros [-> | ->]; unfold xyzw_index, rgba_index;
    repeat (match goal with |- context [ascii_eqb ch ?a] => destruct (ascii_eqb ch a) end;
            [intros H; inversion H; lia|]);
    intros H; discriminate H.
Qed.

(** A character of [rgba] is none of [xyzw]. *)
Lemma rgba_not_xyzw (ch : ascii) (i : Z) :
  rgba_index ch = Some i -> xyzw_index ch = None.
Proof.
  unfold rgba_index.
  repeat (match goal with
          | |- context [ascii_eqb ch ?a] =>
              destruct (ascii_eqb ch a) eqn:E;
              [apply ascii_eqb_eq in E; subst ch; intros _; reflexivity|clear E]
          end).
  intros H; discriminate H.
Qed.

Lemma vector_swizzle_scan_cons set dimx ch rest swiz component :
  vector_swizzle_scan set dimx (ch :: rest) swiz component
  = if find_component (swizzle_set set) ch 0 =? 4 then scan_break swiz
    else if find_component (swizzle_set set) ch 0 >=? dimx then scan_return_null
    else vector_swizzle_scan set dimx rest
           (Z.lor swiz (u32 (Z.shiftl (find_component (swizzle_set set) ch 0)
                                      (component * 2))))
           (component + 1).
Proof. reflexivity. Qed.

(** Over characters that all name a component of the operand in the alphabet
    of the pass, the scan runs to the end of the string and has counted its
    characters. *)
Lemma vector_swizzle_scan_valid (set dimx : Z) (f : ascii -> option Z)
    (chars : list ascii) (swiz component : Z) :
  (forall ch, find_component (swizzle_set set) ch 0 = default 4 (f ch)) ->
  (f = xyzw_index \/ f = rgba_index) ->
  forallb (fun ch => component_below dimx (f ch)) chars = true ->
  exists swiz',
    vector_swizzle_scan set dimx chars swiz component
    = scan_end swiz' (component + Z.of_nat (length chars)).
Proof.
  intros Hfind Hf. revert swiz component.
  induction chars as [|ch rest IH]; intros swiz component Hall; simpl.
  - exists swiz. f_equal. lia.
  - simpl in Hall. apply andb_true_iff in Hall as [Hch Hrest].
    rewrite Hfind. destruct (f ch) as [i|] eqn:Ei; [|discriminate].
    simpl in Hch |- *. pose proof (index_below_4 f ch i Hf Ei) as Hi.
    destruct (Z.eqb_spec i 4) as [->|_]; [lia|].
    apply Z.ltb_lt in Hch.
    destruct (Z.geb_spec i dimx) as [Hge|_]; [lia|].
    destruct (IH (Z.lor swiz (u32 (Z.shiftl i (component * 2)))) (component + 1) Hrest)
      as [swiz' ->].
    exists swiz'. f_equal. lia.
Qed.

Lemma new_swizzle_succeeds s components val vt loc c :
  allocs_succeed 1 (ctx_heap c) = true ->
  exists a c',
    new_swizzle s components val vt loc c
    = (Some (mk_node a
               (Some (new_hlsl_type None HLSL_CLASS_VECTOR (ty_base_type vt)
                        components 1))
               loc 0 (HLSL_IR_SWIZZLE (node_addr val) s)), c').
Proof.
  unfold allocs_succeed, new_swizzle, ctx_alloc, d3dcompiler_alloc.
  destruct (heap_fails (ctx_heap c)) as [|[|] rest]; simpl; try discriminate;
    intros _; eexists _, _; reflexivity.
Qed.

Lemma get_swizzle_vector (value : hlsl_ir_node) (vt : hlsl_type)
    (swizzle : string) loc c :
  node_data_type value = Some vt ->
  ty_type vt <> HLSL_CLASS_MATRIX ->
  valid_vector_swizzle (ty_dimx vt) swizzle = true ->
  allocs_succeed 1 (ctx_heap c) = true ->
  exists a s c',
    get_swizzle value swizzle loc c
    = (Some (mk_node a
               (Some (new_hlsl_type None HLSL_CLASS_VECTOR (ty_base_type vt)
                        (Z.of_nat (String.length swizzle)) 1))
               loc 0 (HLSL_IR_SWIZZLE (node_addr value) s)), c').
Proof.
  intros Hvt Hcl Hvalid Hheap. unfold get_swizzle. rewrite Hvt.
  assert (Hnm : class_eqb (ty_type vt) HLSL_CLASS_MATRIX = false)
    by (destruct (ty_type vt); try reflexivity; congruence).
  rewrite Hnm. unfold valid_vector_swizzle in Hvalid.
  assert (Hlen : String.length swizzle = length (list_ascii_of_string swizzle)).
  { clear. induction swizzle; simpl; congruence. }
  rewrite Hlen. set (chars := list_ascii_of_string swizzle) in *.
  apply andb_true_iff in Hvalid as [Hlens Hsets].
  apply andb_true_iff in Hlens as [Hge1 Hle4].
  apply Z.leb_le in Hge1, Hle4.
  destruct (Z.gtb_spec (Z.of_nat (length chars)) 4) as [?|_]; [lia|].
  apply orb_true_iff in Hsets as [Hx|Hr].
  - destruct (vector_swizzle_scan_valid 0 (ty_dimx vt) xyzw_index chars 0 0
                find_component_xyzw (or_introl eq_refl) Hx) as [swiz ->].
    destruct (new_swizzle_succeeds swiz (0 + Z.of_nat (length chars)) value vt loc c Hheap)
      as (a & c' & ->).
    exists a, swiz, c'. reflexivity.
  - destruct chars as [|ch rest] eqn:Echars; [simpl in Hge1; lia|].
    assert (Hbreak : vector_swizzle_scan 0 (ty_dimx vt) (ch :: rest) 0 0 = scan_break 0).
    { simpl in Hr. apply andb_true_iff in Hr as [Hch _].
      destruct (rgba_index ch) as [i|] eqn:Ei; [|discriminate].
      rewrite vector_swizzle_scan_cons, find_component_xyzw, (rgba_not_xyzw ch i Ei).
      reflexivity. }
    rewrite Hbreak.
    destruct (vector_swizzle_scan_valid 1 (ty_dimx vt) rgba_index (ch :: rest) 0 0
                find_component_rgba (or_intror eq_refl) Hr) as [swiz ->].
    destruct (new_swizzle_succeeds swiz (0 + Z.of_nat (length (ch :: rest)))
                value vt loc c Hheap) as (a & c' & ->).
    exists a, swiz, c'. reflexivity.
Qed.

(** C4 (as the code has it).  A valid vector swizzle of length [k] yields,
    when the node can be allocated, a node whose type has the base type of the
    operand, [k] components in one row, and the class vector, also for
    [k = 1]. *)
Theorem vector_swizzle_result_type (value : hlsl_ir_node) (vt : hlsl_type)
    (swizzle : string) (loc : source_location) (c : hlsl_parse_ctx) :
  node_data_type value = Some vt ->
  class_eqb (ty_type vt) HLSL_CLASS_MATRIX = false ->
  valid_vector_swizzle (ty_dimx vt) swizzle = true ->
  allocs_succeed 1 (ctx_heap c) = true ->
  exists node t c',
    get_swizzle value swizzle loc c = (Some node, c')
    /\ node_data_type node = Some t
    /\ ty_type t = HLSL_CLASS_VECTOR
    /\ ty_base_type t = ty_base_type vt
    /\ ty_dimx t = Z.of_nat (String.length swizzle)
    /\ ty_dimy t = 1.
Proof.
  intros Hvt Hcl Hvalid Hheap.
  assert (Hne : ty_type vt <> HLSL_CLASS_MATRIX)
    by (intros E; rewrite E in Hcl; discriminate).
  destruct (get_swizzle_vector value vt swizzle loc c Hvt Hne Hvalid Hheap)
    as (a & s & c' & ->).
  eexists _, _, _. repeat split.
Qed.

Lemma vector_swizzle_result_type_witness :
  exists node t c',
    get_swizzle sample_float4_value "xyz" (sample_loc 3 13) sample_ctx = (Some node, c')
    /\ node_data_type node = Some t
    /\ ty_type t = HLSL_CLASS_VECTOR
    /\ ty_base_type t = ty_base_type (predefined_type "float4")
    /\ ty_dimx t = Z.of_nat (String.length "xyz")
    /\ ty_dimy t = 1.
Proof.
  apply (vector_swizzle_result_type sample_float4_value (predefined_type "float4")
           "xyz" (sample_loc 3 13) sample_ctx);
    vm_compute; reflexivity.
Defined.

(** C4 (as stated) fails for [k = 1]: the swizzle [.x] of a [float4] value is
    typed with the class vector, not scalar. *)
Lemma single_component_swizzle_is_vector :
  exists node t c',
    get_swizzle sample_float4_value "x" (sample_loc 3 13) sample_ctx = (Some node, c')
    /\ node_data_type node = Some t
    /\ ty_dimx t = 1
    /\ ty_type t = HLSL_CLASS_VECTOR
    /\ ty_type t <> HLSL_CLASS_SCALAR.
Proof.
  eexists _, _, _. split; [vm_compute; reflexivity|].
  repeat split. discriminate.
Qed.

(** ** Instruction indices *)

Section node_induction.

Variable P : hlsl_ir_node -> Prop.

Hypothesis P_if : forall a t loc i cond then_instrs else_instrs,
  Forall P then_instrs -> Forall P (list_of_null else_instrs) ->
  P (mk_node a t loc i (HLSL_IR_IF cond then_instrs else_instrs)).

Hypothesis P_loop : forall a t loc i body next_index,
  Forall P body -> P (mk_node a t loc i (HLSL_IR_LOOP body next_index)).

Hypothesis P_plain : forall a t loc i p,
  is_control p = false -> P (mk_node a t loc i p).

(** Induction over an instruction with the instructions nested in it. *)
Lemma hlsl_ir_node_nested_ind : forall instr, P instr.
Proof.
  fix IH 1. intros [a t loc i p]. destruct p; try (apply P_plain; reflexivity).
  - apply P_if.
    + induction then_instrs as [|x r IHr]; constructor; [apply IH|exact IHr].
    + destruct else_instrs as [l|]; simpl; [|constructor].
      induction l as [|x r IHr]; constructor; [apply IH|exact IHr].
  - apply P_loop.
    induction body as [|x r IHr]; constructor; [apply IH|exact IHr].
Qed.

End node_induction.

Lemma index_instruction_if a t loc i cond then_instrs else_instrs index :
  index_instruction (mk_node a t loc i (HLSL_IR_IF cond then_instrs else_instrs)) index
  = let '(then1, index2) := index_instructions then_instrs (u32 (index + 1)) in
    match else_instrs with
    | Some else_instrs =>
        let '(else1, index3) := index_instructions else_instrs index2 in
        (mk_node a t loc index (HLSL_IR_IF cond then1 (Some else1)), index3)
    | None => (mk_node a t loc index (HLSL_IR_IF cond then1 None), index2)
    end.
Proof. reflexivity. Qed.

Lemma index_instruction_loop a t loc i body next_index index :
  index_instruction (mk_node a t loc i (HLSL_IR_LOOP body next_index)) index
  = let '(body1, index2) := index_instructions body (u32 (index + 1)) in
    (mk_node a t loc index (HLSL_IR_LOOP body1 index2), index2).
Proof. reflexivity. Qed.

Lemma index_instruction_plain a t loc i p index :
  is_control p = false ->
  index_instruction (mk_node a t loc i p) index
  = (mk_node a t loc index p, u32 (index + 1)).
Proof. destruct p; try discriminate; reflexivity. Qed.

Lemma instruction_count_if a t loc i cond then_instrs else_instrs :
  instruction_count (mk_node a t loc i (HLSL_IR_IF cond then_instrs else_instrs))
  = 1 + (instructions_count then_instrs
         + instructions_count (list_of_null else_instrs)).
Proof. destruct else_instrs; reflexivity. Qed.

Lemma instruction_count_loop a t loc i body next_index :
  instruction_count (mk_node a t loc i (HLSL_IR_LOOP body next_index))
  = 1 + instructions_count body.
Proof. reflexivity. Qed.

Lemma instruction_count_plain a t loc i p :
  is_control p = false -> instruction_count (mk_node a t loc i p) = 1.
Proof. destruct p; try discriminate; reflexivity. Qed.

Lemma instruction_indices_if a t loc i cond then_instrs else_instrs :
  instruction_indices (mk_node a t loc i (HLSL_IR_IF cond then_instrs else_instrs))
  = i :: instructions_indices then_instrs
         ++ instructions_indices (list_of_null else_instrs).
Proof. destruct else_instrs; reflexivity. Qed.

Lemma instruction_indices_loop a t loc i body next_index :
  instruction_indices (mk_node a t loc i (HLSL_IR_LOOP body next_index))
  = i :: instructions_indices body.
Proof. reflexivity. Qed.

Lemma instruction_indices_plain a t loc i p :
  is_control p = false -> instruction_indices (mk_node a t loc i p) = [i].
Proof. destruct p; try discriminate; reflexivity. Qed.

Lemma loops_annotated_if a t loc i cond then_instrs else_instrs after :
  loops_annotated_instr
    (mk_node a t loc i (HLSL_IR_IF cond then_instrs else_instrs)) after
  = match else_instrs with
    | Some else_instrs =>
        loops_annotated then_instrs (first_index else_instrs after)
        && loops_annotated else_instrs after
    | None => loops_annotated then_instrs after
    end.
Proof. reflexivity. Qed.

Lemma loops_annotated_loop a t loc i body next_index after :
  loops_annotated_instr (mk_node a t loc i (HLSL_IR_LOOP body next_index)) after
  = (next_index =? after)
    && forallb (fun i => i <? next_index) (instructions_indices body)
    && loops_annotated body after.
Proof. reflexivity. Qed.

Lemma loops_annotated_plain a t loc i p after :
  is_control p = false -> loops_annotated_instr (mk_node a t loc i p) after = true.
Proof. destruct p; try discriminate; reflexivity. Qed.

Lemma instruction_count_pos (instr : hlsl_ir_node) : 1 <= instruction_count instr.
Proof.
  induction instr using hlsl_ir_node_nested_ind.
  - rewrite instruction_count_if.
    assert (Hl : forall l, Forall (fun n => 1 <= instruction_count n) l ->
                           0 <= instructions_count l).
    { induction 1; simpl; lia. }
    pose proof (Hl _ H). pose proof (Hl _ H0). lia.
  - rewrite instruction_count_loop.
    assert (Hl : forall l, Forall (fun n => 1 <= instruction_count n) l ->
                           0 <= instructions_count l).
    { induction 1; simpl; lia. }
    pose proof (Hl _ H). lia.
  - rewrite instruction_count_plain by assumption. lia.
Qed.

Lemma instructions_count_nonneg (l : list hlsl_ir_node) : 0 <= instructions_count l.
Proof.
  induction l as [|x r IH]; simpl; [lia|].
  pose proof (instruction_count_pos x). lia.
Qed.

Lemma u32_small (z : Z) : 0 <= z <= UINT_MAX -> u32 z = z.
Proof. unfold u32, UINT_MAX. intros H. apply Z.mod_small. lia. Qed.

Lemma forallb_below_seqZ (m len bound : Z) :
  m + len <= bound -> forallb (fun i => i <? bound) (seqZ m len) = true.
Proof.
  intros H. apply forallb_forall. intros x Hx.
  apply list_elem_of_In, elem_of_seqZ in Hx. apply Z.ltb_lt. lia.
Qed.

Lemma index_instructions_indexed (l : list hlsl_ir_node) :
  Forall (fun instr => forall i, 0 <= i -> i + instruction_count instr <= UINT_MAX ->
                       indexed_instr instr i (index_instruction instr i)) l ->
  forall i, 0 <= i -> i + instructions_count l <= UINT_MAX ->
            indexed_list l i (index_instructions l i).
Proof.
  induction 1 as [|x r Hx _ IH]; intros i Hi Hbound.
  - simpl. unfold indexed_list. simpl. repeat split; try lia.
  - simpl in Hbound |- *.
    pose proof (instruction_count_pos x) as Hpos.
    pose proof (instructions_count_nonneg r) as Hnn.
    destruct (Hx i Hi ltac:(lia)) as (Hs & Hidx & Hind & Hann & Hcnt).
    destruct (index_instruction x i) as [x1 i1]. simpl in Hs, Hidx, Hind, Hann, Hcnt.
    destruct (IH i1 ltac:(lia) ltac:(lia)) as (Hs' & Hind' & Hann' & Hfirst & Hcnt').
    destruct (index_instructions r i1) as [r1 i2]. simpl in Hs', Hind', Hann', Hfirst, Hcnt'.
    unfold indexed_list. simpl. rewrite Hfirst, Hann, Hann', Hind, Hind'.
    repeat split; try lia.
    subst i1. rewrite (seqZ_app i) by lia. reflexivity.
Qed.

Lemma index_instruction_indexed (instr : hlsl_ir_node) :
  forall i, 0 <= i -> i + instruction_count instr <= UINT_MAX ->
            indexed_instr instr i (index_instruction instr i).
Proof.
  induction instr as [a t loc i0 cond then_instrs else_instrs Hthen Helse
                     |a t loc i0 body next_index Hbody
                     |a t loc i0 p Hp] using hlsl_ir_node_nested_ind;
    intros i Hi Hbound.
  - rewrite instruction_count_if in Hbound.
    pose proof (instructions_count_nonneg then_instrs) as Hn1.
    pose proof (instructions_count_nonneg (list_of_null else_instrs)) as Hn2.
    rewrite index_instruction_if, u32_small by lia.
    destruct (index_instructions_indexed _ Hthen (i + 1) ltac:(lia) ltac:(lia))
      as (Hs & Hind & Hann & Hfirst & Hcnt).
    destruct (index_instructions then_instrs (i + 1)) as [then1 i2].
    simpl in Hs, Hind, Hann, Hfirst, Hcnt.
    destruct else_instrs as [else_instrs|]; simpl in Helse, Hn2, Hbound.
    + destruct (index_instructions_indexed _ Helse i2 ltac:(lia) ltac:(lia))
        as (Hs' & Hind' & Hann' & Hfirst' & Hcnt').
      destruct (index_instructions else_instrs i2) as [else1 i3].
      simpl in Hs', Hind', Hann', Hfirst', Hcnt'.
      unfold indexed_instr. simpl fst. simpl snd.
      rewrite !instruction_count_if, instruction_indices_if, loops_annotated_if.
      simpl list_of_null. rewrite Hfirst', Hann, Hann', Hind, Hind', Hcnt, Hcnt'.
      repeat split; try lia.
      rewrite (seqZ_cons i) by lia. f_equal.
      replace (Z.succ i) with (i + 1) by lia.
      replace (Z.pred (1 + (instructions_count then_instrs
                            + instructions_count else_instrs)))
        with (instructions_count then_instrs + instructions_count else_instrs) by lia.
      subst i2. rewrite (seqZ_app (i + 1)) by lia. reflexivity.
    + unfold indexed_instr. simpl fst. simpl snd.
      rewrite !instruction_count_if, instruction_indices_if, loops_annotated_if.
      simpl list_of_null. simpl instructions_indices. simpl instructions_count.
      rewrite Hann, Hind, Hcnt, app_nil_r.
      repeat split; try lia.
      rewrite (seqZ_cons i) by lia. f_equal. f_equal; lia.
  - rewrite instruction_count_loop in Hbound.
    pose proof (instructions_count_nonneg body) as Hn1.
    rewrite index_instruction_loop, u32_small by lia.
    destruct (index_instructions_indexed _ Hbody (i + 1) ltac:(lia) ltac:(lia))
      as (Hs & Hind & Hann & Hfirst & Hcnt).
    destruct (index_instructions body (i + 1)) as [body1 i2].
    simpl in Hs, Hind, Hann, Hfirst, Hcnt.
    unfold indexed_instr. simpl fst. simpl snd.
    rewrite !instruction_count_loop, instruction_indices_loop, loops_annotated_loop.
    rewrite Hann, Hind, Hcnt, Z.eqb_refl, forallb_below_seqZ by lia.
    repeat split; try lia.
    rewrite (seqZ_cons i) by lia. f_equal. f_equal; lia.
  - rewrite instruction_count_plain in Hbound by assumption.
    rewrite index_instruction_plain, u32_small by (assumption || lia).
    unfold indexed_instr. simpl fst. simpl snd.
    rewrite !instruction_count_plain, instruction_indices_plain,
      loops_annotated_plain by assumption.
    repeat split; try lia.
Qed.

(** C1.  A body whose instructions fit the index range is numbered, in the
    order of the walk that descends into the branches of each [if] and the
    body of each loop, with the consecutive indices from 2 on: none is left
    out, the indices are pairwise distinct and strictly increasing, none is
    below 2, and every loop carries as [next_index] the index of the first
    instruction after it, above every index of its body. *)
Theorem index_instructions_entry_body (body : list hlsl_ir_node) :
  2 + instructions_count body <= UINT_MAX ->
  let indexed := fst (index_instructions body 2) in
  let indices := instructions_indices indexed in
  indices = seqZ 2 (instructions_count body)
  /\ instructions_count indexed = instructions_count body
  /\ NoDup indices
  /\ (forall (j k : nat) (x y : Z),
        (j < k)%nat -> indices !! j = Some x -> indices !! k = Some y -> x < y)
  /\ Forall (fun i => 2 <= i) indices
  /\ loops_annotated indexed (snd (index_instructions body 2)) = true.
Proof.
  intros Hbound.
  assert (Hall : Forall (fun instr => forall i, 0 <= i ->
                           i + instruction_count instr <= UINT_MAX ->
                           indexed_instr instr i (index_instruction instr i)) body)
    by (apply Forall_forall; intros x _; apply index_instruction_indexed).
  destruct (index_instructions_indexed body Hall 2 ltac:(lia) Hbound)
    as (Hs & Hind & Hann & _ & Hcnt).
  cbv zeta. rewrite Hind. repeat split.
  - exact Hcnt.
  - apply NoDup_seqZ.
  - intros j k x y Hjk Hx Hy.
    apply lookup_seqZ in Hx as [-> _]. apply lookup_seqZ in Hy as [-> _]. lia.
  - apply Forall_seqZ. intros; lia.
  - exact Hann.
Qed.

Lemma index_instructions_entry_body_witness :
  let indexed := fst (index_instructions sample_body 2) in
  let indices := instructions_indices indexed in
  indices = seqZ 2 (instructions_count sample_body)
  /\ instructions_count indexed = instructions_count sample_body
  /\ NoDup indices
  /\ (forall (j k : nat) (x y : Z),
        (j < k)%nat -> indices !! j = Some x -> indices !! k = Some y -> x < y)
  /\ Forall (fun i => 2 <= i) indices
  /\ loops_annotated indexed (snd (index_instructions sample_body 2)) = true.
Proof.
  apply (index_instructions_entry_body sample_body). simpl. unfold UINT_MAX. lia.
Defined.

(** ** Liveness *)

Lemma max_is_Z_max (a b : Z) : max a b = Z.max a b.
Proof. unfold max. destruct (Z.gtb_spec a b); lia. Qed.

Lemma min_is_Z_min (a b : Z) : min a b = Z.min a b.
Proof. unfold min. destruct (Z.ltb_spec a b); lia. Qed.

Lemma compute_liveness_instr_if a t loc index cond then_instrs else_instrs lf ll st :
  compute_liveness_instr
    (mk_node a t loc index (HLSL_IR_IF cond then_instrs else_instrs)) lf ll st
  = set_node_last_read cond index
      (match else_instrs with
       | Some else_instrs =>
           compute_liveness_recurse else_instrs lf ll
             (compute_liveness_recurse then_instrs lf ll st)
       | None => compute_liveness_recurse then_instrs lf ll st
       end).
Proof. destruct else_instrs; reflexivity. Qed.

Lemma compute_liveness_instr_loop a t loc index body next_index lf ll st :
  compute_liveness_instr (mk_node a t loc index (HLSL_IR_LOOP body next_index)) lf ll st
  = compute_liveness_recurse body
      (if negb (lf =? 0) then lf else index)
      (if negb (ll =? 0) then ll else next_index) st.
Proof. reflexivity. Qed.

Lemma dereferenced_vars_if a t loc index cond then_instrs else_instrs :
  dereferenced_vars_instr
    (mk_node a t loc index (HLSL_IR_IF cond then_instrs else_instrs))
  = dereferenced_vars then_instrs ++ dereferenced_vars (list_of_null else_instrs).
Proof. destruct else_instrs; reflexivity. Qed.

Lemma dereferenced_vars_loop a t loc index body next_index :
  dereferenced_vars_instr (mk_node a t loc index (HLSL_IR_LOOP body next_index))
  = dereferenced_vars body.
Proof. reflexivity. Qed.

Lemma loop_reads_if a t loc index cond then_instrs else_instrs :
  loop_reads_instr (mk_node a t loc index (HLSL_IR_IF cond then_instrs else_instrs))
  = loop_reads then_instrs ++ loop_reads (list_of_null else_instrs).
Proof. destruct else_instrs; reflexivity. Qed.

Lemma loop_reads_loop a t loc index body next_index :
  loop_reads_instr (mk_node a t loc index (HLSL_IR_LOOP body next_index))
  = map (fun var => (var, next_index)) (dereferenced_vars body) ++ loop_reads body.
Proof. reflexivity. Qed.

(** *** What one instruction writes *)

Lemma live_vars_set_node_last_read node i st :
  live_vars (set_node_last_read node i st) = live_vars st.
Proof. reflexivity. Qed.

Lemma node_last_read_set_eq node i st :
  node_last_read (set_node_last_read node i st) node = i.
Proof. unfold node_last_read, set_node_last_read. simpl. by rewrite lookup_insert_eq. Qed.

Lemma node_last_read_set (node node' : Z) i st :
  node_last_read (set_node_last_read node i st) node'
  = if decide (node = node') then i else node_last_read st node'.
Proof.
  unfold node_last_read, set_node_last_read. simpl.
  rewrite lookup_insert. destruct (decide (node = node')); reflexivity.
Qed.

Lemma node_last_read_constructor args i st o :
  o ∈ args ->
  node_last_read (fold_left (fun s arg => set_node_last_read arg i s) args st) o = i.
Proof.
  intros Hin.
  assert (Hkeep : forall l s, node_last_read s o = i ->
            node_last_read (fold_left (fun s arg => set_node_last_read arg i s) l s) o = i).
  { induction l as [|x r IH]; intros s Hs; simpl; [exact Hs|].
    apply IH. rewrite node_last_read_set. destruct (decide (x = o)); auto. }
  revert st. induction args as [|x r IH]; intros st; [inversion Hin|].
  simpl. apply elem_of_cons in Hin as [->|Hin].
  - apply Hkeep, node_last_read_set_eq.
  - apply IH, Hin.
Qed.

(** An instruction marks every node it refers to as read at its own index,
    inside a loop as well as outside. *)
Lemma referenced_nodes_last_read (instr : hlsl_ir_node) lf ll st o :
  o ∈ referenced_nodes instr ->
  node_last_read (compute_liveness_instr instr lf ll st) o = node_index instr.
Proof.
  destruct instr as [a t loc index p]. unfold referenced_nodes. simpl node_payload.
  simpl node_index. destruct p; intros Hin.
  - apply list_elem_of_singleton in Hin as ->. simpl. apply node_last_read_set_eq.
  - inversion Hin.
  - simpl. apply node_last_read_constructor, Hin.
  - destruct src; try (inversion Hin; fail).
    apply list_elem_of_singleton in Hin as ->. simpl. apply node_last_read_set_eq.
  - simpl.
    apply elem_of_cons in Hin as [->|Hin].
    + destruct operand1, operand2; rewrite ?node_last_read_set;
        repeat case_decide; try reflexivity; congruence.
    + destruct operand1 as [o1|], operand2 as [o2|]; simpl in Hin;
        rewrite ?elem_of_cons in Hin; rewrite ?node_last_read_set;
        repeat case_decide; try reflexivity; exfalso;
        repeat (destruct Hin as [Hin|Hin]; [congruence|]); inversion Hin.
  - apply list_elem_of_singleton in Hin as ->.
    rewrite compute_liveness_instr_if. apply node_last_read_set_eq.
  - destruct type, return_value; try (inversion Hin; fail).
    apply list_elem_of_singleton in Hin as ->. simpl. apply node_last_read_set_eq.
  - inversion Hin.
  - apply list_elem_of_singleton in Hin as ->. simpl. apply node_last_read_set_eq.
Qed.

(** A dereference sets the [last_read] of its variable to its own index, or
    inside a loop to the larger of its index and the exit of the loop. *)
Lemma deref_last_read a t loc index src lf ll st v :
  live_vars st !! hlsl_var_from_deref src = Some v ->
  live_vars (compute_liveness_instr (mk_node a t loc index (HLSL_IR_DEREF src)) lf ll st)
    !! hlsl_var_from_deref src
  = Some (set_ivar_last_read v (if negb (ll =? 0) then max index ll else index)).
Proof.
  intros Hv. simpl.
  assert (H : live_vars (set_last_read (hlsl_var_from_deref src)
                           (if negb (ll =? 0) then max index ll else index) st)
              !! hlsl_var_from_deref src
              = Some (set_ivar_last_read v (if negb (ll =? 0) then max index ll else index))).
  { unfold set_last_read. simpl. rewrite lookup_alter_eq, Hv. reflexivity. }
  destruct src; exact H.
Qed.

(** *** Variables read inside loops *)

Lemma last_read_at_least_weaken st x b b' :
  b' <= b -> last_read_at_least st x b -> last_read_at_least st x b'.
Proof. intros Hb (v & Hv & Hle). exists v. split; [exact Hv|lia]. Qed.

Lemma last_read_at_least_same_vars st st' x b :
  live_vars st' = live_vars st ->
  last_read_at_least st x b -> last_read_at_least st' x b.
Proof. unfold last_read_at_least. intros ->. auto. Qed.

Lemma last_read_at_least_set_first_write var i st x b :
  last_read_at_least st x b -> last_read_at_least (set_first_write var i st) x b.
Proof.
  intros (v & Hv & Hle). unfold last_read_at_least, set_first_write. simpl.
  destruct (decide (var = x)) as [->|Hne].
  - rewrite lookup_alter_eq, Hv. simpl. eexists. split; [reflexivity|]. exact Hle.
  - rewrite lookup_alter_ne by exact Hne. eauto.
Qed.

Lemma is_Some_set_first_write var i st x :
  is_Some (live_vars st !! x) -> is_Some (live_vars (set_first_write var i st) !! x).
Proof.
  unfold set_first_write. simpl. intros [v Hv].
  destruct (decide (var = x)) as [->|Hne].
  - rewrite lookup_alter_eq, Hv. eauto.
  - rewrite lookup_alter_ne by exact Hne. eauto.
Qed.

Lemma is_Some_set_last_read var i st x :
  is_Some (live_vars st !! x) -> is_Some (live_vars (set_last_read var i st) !! x).
Proof.
  unfold set_last_read. simpl. intros [v Hv].
  destruct (decide (var = x)) as [->|Hne].
  - rewrite lookup_alter_eq, Hv. eauto.
  - rewrite lookup_alter_ne by exact Hne. eauto.
Qed.

Lemma last_read_at_least_set_last_read var i st x b :
  b <= i ->
  last_read_at_least st x b -> last_read_at_least (set_last_read var i st) x b.
Proof.
  intros Hb (v & Hv & Hle). unfold last_read_at_least, set_last_read. simpl.
  destruct (decide (var = x)) as [->|Hne].
  - rewrite lookup_alter_eq, Hv. simpl. eexists. split; [reflexivity|]. exact Hb.
  - rewrite lookup_alter_ne by exact Hne. eauto.
Qed.

Lemma last_read_at_least_set_last_read_eq var i st :
  is_Some (live_vars st !! var) ->
  last_read_at_least (set_last_read var i st) var i.
Proof.
  intros [v Hv]. unfold last_read_at_least, set_last_read. simpl.
  rewrite lookup_alter_eq, Hv. simpl. eexists. split; [reflexivity|]. simpl. lia.
Qed.

(** An instruction that owns no list and is no dereference leaves every
    variable with its [last_read]. *)
Lemma plain_instr_keeps_last_read a t loc index p lf ll st :
  is_control p = false ->
  (forall src, p <> HLSL_IR_DEREF src) ->
  (forall x, is_Some (live_vars st !! x) ->
             is_Some (live_vars (compute_liveness_instr (mk_node a t loc index p) lf ll st) !! x))
  /\ (forall x b, last_read_at_least st x b ->
                  last_read_at_least
                    (compute_liveness_instr (mk_node a t loc index p) lf ll st) x b).
Proof.
  intros Hp Hnd.
  assert (Hfold : forall args s,
            live_vars (fold_left (fun s arg => set_node_last_read arg index s) args s)
            = live_vars s).
  { induction args as [|x r IH]; intros s; simpl; [reflexivity|]. rewrite IH. reflexivity. }
  destruct p; try discriminate; simpl.
  - split.
    + intros x Hx.
      destruct (live_vars st !! hlsl_var_from_deref lhs) as [v|]; [|exact Hx].
      destruct (ivar_first_write v =? 0); [|exact Hx].
      apply is_Some_set_first_write, Hx.
    + intros x b Hx.
      apply (last_read_at_least_same_vars _ _ _ _ (live_vars_set_node_last_read _ _ _)).
      destruct (live_vars st !! hlsl_var_from_deref lhs) as [v|]; [|exact Hx].
      destruct (ivar_first_write v =? 0); [|exact Hx].
      apply last_read_at_least_set_first_write, Hx.
  - auto.
  - split.
    + intros x Hx. rewrite Hfold. exact Hx.
    + intros x b Hx. apply (last_read_at_least_same_vars _ _ _ _ (Hfold _ _)), Hx.
  - exfalso. exact (Hnd src eq_refl).
  - assert (Hv : live_vars
                   match operand2 with
                   | Some o =>
                       set_node_last_read o index
                         match operand1 with
                         | Some o0 => set_node_last_read o0 index (set_node_last_read operand0 index st)
                         | None => set_node_last_read operand0 index st
                         end
                   | None =>
                       match operand1 with
                       | Some o => set_node_last_read o index (set_node_last_read operand0 index st)
                       | None => set_node_last_read operand0 index st
                       end
                   end = live_vars st)
      by (destruct operand1, operand2; reflexivity).
    split.
    + intros x Hx. rewrite Hv. exact Hx.
    + intros x b Hx. apply (last_read_at_least_same_vars _ _ _ _ Hv), Hx.
  - assert (Hv : live_vars
                   match type with
                   | HLSL_IR_JUMP_RETURN =>
                       match return_value with
                       | Some value => set_node_last_read value index st
                       | None => st
                       end
                   | _ => st
                   end = live_vars st)
      by (destruct type, return_value; reflexivity).
    split.
    + intros x Hx. rewrite Hv. exact Hx.
    + intros x b Hx. apply (last_read_at_least_same_vars _ _ _ _ Hv), Hx.
  - auto.
Qed.

Lemma index_instruction_snd (instr : hlsl_ir_node) (i : Z) :
  0 <= i -> i + instruction_count instr <= UINT_MAX ->
  snd (index_instruction instr i) = i + instruction_count instr.
Proof. intros Hi Hb. apply (index_instruction_indexed instr i Hi Hb). Qed.

Lemma index_instructions_snd (l : list hlsl_ir_node) (i : Z) :
  0 <= i -> i + instructions_count l <= UINT_MAX ->
  snd (index_instructions l i) = i + instructions_count l.
Proof.
  intros Hi Hb.
  assert (Hall : Forall (fun instr => forall i, 0 <= i ->
                           i + instruction_count instr <= UINT_MAX ->
                           indexed_instr instr i (index_instruction instr i)) l)
    by (apply Forall_forall; intros x _; apply index_instruction_indexed).
  apply (index_instructions_indexed l Hall i Hi Hb).
Qed.

Lemma index_instructions_cons (x : hlsl_ir_node) (r : list hlsl_ir_node) (i : Z) :
  fst (index_instructions (x :: r) i)
  = fst (index_instruction x i)
    :: fst (index_instructions r (snd (index_instruction x i))).
Proof.
  simpl. destruct (index_instruction x i) as [x1 i1]. simpl.
  destruct (index_instructions r i1) as [r1 i2]. reflexivity.
Qed.

Lemma index_instruction_if_fst a t loc i0 cond then_instrs else_instrs i :
  fst (index_instruction
         (mk_node a t loc i0 (HLSL_IR_IF cond then_instrs else_instrs)) i)
  = mk_node a t loc i
      (HLSL_IR_IF cond (fst (index_instructions then_instrs (u32 (i + 1))))
         (match else_instrs with
          | Some else_instrs =>
              Some (fst (index_instructions else_instrs
                           (snd (index_instructions then_instrs (u32 (i + 1))))))
          | None => None
          end)).
Proof.
  rewrite index_instruction_if.
  destruct (index_instructions then_instrs (u32 (i + 1))) as [then1 i2].
  destruct else_instrs as [e|]; [|reflexivity].
  simpl. destruct (index_instructions e i2) as [else1 i3]. reflexivity.
Qed.

Lemma index_instruction_loop_fst a t loc i0 body next_index i :
  fst (index_instruction (mk_node a t loc i0 (HLSL_IR_LOOP body next_index)) i)
  = mk_node a t loc i
      (HLSL_IR_LOOP (fst (index_instructions body (u32 (i + 1))))
         (snd (index_instructions body (u32 (i + 1))))).
Proof.
  rewrite index_instruction_loop.
  destruct (index_instructions body (u32 (i + 1))) as [body1 i2]. reflexivity.
Qed.

(** Two lists walked one after the other, the second numbered from where the
    first ends. *)
Lemma reads_ok_seq (run1 run2 : Z -> Z -> liveness -> liveness)
    (reads1 reads2 : list (Z * Z)) (derefs1 derefs2 : list Z) (i i1 j : Z) :
  i <= i1 -> i1 <= j ->
  reads_ok run1 reads1 derefs1 i i1 ->
  reads_ok run2 reads2 derefs2 i1 j ->
  reads_ok (fun lf ll st => run2 lf ll (run1 lf ll st))
    (reads1 ++ reads2) (derefs1 ++ derefs2) i j.
Proof.
  intros Hi Hj [F1 H1] [F2 H2]. split.
  - intros x e Hin. apply elem_of_app in Hin as [Hin|Hin].
    + specialize (F1 x e Hin). lia.
    + exact (F2 x e Hin).
  - intros lf ll st Hll.
    destruct (H1 lf ll st ltac:(lia)) as (P0 & P1 & P2 & P3).
    destruct (H2 lf ll (run1 lf ll st) Hll) as (Q0 & Q1 & Q2 & Q3).
    repeat split.
    + intros x Hx. apply Q0, P0, Hx.
    + intros x b Hb Hx. apply Q1; [lia|]. apply P1; [exact Hb|exact Hx].
    + intros x e Hin Hx. apply elem_of_app in Hin as [Hin|Hin].
      * apply Q1; [left; specialize (F1 x e Hin); lia|]. apply P2; assumption.
      * apply Q2; [exact Hin|]. apply P0, Hx.
    + intros x Hin Hx Hne. apply elem_of_app in Hin as [Hin|Hin].
      * apply Q1; [right; split; [exact Hne|lia]|]. apply P3; assumption.
      * apply Q3; [exact Hin| |exact Hne]. apply P0, Hx.
Qed.

Lemma reads_ok_nil (i : Z) : reads_ok (fun _ _ st => st) [] [] i i.
Proof.
  split; [intros x e Hin; inversion Hin|].
  intros lf ll st _. repeat split; auto.
  - intros x e Hin. inversion Hin.
  - intros x Hin. inversion Hin.
Qed.

Lemma index_instructions_reads (l : list hlsl_ir_node) :
  Forall (fun instr => forall i, 0 <= i -> i + instruction_count instr <= UINT_MAX ->
            reads_ok_instr (fst (index_instruction instr i)) i
              (i + instruction_count instr)) l ->
  forall i, 0 <= i -> i + instructions_count l <= UINT_MAX ->
    reads_ok_list (fst (index_instructions l i)) i (i + instructions_count l).
Proof.
  induction 1 as [|x r Hx _ IH]; intros i Hi Hb.
  - simpl. rewrite Z.add_0_r. apply reads_ok_nil.
  - simpl in Hb. pose proof (instruction_count_pos x) as Hpos.
    pose proof (instructions_count_nonneg r) as Hnn.
    rewrite index_instructions_cons, index_instruction_snd by lia.
    unfold reads_ok_list. simpl compute_liveness_recurse.
    change (loop_reads (?a :: ?b)) with (loop_reads_instr a ++ loop_reads b).
    change (dereferenced_vars (?a :: ?b))
      with (dereferenced_vars_instr a ++ dereferenced_vars b).
    simpl instructions_count.
    apply (reads_ok_seq
             (compute_liveness_instr (fst (index_instruction x i)))
             (compute_liveness_recurse
                (fst (index_instructions r (i + instruction_count x))))
             _ _ _ _ i (i + instruction_count x));
      [lia|lia|apply Hx; lia|].
    replace (i + (instruction_count x + instructions_count r))
      with (i + instruction_count x + instructions_count r) by lia.
    apply IH; lia.
Qed.

Lemma reads_ok_ext (run run' : Z -> Z -> liveness -> liveness) reads derefs i i' j :
  (forall lf ll st, live_vars (run lf ll st) = live_vars (run' lf ll st)) ->
  i <= i' ->
  reads_ok run' reads derefs i' j -> reads_ok run reads derefs i j.
Proof.
  intros Hext Hi [F H]. split; [exact F|].
  intros lf ll st Hll. destruct (H lf ll st Hll) as (P0 & P1 & P2 & P3).
  unfold last_read_at_least in *. repeat split.
  - intros x Hx. rewrite Hext. apply P0, Hx.
  - intros x b Hb Hx. rewrite Hext. apply P1; [lia|exact Hx].
  - intros x e Hin Hx. rewrite Hext. apply P2; assumption.
  - intros x Hin Hx Hne. rewrite Hext. apply P3; assumption.
Qed.

Lemma reads_ok_deref a t loc src i :
  reads_ok_instr (mk_node a t loc i (HLSL_IR_DEREF src)) i (i + 1).
Proof.
  assert (Hrun : forall lf ll st,
            live_vars (compute_liveness_instr (mk_node a t loc i (HLSL_IR_DEREF src)) lf ll st)
            = live_vars (set_last_read (hlsl_var_from_deref src)
                           (if negb (ll =? 0) then max i ll else i) st))
    by (intros; destruct src; reflexivity).
  split; [intros x e Hin; inversion Hin|].
  intros lf ll st Hll. unfold last_read_at_least. repeat split.
  - intros x Hx. rewrite Hrun. apply is_Some_set_last_read, Hx.
  - intros x b Hb Hx. rewrite Hrun.
    apply last_read_at_least_set_last_read; [|exact Hx].
    rewrite max_is_Z_max. destruct (Z.eqb_spec ll 0); simpl; lia.
  - intros x e Hin. inversion Hin.
  - intros x Hin Hx Hne. simpl in Hin. apply list_elem_of_singleton in Hin as ->.
    rewrite Hrun.
    apply (last_read_at_least_weaken _ _ (if negb (ll =? 0) then max i ll else i)).
    + rewrite max_is_Z_max. destruct (Z.eqb_spec ll 0); simpl; lia.
    + apply last_read_at_least_set_last_read_eq, Hx.
Qed.

Lemma dereferenced_vars_plain a t loc i p :
  is_control p = false -> (forall src, p <> HLSL_IR_DEREF src) ->
  dereferenced_vars_instr (mk_node a t loc i p) = []
  /\ loop_reads_instr (mk_node a t loc i p) = [].
Proof. destruct p; try discriminate; intros _ H; try (split; reflexivity).
  exfalso. exact (H src eq_refl). Qed.

Lemma index_instruction_reads (instr : hlsl_ir_node) :
  forall i, 0 <= i -> i + instruction_count instr <= UINT_MAX ->
    reads_ok_instr (fst (index_instruction instr i)) i (i + instruction_count instr).
Proof.
  induction instr as [a t loc i0 cond then_instrs else_instrs Hthen Helse
                     |a t loc i0 body next_index Hbody
                     |a t loc i0 p Hp] using hlsl_ir_node_nested_ind;
    intros i Hi Hbound.
  - rewrite instruction_count_if in Hbound |- *.
    pose proof (instructions_count_nonneg then_instrs) as Hn1.
    pose proof (instructions_count_nonneg (list_of_null else_instrs)) as Hn2.
    rewrite index_instruction_if_fst, u32_small by lia.
    rewrite index_instructions_snd by lia.
    pose proof (index_instructions_reads _ Hthen (i + 1) ltac:(lia) ltac:(lia)) as Rthen.
    unfold reads_ok_instr. rewrite loop_reads_if, dereferenced_vars_if.
    set (i2 := i + 1 + instructions_count then_instrs) in *.
    destruct else_instrs as [else_instrs|]; simpl list_of_null in *.
    + pose proof (index_instructions_reads _ Helse i2 ltac:(lia) ltac:(lia)) as Relse.
      eapply (reads_ok_ext _ _ _ _ i (i + 1)); [| lia |].
      * intros lf ll st. rewrite compute_liveness_instr_if.
        rewrite live_vars_set_node_last_read. reflexivity.
      * replace (i + (1 + (instructions_count then_instrs + instructions_count else_instrs)))
          with (i2 + instructions_count else_instrs) by lia.
        apply (reads_ok_seq
                 (compute_liveness_recurse (fst (index_instructions then_instrs (i + 1))))
                 (compute_liveness_recurse (fst (index_instructions else_instrs i2)))
                 _ _ _ _ (i + 1) i2); [lia|lia|exact Rthen|exact Relse].
    + eapply (reads_ok_ext _ _ _ _ i (i + 1)); [| lia |].
      * intros lf ll st. rewrite compute_liveness_instr_if.
        rewrite live_vars_set_node_last_read. reflexivity.
      * simpl instructions_count.
        replace (i + (1 + (instructions_count then_instrs + 0))) with i2 by lia.
        apply (reads_ok_seq
                 (compute_liveness_recurse (fst (index_instructions then_instrs (i + 1))))
                 (fun _ _ st => st) _ [] _ [] (i + 1) i2);
          [lia|lia|exact Rthen|apply reads_ok_nil].
  - rewrite instruction_count_loop in Hbound |- *.
    pose proof (instructions_count_nonneg body) as Hn1.
    rewrite index_instruction_loop_fst, u32_small by lia.
    rewrite index_instructions_snd by lia.
    pose proof (index_instructions_reads _ Hbody (i + 1) ltac:(lia) ltac:(lia)) as Rbody.
    unfold reads_ok_instr. rewrite loop_reads_loop, dereferenced_vars_loop.
    set (nx := i + 1 + instructions_count body) in *.
    set (body1 := fst (index_instructions body (i + 1))) in *.
    replace (i + (1 + instructions_count body)) with nx by lia.
    destruct Rbody as [F H]. split.
    + intros x e Hin. apply elem_of_app in Hin as [Hin|Hin].
      * apply list_elem_of_fmap in Hin as (y & Heq & _). inversion Heq. lia.
      * exact (F x e Hin).
    + intros lf ll st Hll. rewrite compute_liveness_instr_loop.
      set (lf' := if negb (lf =? 0) then lf else i).
      set (ll' := if negb (ll =? 0) then ll else nx).
      assert (Hll' : ll' <> 0 /\ nx <= ll' /\ (ll <> 0 -> ll' = ll)).
      { subst ll'. destruct (Z.eqb_spec ll 0); simpl; lia. }
      destruct Hll' as (Hne' & Hge' & Hsame).
      destruct (H lf' ll' st ltac:(lia)) as (P0 & P1 & P2 & P3).
      repeat split.
      * exact P0.
      * intros x b Hb Hx. apply P1; [|exact Hx].
        destruct Hb as [Hb|[Hne Hb]]; [left; lia|right; rewrite Hsame by exact Hne; lia].
      * intros x e Hin Hx. apply elem_of_app in Hin as [Hin|Hin].
        -- apply list_elem_of_fmap in Hin as (y & Heq & Hy). inversion Heq; subst.
           apply (last_read_at_least_weaken _ _ ll'); [lia|].
           apply P3; assumption.
        -- apply P2; assumption.
      * intros x Hin Hx Hne. rewrite <- (Hsame Hne). apply P3; assumption.
  - rewrite instruction_count_plain in Hbound |- * by assumption.
    rewrite index_instruction_plain by assumption. simpl fst.
    destruct p; try discriminate; try apply reads_ok_deref.
    all: match goal with
         | |- reads_ok_instr (mk_node ?a ?t ?loc ?i ?p) _ _ =>
             assert (Hnd : forall src, p <> HLSL_IR_DEREF src) by (intros src; discriminate);
             destruct (dereferenced_vars_plain a t loc i p Hp Hnd) as [Hd Hr];
             unfold reads_ok_instr; rewrite Hd, Hr;
             split; [intros x e Hin; inversion Hin|];
             intros lf ll st Hll;
             destruct (plain_instr_keeps_last_read a t loc i p lf ll st Hp Hnd) as [K0 K1];
             repeat split;
             [exact K0
             |intros x b _ Hx; apply K1, Hx
             |intros x e Hin; inversion Hin
             |intros x Hin; inversion Hin]
         end.
Qed.

(** C2 (as the code has it).  In the liveness pass over an indexed body, an
    instruction marks every node it refers to (an operand of an expression,
    constructor or swizzle, an [if] condition, a return value, the right-hand
    side of an assignment, an array index) as read at the index of the
    instruction, inside a loop as well as outside; a dereference sets the
    [last_read] of its variable to its index outside loops and to the larger
    of its index and the exit of the loop inside one; and so a variable
    dereferenced anywhere inside a loop ends the pass with a [last_read] of at
    least the exit index of that loop. *)
Theorem liveness_references (body : list hlsl_ir_node) (st : liveness) :
  2 + instructions_count body <= UINT_MAX ->
  let indexed := fst (index_instructions body 2) in
  (forall instr loop_first loop_last st0 o,
      o ∈ referenced_nodes instr ->
      node_last_read (compute_liveness_instr instr loop_first loop_last st0) o
      = node_index instr)
  /\ (forall a t loc index src loop_first loop_last st0 v,
        live_vars st0 !! hlsl_var_from_deref src = Some v ->
        live_vars (compute_liveness_instr (mk_node a t loc index (HLSL_IR_DEREF src))
                     loop_first loop_last st0) !! hlsl_var_from_deref src
        = Some (set_ivar_last_read v
                  (if negb (loop_last =? 0) then max index loop_last else index)))
  /\ (forall var exit,
        (var, exit) ∈ loop_reads indexed ->
        is_Some (live_vars st !! var) ->
        last_read_at_least (compute_liveness_recurse indexed 0 0 st) var exit).
Proof.
  intros Hbound. cbv zeta. split; [|split].
  - intros. apply referenced_nodes_last_read. assumption.
  - intros. apply deref_last_read. assumption.
  - assert (Hall : Forall (fun instr => forall i, 0 <= i ->
                             i + instruction_count instr <= UINT_MAX ->
                             reads_ok_instr (fst (index_instruction instr i)) i
                               (i + instruction_count instr)) body)
      by (apply Forall_forall; intros x _; apply index_instruction_reads).
    destruct (index_instructions_reads body Hall 2 ltac:(lia) Hbound) as [_ H].
    destruct (H 0 0 st (or_introl eq_refl)) as (_ & _ & P2 & _).
    exact P2.
Qed.

Lemma liveness_references_witness :
  let indexed := fst (index_instructions sample_body 2) in
  (forall instr loop_first loop_last st0 o,
      o ∈ referenced_nodes instr ->
      node_last_read (compute_liveness_instr instr loop_first loop_last st0) o
      = node_index instr)
  /\ (forall a t loc index src loop_first loop_last st0 v,
        live_vars st0 !! hlsl_var_from_deref src = Some v ->
        live_vars (compute_liveness_instr (mk_node a t loc index (HLSL_IR_DEREF src))
                     loop_first loop_last st0) !! hlsl_var_from_deref src
        = Some (set_ivar_last_read v
                  (if negb (loop_last =? 0) then max index loop_last else index)))
  /\ (forall var exit,
        (var, exit) ∈ loop_reads indexed ->
        is_Some (live_vars sample_liveness !! var) ->
        last_read_at_least (compute_liveness_recurse indexed 0 0 sample_liveness)
          var exit).
Proof.
  apply (liveness_references sample_body sample_liveness).
  simpl. unfold UINT_MAX. lia.
Defined.

(** C2 (as stated) fails for the operands of an expression inside a loop.  In
    the sample body the negation at index 5 reads the node at address 42
    inside the loop that ends at index 8: the node is marked read at 5, not at
    the larger of 5 and 8. *)
Lemma operand_in_loop_read_at_own_index :
  let indexed := fst (index_instructions sample_body 2) in
  let st := compute_liveness_recurse indexed 0 0 sample_liveness in
  instructions_indices indexed = [2; 3; 4; 5; 6; 7; 8]
  /\ loop_reads indexed = [(8, 8)]
  /\ node_last_read st 42 = 5
  /\ node_last_read st 42 <> max 5 8.
Proof.
  cbv zeta. split; [vm_compute; reflexivity|].
  split; [vm_compute; reflexivity|].
  split; [vm_compute; reflexivity|].
  vm_compute. discriminate.
Qed.

(** *** The start of the pass *)

Lemma start_kept_refl (v : hlsl_ir_var) : start_kept v v.
Proof. unfold start_kept. auto. Qed.

Lemma start_kept_trans (v1 v2 v3 : hlsl_ir_var) :
  start_kept v1 v2 -> start_kept v2 v3 -> start_kept v1 v3.
Proof. unfold start_kept. intros (M1 & W1 & R1) (M2 & W2 & R2). repeat split; [congruence|auto|auto]. Qed.

(** A loop over a list of variables whose body keeps what the set-up has
    written and establishes [Q] for the variable of the iteration leaves [Q]
    on every variable of the list. *)
Lemma fold_left_start (step : liveness -> Z -> liveness) (Q : hlsl_ir_var -> Prop) :
  (forall st a x v, live_vars st !! x = Some v ->
     exists v', live_vars (step st a) !! x = Some v'
                /\ start_kept v v' /\ (x = a -> Q v')) ->
  (forall v v', start_kept v v' -> Q v -> Q v') ->
  forall l st x v, live_vars st !! x = Some v ->
     exists v', live_vars (fold_left step l st) !! x = Some v'
                /\ start_kept v v' /\ (x ∈ l -> Q v').
Proof.
  intros Hstep HQ. induction l as [|a r IH]; intros st x v Hv; simpl.
  - exists v. split; [exact Hv|]. split; [apply start_kept_refl|].
    intros Hin. inversion Hin.
  - destruct (Hstep st a x v Hv) as (v1 & Hv1 & K1 & Q1).
    destruct (IH (step st a) x v1 Hv1) as (v2 & Hv2 & K2 & Q2).
    exists v2. split; [exact Hv2|]. split; [exact (start_kept_trans _ _ _ K1 K2)|].
    intros Hin. apply elem_of_cons in Hin as [Heq|Hin]; [|exact (Q2 Hin)].
    apply (HQ v1 v2 K2), Q1, Heq.
Qed.

Lemma set_first_write_start var st x v :
  live_vars st !! x = Some v ->
  exists v', live_vars (set_first_write var 1 st) !! x = Some v'
             /\ start_kept v v' /\ (x = var -> ivar_first_write v' = 1).
Proof.
  intros Hv. unfold set_first_write. simpl.
  destruct (decide (var = x)) as [->|Hne].
  - rewrite lookup_alter_eq, Hv. simpl. eexists. split; [reflexivity|].
    split; [|reflexivity]. unfold start_kept. simpl. auto.
  - rewrite lookup_alter_ne by exact Hne. exists v. split; [exact Hv|].
    split; [apply start_kept_refl|]. intros ->. contradiction.
Qed.

Lemma set_last_read_start var st x v :
  live_vars st !! x = Some v ->
  exists v', live_vars (set_last_read var UINT_MAX st) !! x = Some v'
             /\ start_kept v v' /\ (x = var -> ivar_last_read v' = UINT_MAX).
Proof.
  intros Hv. unfold set_last_read. simpl.
  destruct (decide (var = x)) as [->|Hne].
  - rewrite lookup_alter_eq, Hv. simpl. eexists. split; [reflexivity|].
    split; [|reflexivity]. unfold start_kept. simpl. auto.
  - rewrite lookup_alter_ne by exact Hne. exists v. split; [exact Hv|].
    split; [apply start_kept_refl|]. intros ->. contradiction.
Qed.

Lemma liveness_parameter_start var st x v :
  live_vars st !! x = Some v ->
  exists v', live_vars (liveness_parameter var st) !! x = Some v'
             /\ start_kept v v'
             /\ (x = var -> storage_marked v').
Proof.
  intros Hv. unfold liveness_parameter, storage_marked.
  destruct (live_vars st !! var) as [p|] eqn:Hp.
  - destruct (has_bits (ivar_modifiers p) HLSL_STORAGE_IN) eqn:Hin;
      destruct (has_bits (ivar_modifiers p) HLSL_STORAGE_OUT) eqn:Hout.
    + destruct (set_first_write_start var st x v Hv) as (v1 & Hv1 & K1 & W1).
      destruct (set_last_read_start var _ x v1 Hv1) as (v2 & Hv2 & K2 & R2).
      exists v2. split; [exact Hv2|]. split; [exact (start_kept_trans _ _ _ K1 K2)|].
      intros Heq. split; intros _; [apply K2, W1, Heq|apply R2, Heq].
    + destruct (set_first_write_start var st x v Hv) as (v1 & Hv1 & K1 & W1).
      exists v1. split; [exact Hv1|]. split; [exact K1|].
      intros ->. rewrite Hp in Hv. inversion Hv; subst p.
      destruct K1 as (M1 & _). rewrite M1, Hout. split; [intros _; auto|discriminate].
    + destruct (set_last_read_start var st x v Hv) as (v1 & Hv1 & K1 & R1).
      exists v1. split; [exact Hv1|]. split; [exact K1|].
      intros ->. rewrite Hp in Hv. inversion Hv; subst p.
      destruct K1 as (M1 & _). rewrite M1, Hin. split; [discriminate|intros _; auto].
    + exists v. split; [exact Hv|]. split; [apply start_kept_refl|].
      intros ->. rewrite Hp in Hv. inversion Hv; subst p.
      rewrite Hin, Hout. split; discriminate.
  - exists v. split; [exact Hv|]. split; [apply start_kept_refl|].
    intros ->. congruence.
Qed.

Lemma storage_marked_kept (v v' : hlsl_ir_var) :
  start_kept v v' -> storage_marked v -> storage_marked v'.
Proof.
  unfold start_kept, storage_marked. intros (M & W & R) [Hi Ho].
  rewrite M. split; auto.
Qed.

(** C5.  When [compute_liveness] has run its two opening loops and the walk
    over the body is about to start, every variable of the global scope has
    [first_write] 1, every parameter of the entry function with input storage
    has [first_write] 1, and every parameter with output storage has
    [last_read] [UINT_MAX]; the modifiers are as they were. *)
Theorem compute_liveness_start_marks (globals : list Z)
    (entry_func : hlsl_ir_function_decl) (st : liveness) (var : Z)
    (v : hlsl_ir_var) :
  live_vars st !! var = Some v ->
  exists v',
    live_vars (compute_liveness_start globals entry_func st) !! var = Some v'
    /\ ivar_modifiers v' = ivar_modifiers v
    /\ (var ∈ globals -> ivar_first_write v' = 1)
    /\ (var ∈ func_parameters entry_func ->
        has_bits (ivar_modifiers v) HLSL_STORAGE_IN = true ->
        ivar_first_write v' = 1)
    /\ (var ∈ func_parameters entry_func ->
        has_bits (ivar_modifiers v) HLSL_STORAGE_OUT = true ->
        ivar_last_read v' = UINT_MAX).
Proof.
  intros Hv. unfold compute_liveness_start, liveness_globals, liveness_parameters.
  destruct (fold_left_start (fun s var => set_first_write var 1 s)
              (fun v => ivar_first_write v = 1)
              (fun st a x v H => set_first_write_start a st x v H)
              (fun v v' K H => proj1 (proj2 K) H)
              globals st var v Hv) as (v1 & Hv1 & K1 & G1).
  destruct (fold_left_start (fun s var => liveness_parameter var s)
              storage_marked
              (fun st a x v H => liveness_parameter_start a st x v H)
              storage_marked_kept
              (func_parameters entry_func) _ var v1 Hv1) as (v2 & Hv2 & K2 & P2).
  exists v2. split; [exact Hv2|].
  pose proof (start_kept_trans _ _ _ K1 K2) as (M & _ & _).
  split; [exact M|]. split; [|split].
  - intros Hin. apply K2, G1, Hin.
  - intros Hin Hbit. apply (P2 Hin). rewrite M. exact Hbit.
  - intros Hin Hbit. apply (P2 Hin). rewrite M. exact Hbit.
Qed.

Lemma compute_liveness_start_marks_witness :
  exists v',
    live_vars (compute_liveness_start [8] sample_entry_func sample_start) !! 10 = Some v'
    /\ ivar_modifiers v' = ivar_modifiers sample_out_param
    /\ (10 ∈ [8] -> ivar_first_write v' = 1)
    /\ (10 ∈ func_parameters sample_entry_func ->
        has_bits (ivar_modifiers sample_out_param) HLSL_STORAGE_IN = true ->
        ivar_first_write v' = 1)
    /\ (10 ∈ func_parameters sample_entry_func ->
        has_bits (ivar_modifiers sample_out_param) HLSL_STORAGE_OUT = true ->
        ivar_last_read v' = UINT_MAX).
Proof.
  apply (compute_liveness_start_marks [8] sample_entry_func sample_start 10
           sample_out_param).
  vm_compute. reflexivity.
Defined.

(** ** Loops *)

Lemma alloc_succeeds (n : nat) (c : hlsl_parse_ctx) :
  allocs_succeed (S n) (ctx_heap c) = true ->
  exists c',
    ctx_alloc c = (Some (heap_next (ctx_heap c)), c')
    /\ allocs_succeed n (ctx_heap c') = true
    /\ ctx_status c' = ctx_status c
    /\ ctx_messages c' = ctx_messages c
    /\ ctx_scopes c' = ctx_scopes c
    /\ ctx_vars c' = ctx_vars c
    /\ ctx_functions c' = ctx_functions c
    /\ ctx_matrix_majority c' = ctx_matrix_majority c.
Proof.
  unfold allocs_succeed, ctx_alloc, d3dcompiler_alloc.
  destruct c as [s m mm sc f vs cf [nx fails]]. simpl.
  destruct fails as [|[|] rest]; simpl; try discriminate; intros H;
    eexists; (split; [reflexivity|]); simpl; repeat split; try exact H.
  destruct n; reflexivity.
Qed.

Lemma allocs_succeed_le (n m : nat) (h : heap) :
  (m <= n)%nat -> allocs_succeed n h = true -> allocs_succeed m h = true.
Proof.
  unfold allocs_succeed. intros Hle H.
  rewrite forallb_forall in H |- *. intros x Hx. apply H.
  apply list_elem_of_In in Hx. apply list_elem_of_In.
  revert Hx. clear H. revert m Hle. generalize (heap_fails h) as l.
  induction n as [|n IH]; intros l m Hle Hx.
  - assert (m = 0)%nat as -> by lia. exact Hx.
  - destruct m as [|m]; [destruct l; inversion Hx|].
    destruct l as [|b l]; [inversion Hx|]. simpl in Hx |- *.
    apply elem_of_cons in Hx as [->|Hx]; [left|right; apply (IH l m); [lia|exact Hx]].
Qed.

Lemma new_unary_expr_succeeds op op1 loc (n : nat) c :
  allocs_succeed (S n) (ctx_heap c) = true ->
  exists c',
    new_unary_expr op op1 loc c
    = (Some (mk_node (heap_next (ctx_heap c)) (node_data_type op1) loc 0
               (HLSL_IR_EXPR op (node_addr op1) None None)), c')
    /\ allocs_succeed n (ctx_heap c') = true.
Proof.
  intros H. destruct (alloc_succeeds n c H) as (c' & Ha & Hn & _).
  exists c'. unfold new_unary_expr. rewrite Ha. auto.
Qed.

Lemma append_conditional_break_shape (cond : list hlsl_ir_node) (n : nat) c :
  allocs_succeed (4 + n) (ctx_heap c) = true ->
  exists cond1 c',
    append_conditional_break cond c = (Some cond1, c')
    /\ is_conditional_break cond cond1
    /\ allocs_succeed n (ctx_heap c') = true.
Proof.
  intros H. unfold append_conditional_break, is_conditional_break, node_from_list.
  destruct (last cond) as [condition|] eqn:Hlast.
  - destruct (new_unary_expr_succeeds HLSL_IR_UNOP_LOGIC_NOT condition
                (node_loc condition) (3 + n) c H) as (c1 & -> & H1).
    destruct (alloc_succeeds (2 + n) c1 H1) as (c2 & -> & H2 & _).
    destruct (alloc_succeeds (1 + n) c2 H2) as (c3 & -> & H3 & _).
    destruct (alloc_succeeds n c3 H3) as (c4 & -> & H4 & _).
    eexists _, c4. split; [reflexivity|]. split; [|exact H4].
    eexists _, _, _. reflexivity.
  - apply last_None in Hlast as ->. exists [], c. repeat split.
    apply (allocs_succeed_le (4 + n) n); [lia|exact H].
Qed.

(** The body [create_loop] gives the loop: the condition with its break goes
    first, before the user body and the iteration instructions, except in a
    [do]-[while] loop, where it goes last. *)
Lemma create_loop_lowering (type : loop_type) init cond iter body loc c :
  allocs_succeed 7 (ctx_heap c) = true ->
  exists a cond1 c',
    create_loop type init cond iter body loc c
    = (Some (list_of_null init
             ++ [mk_node a None loc 0
                   (HLSL_IR_LOOP
                      (if is_do_while type
                       then body ++ list_of_null iter ++ cond1
                       else cond1 ++ body ++ list_of_null iter) 0)]), c')
    /\ is_conditional_break cond cond1.
Proof.
  intros H. unfold create_loop.
  destruct (alloc_succeeds 6 c H) as (c1 & -> & H1 & _).
  destruct (alloc_succeeds 5 c1 H1) as (c2 & -> & H2 & _).
  destruct (alloc_succeeds 4 c2 H2) as (c3 & -> & H3 & _).
  destruct (append_conditional_break_shape cond 0 c3 H3) as (cond1 & c4 & -> & Hc & _).
  exists (heap_next (ctx_heap c1)), cond1, c4. split; [|exact Hc].
  destruct type; simpl; rewrite <- ?app_assoc; reflexivity.
Qed.

(** C3.  When the seven allocations [create_loop] may ask for succeed, each
    loop statement is lowered to a list that holds the initializer
    instructions (of a [for] loop) and then one loop node.  The body of the
    loop is, for [while] and [for], the condition instructions with the
    conditional break, the user body, the iteration instructions; for
    [do]-[while], the user body and then the condition instructions with the
    conditional break.  The conditional break is the negation of the
    condition and an [if] on it that holds a [break]; for an empty condition
    list nothing is inserted. *)
Theorem loop_statement_lowering (init : option (list hlsl_ir_node))
    (cond iter body : list hlsl_ir_node) (loc : source_location)
    (c : hlsl_parse_ctx) :
  allocs_succeed 7 (ctx_heap c) = true ->
  (exists a cond1 c',
      loop_statement_while cond body loc c
      = (Some [mk_node a None loc 0 (HLSL_IR_LOOP (cond1 ++ body) 0)], c')
      /\ is_conditional_break cond cond1)
  /\ (exists a cond1 c',
        loop_statement_do_while body cond loc c
        = (Some [mk_node a None loc 0 (HLSL_IR_LOOP (body ++ cond1) 0)], c')
        /\ is_conditional_break cond cond1)
  /\ (exists a cond1 c',
        loop_statement_for init cond iter body loc c
        = (Some (list_of_null init
                 ++ [mk_node a None loc 0
                       (HLSL_IR_LOOP (cond1 ++ body ++ iter) 0)]), c')
        /\ is_conditional_break cond cond1)
  /\ (forall cond1, is_conditional_break [] cond1 -> cond1 = []).
Proof.
  intros H. split; [|split; [|split]].
  - destruct (create_loop_lowering LOOP_WHILE None cond None body loc c H)
      as (a & cond1 & c' & E & Hc).
    exists a, cond1, c'. split; [|exact Hc].
    unfold loop_statement_while. rewrite E. simpl. rewrite app_nil_r. reflexivity.
  - destruct (create_loop_lowering LOOP_DO_WHILE None cond None body loc c H)
      as (a & cond1 & c' & E & Hc).
    exists a, cond1, c'. split; [|exact Hc].
    unfold loop_statement_do_while. rewrite E. reflexivity.
  - destruct (create_loop_lowering LOOP_FOR init cond (Some iter) body loc c H)
      as (a & cond1 & c' & E & Hc).
    exists a, cond1, c'. split; [|exact Hc].
    unfold loop_statement_for. rewrite E. reflexivity.
  - intros cond1 Hc. exact Hc.
Qed.

Lemma loop_statement_lowering_witness :
  (exists a cond1 c',
      loop_statement_while sample_cond [] (sample_loc 6 5) sample_ctx
      = (Some [mk_node a None (sample_loc 6 5) 0 (HLSL_IR_LOOP (cond1 ++ []) 0)], c')
      /\ is_conditional_break sample_cond cond1)
  /\ (exists a cond1 c',
        loop_statement_do_while [] sample_cond (sample_loc 6 5) sample_ctx
        = (Some [mk_node a None (sample_loc 6 5) 0 (HLSL_IR_LOOP ([] ++ cond1) 0)], c')
        /\ is_conditional_break sample_cond cond1)
  /\ (exists a cond1 c',
        loop_statement_for None sample_cond sample_iter [] (sample_loc 6 5) sample_ctx
        = (Some (list_of_null None
                 ++ [mk_node a None (sample_loc 6 5) 0
                       (HLSL_IR_LOOP (cond1 ++ [] ++ sample_iter) 0)]), c')
        /\ is_conditional_break sample_cond cond1)
  /\ (forall cond1, is_conditional_break [] cond1 -> cond1 = []).
Proof.
  apply (loop_statement_lowering None sample_cond sample_iter [] (sample_loc 6 5)
           sample_ctx).
  vm_compute. reflexivity.
Defined.

(** ** Diagnostics *)

Lemma hlsl_report_message_reports loc level text (n : nat) c :
  allocs_succeed (S n) (ctx_heap c) = true ->
  ctx_messages (hlsl_report_message loc level text c)
  = ctx_messages c ++ [message_line loc level text]
  /\ ctx_status (hlsl_report_message loc level text c)
     = match level with
       | HLSL_LEVEL_ERROR => PARSE_ERR
       | HLSL_LEVEL_WARNING => set_parse_status (ctx_status c) PARSE_WARN
       | HLSL_LEVEL_NOTE => ctx_status c
       end
  /\ ctx_scopes (hlsl_report_message loc level text c) = ctx_scopes c
  /\ ctx_vars (hlsl_report_message loc level text c) = ctx_vars c
  /\ ctx_functions (hlsl_report_message loc level text c) = ctx_functions c
  /\ allocs_succeed n (ctx_heap (hlsl_report_message loc level text c)) = true.
Proof.
  intros H.
  destruct (alloc_succeeds n c H) as (c1 & Ha & Hn & Hs & Hm & Hsc & Hv & Hf & _).
  unfold hlsl_report_message. rewrite Ha.
  destruct level; simpl; rewrite ?Hm, ?Hs, ?Hsc, ?Hv, ?Hf;
    repeat split; try exact Hn; try reflexivity.
Qed.

(** ** Declarations *)

Lemma is_global_scope_alloc (c c' : hlsl_parse_ctx) :
  ctx_scopes c' = ctx_scopes c -> is_global_scope c' = is_global_scope c.
Proof. unfold is_global_scope. intros ->. reflexivity. Qed.

(** C8.  A declarator whose type carries [const], whose storage (with the
    [uniform] every variable of the global scope gains) does not include
    [uniform], and that has no initializer, is answered with the error "const
    variable without initializer" (when the variable and the message can be
    allocated); the variable is not declared: the scopes, the variables and
    the statement list stay as they are. *)
Theorem const_variable_without_initializer (basic_type : hlsl_type)
    (modifiers : Z) (v : parse_variable_def) (statements : list hlsl_ir_node)
    (c : hlsl_parse_ctx) :
  allocs_succeed 2 (ctx_heap c) = true ->
  has_bits (ty_modifiers (declared_type basic_type v)) HLSL_MODIFIER_CONST = true ->
  has_bits (declared_modifiers modifiers c) HLSL_STORAGE_UNIFORM = false ->
  args_count (v_initializer v) = 0 ->
  exists c',
    declare_var basic_type modifiers v statements c = Some (statements, c')
    /\ ctx_messages c'
       = ctx_messages c
         ++ [message_line (v_loc v) HLSL_LEVEL_ERROR
               "const variable without initializer"]
    /\ ctx_status c' = PARSE_ERR
    /\ ctx_scopes c' = ctx_scopes c
    /\ ctx_vars c' = ctx_vars c.
Proof.
  intros Ha Hconst Hunif Hargs. unfold declare_var.
  destruct (alloc_succeeds 1 c Ha) as (c1 & -> & H1 & Hs & Hm & Hsc & Hv & _).
  unfold declared_type in Hconst. unfold declared_modifiers in Hunif.
  rewrite (is_global_scope_alloc c c1 Hsc). rewrite Hconst, Hunif, Hargs. simpl.
  destruct (hlsl_report_message_reports (v_loc v) HLSL_LEVEL_ERROR
              "const variable without initializer" 0 c1 H1)
    as (Rm & Rs & Rsc & Rv & _).
  eexists. split; [reflexivity|].
  rewrite Rm, Rs, Rsc, Rv, Hm, Hsc, Hv. auto.
Qed.

Lemma const_variable_without_initializer_witness :
  exists c',
    declare_var sample_const_int 0 (plain_declarator "x" (sample_loc 9 22)) []
      sample_local_ctx = Some ([], c')
    /\ ctx_messages c'
       = ctx_messages sample_local_ctx
         ++ [message_line (v_loc (plain_declarator "x" (sample_loc 9 22)))
               HLSL_LEVEL_ERROR "const variable without initializer"]
    /\ ctx_status c' = PARSE_ERR
    /\ ctx_scopes c' = ctx_scopes sample_local_ctx
    /\ ctx_vars c' = ctx_vars sample_local_ctx.
Proof.
  apply (const_variable_without_initializer sample_const_int 0
           (plain_declarator "x" (sample_loc 9 22)) [] sample_local_ctx);
    vm_compute; reflexivity.
Defined.

Lemma new_var_deref_succeeds var var_type (n : nat) c :
  allocs_succeed (S n) (ctx_heap c) = true ->
  exists c',
    new_var_deref var var_type c
    = (Some (mk_node (heap_next (ctx_heap c)) (Some var_type) no_location 0
               (HLSL_IR_DEREF (HLSL_IR_DEREF_VAR var))), c')
    /\ allocs_succeed n (ctx_heap c') = true
    /\ ctx_messages c' = ctx_messages c
    /\ ctx_status c' = ctx_status c.
Proof.
  intros H. destruct (alloc_succeeds n c H) as (c' & Ha & Hn & Hs & Hm & _).
  exists c'. unfold new_var_deref. rewrite Ha. auto.
Qed.

(** C7 (as the code has it).  For a declarator of a numeric type with an
    initializer, once the variable is declared: an initializer whose component
    count differs from that of the type, is not 1 and is smaller than that of
    the type is answered with the error "initializer does not match" and is
    not lowered.  Any other count, a larger one included, draws no message
    from [declare_vars]: a single initializer expression is lowered to the
    instructions that compute it, a dereference of the variable and an
    assignment, and several expressions are left unlowered. *)
Theorem numeric_initializer_size (basic_type : hlsl_type) (modifiers : Z)
    (v : parse_variable_def) (statements : list hlsl_ir_node)
    (c c2 : hlsl_parse_ctx) :
  let type := declared_type basic_type v in
  let size := initializer_size (v_initializer v) in
  let count := u32 (ty_dimx type * ty_dimy type) in
  let var := heap_next (ctx_heap c) in
  allocs_succeed 1 (ctx_heap c) = true ->
  class_leb (ty_type type) HLSL_CLASS_LAST_NUMERIC = true ->
  (args_count (v_initializer v) =? 0) = false ->
  declare_variable var (declared_var basic_type modifiers v c)
    (negb (is_global_scope c)) (snd (ctx_alloc c)) = (true, c2) ->
  allocs_succeed 2 (ctx_heap c2) = true ->
  (initializer_too_small count size = true ->
   exists c',
     declare_var basic_type modifiers v statements c = Some (statements, c')
     /\ ctx_messages c'
        = ctx_messages c2
          ++ [message_line (v_loc v) HLSL_LEVEL_ERROR
                ("'" +:+ v_name v +:+ "' initializer does not match")]
     /\ ctx_status c' = PARSE_ERR)
  /\ (initializer_too_small count size = false ->
      exists l c',
        declare_var basic_type modifiers v statements c = Some (l, c')
        /\ ctx_messages c' = ctx_messages c2
        /\ ctx_status c' = ctx_status c2
        /\ ((args_count (v_initializer v) >? 1) = true -> l = statements)
        /\ (forall arg0, init_args (v_initializer v) = [arg0] ->
            exists a_deref a_assign,
              l = statements ++ init_instrs (v_initializer v)
                  ++ [mk_node a_deref (Some type) no_location 0
                        (HLSL_IR_DEREF (HLSL_IR_DEREF_VAR var));
                      mk_node a_assign (Some type) (node_loc arg0) 0
                        (HLSL_IR_ASSIGNMENT (HLSL_IR_DEREF_VAR var)
                           (node_addr arg0))])).
Proof.
  intros type size count var Ha Hnum Hargs Hdecl H2.
  destruct (alloc_succeeds 0 c Ha) as (c1 & Hc1 & _ & Hs & Hm & Hsc & Hv & _).
  assert (Hsize0 : (v_array_size v =? 0) = true).
  { destruct (v_array_size v =? 0) eqn:E; [reflexivity|].
    subst type. unfold declared_type in Hnum. rewrite E in Hnum. discriminate Hnum. }
  assert (Htype : type = basic_type)
    by (subst type; unfold declared_type; rewrite Hsize0; reflexivity).
  assert (Hstruct : class_eqb (ty_type type) HLSL_CLASS_STRUCT = false
                    /\ class_eqb (ty_type type) HLSL_CLASS_ARRAY = false)
    by (destruct (ty_type type); try discriminate Hnum; split; reflexivity).
  destruct Hstruct as [Hst Har].
  assert (Hgt : (v_array_size v >? 0) = false)
    by (apply Z.eqb_eq in Hsize0; rewrite Hsize0; reflexivity).
  assert (Hunfold :
    declare_var basic_type modifiers v statements c
    = if initializer_too_small count size then
        Some (statements,
              hlsl_report_message (v_loc v) HLSL_LEVEL_ERROR
                ("'" +:+ v_name v +:+ "' initializer does not match") c2)
      else if args_count (v_initializer v) >? 1 then Some (statements, c2)
      else
        match new_var_deref var type c2 with
        | (None, _) => None
        | (Some deref, c3) =>
            match init_args (v_initializer v) with
            | [] => None
            | arg0 :: _ =>
                match make_assignment deref arg0 c3 with
                | (None, _) => None
                | (Some assignment, c4) =>
                    Some ((statements ++ init_instrs (v_initializer v))
                          ++ [deref; assignment], c4)
                end
            end
        end).
  { unfold declare_var. rewrite Hc1. fold var.
    rewrite (is_global_scope_alloc c c1 Hsc).
    change (if negb (v_array_size v =? 0)
            then new_array_type basic_type (v_array_size v) else basic_type)
      with type.
    rewrite Hargs, andb_false_r.
    change (mk_hlsl_ir_var type (v_loc v) (v_name v)
              (if is_global_scope c then Z.lor modifiers HLSL_STORAGE_UNIFORM
               else modifiers) (v_semantic v) (v_reg_reservation v) 0 0)
      with (declared_var basic_type modifiers v c).
    rewrite Hc1 in Hdecl. simpl snd in Hdecl. rewrite Hdecl.
    simpl negb. cbv iota.
    rewrite Hnum, Hst, Har, Hgt. simpl.
    unfold initializer_too_small. fold size count.
    destruct (negb (count =? size) && negb (size =? 1) && (size <? count)); reflexivity. }
  rewrite Hunfold. split; intros Hsmall; rewrite Hsmall.
  - destruct (hlsl_report_message_reports (v_loc v) HLSL_LEVEL_ERROR
                ("'" +:+ v_name v +:+ "' initializer does not match") 1 c2 H2)
      as (Rm & Rs & _).
    eexists. split; [reflexivity|]. auto.
  - destruct (args_count (v_initializer v) >? 1) eqn:Hmany.
    + exists statements, c2. repeat split; try reflexivity.
      intros arg0 Hone. unfold args_count in Hmany. rewrite Hone in Hmany.
      discriminate Hmany.
    + destruct (new_var_deref_succeeds var type 1 c2 H2) as (c3 & -> & H3 & Hm3 & Hs3).
      destruct (init_args (v_initializer v)) as [|arg0 rest] eqn:Hinit.
      { unfold args_count in Hargs. rewrite Hinit in Hargs. discriminate Hargs. }
      destruct (alloc_succeeds 0 c3 H3) as (c4 & Hc4 & _ & Hs4 & Hm4 & _).
      unfold make_assignment. simpl deref_src. cbv iota. rewrite Hc4.
      eexists _, c4. split; [reflexivity|].
      split; [congruence|]. split; [congruence|]. split; [discriminate|].
      intros arg Hone. inversion Hone; subst arg rest.
      eexists _, _. rewrite <- app_assoc. reflexivity.
Qed.

Lemma numeric_initializer_size_witness :
  let basic_type := predefined_type "float4" in
  let v := declarator_w in
  let c := sample_local_ctx in
  let type := declared_type basic_type v in
  let size := initializer_size (v_initializer v) in
  let count := u32 (ty_dimx type * ty_dimy type) in
  let var := heap_next (ctx_heap c) in
  (initializer_too_small count size = true ->
   exists c',
     declare_var basic_type 0 v [] c = Some ([], c')
     /\ ctx_messages c'
        = ctx_messages ctx_w_declared
          ++ [message_line (v_loc v) HLSL_LEVEL_ERROR
                ("'" +:+ v_name v +:+ "' initializer does not match")]
     /\ ctx_status c' = PARSE_ERR)
  /\ (initializer_too_small count size = false ->
      exists l c',
        declare_var basic_type 0 v [] c = Some (l, c')
        /\ ctx_messages c' = ctx_messages ctx_w_declared
        /\ ctx_status c' = ctx_status ctx_w_declared
        /\ ((args_count (v_initializer v) >? 1) = true -> l = [])
        /\ (forall arg0, init_args (v_initializer v) = [arg0] ->
            exists a_deref a_assign,
              l = [] ++ init_instrs (v_initializer v)
                  ++ [mk_node a_deref (Some type) no_location 0
                        (HLSL_IR_DEREF (HLSL_IR_DEREF_VAR var));
                      mk_node a_assign (Some type) (node_loc arg0) 0
                        (HLSL_IR_ASSIGNMENT (HLSL_IR_DEREF_VAR var)
                           (node_addr arg0))])).
Proof.
  apply (numeric_initializer_size (predefined_type "float4") 0 declarator_w []
           sample_local_ctx ctx_w_declared);
    vm_compute; reflexivity.
Defined.

(** C7 (as stated) fails for an initializer with more components than the
    type: [float2 v = p;] with [p] of type [float4] has a count of 4 against
    2, neither equal nor 1, and yet no error is reported and the
    initialization is lowered to an assignment. *)
Lemma larger_initializer_is_lowered :
  initializer_size (v_initializer declarator_v) = 4
  /\ components_count_type (predefined_type "float2") = 2
  /\ exists a_deref a_assign var c',
       declare_var (predefined_type "float2") 0 declarator_v [] sample_local_ctx
       = Some ([ sample_float4_value;
                 mk_node a_deref (Some (predefined_type "float2")) no_location 0
                   (HLSL_IR_DEREF (HLSL_IR_DEREF_VAR var));
                 mk_node a_assign (Some (predefined_type "float2"))
                   (node_loc sample_float4_value) 0
                   (HLSL_IR_ASSIGNMENT (HLSL_IR_DEREF_VAR var)
                      (node_addr sample_float4_value)) ], c')
       /\ ctx_messages c' = []
       /\ ctx_status c' = PARSE_SUCCESS.
Proof.
  split; [vm_compute; reflexivity|]. split; [vm_compute; reflexivity|].
  eexists _, _, _, _. split; [vm_compute; reflexivity|].
  split; reflexivity.
Qed.

(** ** Array sizes *)

Lemma u32_range (z : Z) : 0 <= u32 z <= UINT_MAX.
Proof. unfold u32, UINT_MAX. pose proof (Z.mod_pos_bound z 4294967296). lia. Qed.

Lemma evaluate_array_dimension_range (node : hlsl_ir_node) :
  0 <= evaluate_array_dimension node <= UINT_MAX.
Proof.
  unfold evaluate_array_dimension, float_to_uint.
  destruct (node_data_type node) as [t|]; [|unfold UINT_MAX; lia].
  destruct (negb (class_eqb (ty_type t) HLSL_CLASS_SCALAR)); [unfold UINT_MAX; lia|].
  destruct (node_payload node); try (unfold UINT_MAX; lia).
  destruct (ty_base_type t); try apply u32_range; unfold UINT_MAX; lia.
Qed.

Lemma float_to_uint_floor (q : Q) (k : Z) :
  0 <= k < 4294967296 ->
  (inject_Z k <= q)%Q -> (q < inject_Z (k + 1))%Q ->
  float_to_uint q = k.
Proof.
  intros Hk Hle Hlt. unfold float_to_uint.
  unfold Qle in Hle. unfold Qlt in Hlt. simpl in Hle, Hlt.
  assert (Hd : 0 < Z.pos (Qden q)) by lia.
  rewrite Z.quot_div_nonneg by nia.
  assert (Hq : Qnum q / Z.pos (Qden q) = k).
  { symmetry. apply (Z.div_unique (Qnum q) (Z.pos (Qden q)) k
                       (Qnum q - Z.pos (Qden q) * k)); [left; nia|lia]. }
  rewrite Hq. apply u32_small. unfold UINT_MAX. lia.
Qed.

(** C9.  The size of an array declarator is read off the last node of the
    bracketed expression by [evaluate_array_dimension], as an
    [unsigned int].  Of a scalar constant it is the value, converted: the
    value of an [int], [uint] or [bool] constant modulo [2 ^ 32], the value of
    a [float] or [double] constant (one that is not negative and below
    [2 ^ 32]) without its fraction; of a constant of another base type, of a
    node that is not scalar and of a node that is not a constant (no
    expression is folded) it is 0.  A size of 0 is answered
    with the error "array size is not a positive integer constant", a size
    above 65536 with the error "array size must be between 1 and 65536", and
    either way the parse is aborted; any other size is the value of the
    rule, without a message. *)
Theorem array_size_checked (node : hlsl_ir_node) (loc : source_location)
    (c : hlsl_parse_ctx) :
  allocs_succeed 1 (ctx_heap c) = true ->
  let size := evaluate_array_dimension node in
  (forall t v,
      node_data_type node = Some t -> ty_type t = HLSL_CLASS_SCALAR ->
      node_payload node = HLSL_IR_CONSTANT v ->
      match ty_base_type t with
      | HLSL_TYPE_UINT => size = value_u v mod 2 ^ 32
      | HLSL_TYPE_INT => size = value_i v mod 2 ^ 32
      | HLSL_TYPE_BOOL => size = value_b v mod 2 ^ 32
      | HLSL_TYPE_FLOAT =>
          forall k, 0 <= k < 2 ^ 32 ->
            (inject_Z k <= value_f v)%Q -> (value_f v < inject_Z (k + 1))%Q ->
            size = k
      | HLSL_TYPE_DOUBLE =>
          forall k, 0 <= k < 2 ^ 32 ->
            (inject_Z k <= value_d v)%Q -> (value_d v < inject_Z (k + 1))%Q ->
            size = k
      | _ => size = 0
      end)
  /\ 0 <= size <= UINT_MAX
  /\ ((forall t, node_data_type node = Some t -> ty_type t <> HLSL_CLASS_SCALAR) ->
      size = 0)
  /\ ((forall v, node_payload node <> HLSL_IR_CONSTANT v) -> size = 0)
  /\ (size = 0 ->
      fst (array (Some node) loc c) = None
      /\ ctx_messages (snd (array (Some node) loc c))
         = ctx_messages c
           ++ [message_line loc HLSL_LEVEL_ERROR
                 ("array size is not a positive integer constant" +:+ newline)]
      /\ ctx_status (snd (array (Some node) loc c)) = PARSE_ERR)
  /\ (65536 < size ->
      fst (array (Some node) loc c) = None
      /\ ctx_messages (snd (array (Some node) loc c))
         = ctx_messages c
           ++ [message_line loc HLSL_LEVEL_ERROR
                 "array size must be between 1 and 65536"]
      /\ ctx_status (snd (array (Some node) loc c)) = PARSE_ERR)
  /\ (1 <= size <= 65536 -> array (Some node) loc c = (Some size, c)).
Proof.
  intros Ha size. split; [|split; [apply evaluate_array_dimension_range|]].
  { intros t v Ht Hc Hp. subst size. unfold evaluate_array_dimension.
    rewrite Ht, Hc, Hp. simpl.
    destruct (ty_base_type t); try reflexivity;
      intros k Hk Hle Hlt; apply float_to_uint_floor; assumption. }
  split; [|split; [|split; [|split]]].
  - intros Hns. subst size. unfold evaluate_array_dimension.
    destruct (node_data_type node) as [t|]; [|reflexivity].
    specialize (Hns t eq_refl).
    destruct (ty_type t); try reflexivity. contradiction.
  - intros Hnc. subst size. unfold evaluate_array_dimension.
    destruct (node_data_type node) as [t|]; [|reflexivity].
    destruct (negb (class_eqb (ty_type t) HLSL_CLASS_SCALAR)); [reflexivity|].
    destruct (node_payload node); try reflexivity.
    exfalso. exact (Hnc v eq_refl).
  - intros H0. unfold array. fold size. rewrite H0. simpl.
    destruct (hlsl_report_message_reports loc HLSL_LEVEL_ERROR
                ("array size is not a positive integer constant" +:+ newline) 0 c Ha)
      as (Rm & Rs & _). auto.
  - intros Hbig. unfold array. fold size.
    destruct (Z.eqb_spec size 0) as [E|_]; [lia|].
    destruct (Z.gtb_spec size 65536) as [_|E]; [|lia]. simpl.
    destruct (hlsl_report_message_reports loc HLSL_LEVEL_ERROR
                "array size must be between 1 and 65536" 0 c Ha)
      as (Rm & Rs & _). auto.
  - intros Hok. unfold array. fold size.
    destruct (Z.eqb_spec size 0) as [E|_]; [lia|].
    destruct (Z.gtb_spec size 65536) as [E|_]; [lia|]. reflexivity.
Qed.

Lemma array_size_checked_witness :
  let size := evaluate_array_dimension sample_float_size in
  (forall t v,
      node_data_type sample_float_size = Some t -> ty_type t = HLSL_CLASS_SCALAR ->
      node_payload sample_float_size = HLSL_IR_CONSTANT v ->
      match ty_base_type t with
      | HLSL_TYPE_UINT => size = value_u v mod 2 ^ 32
      | HLSL_TYPE_INT => size = value_i v mod 2 ^ 32
      | HLSL_TYPE_BOOL => size = value_b v mod 2 ^ 32
      | HLSL_TYPE_FLOAT =>
          forall k, 0 <= k < 2 ^ 32 ->
            (inject_Z k <= value_f v)%Q -> (value_f v < inject_Z (k + 1))%Q ->
            size = k
      | HLSL_TYPE_DOUBLE =>
          forall k, 0 <= k < 2 ^ 32 ->
            (inject_Z k <= value_d v)%Q -> (value_d v < inject_Z (k + 1))%Q ->
            size = k
      | _ => size = 0
      end)
  /\ 0 <= size <= UINT_MAX
  /\ ((forall t, node_data_type sample_float_size = Some t ->
                 ty_type t <> HLSL_CLASS_SCALAR) ->
      size = 0)
  /\ ((forall v, node_payload sample_float_size <> HLSL_IR_CONSTANT v) -> size = 0)
  /\ (size = 0 ->
      fst (array (Some sample_float_size) (sample_loc 10 9) sample_ctx) = None
      /\ ctx_messages (snd (array (Some sample_float_size) (sample_loc 10 9)
                              sample_ctx))
         = ctx_messages sample_ctx
           ++ [message_line (sample_loc 10 9) HLSL_LEVEL_ERROR
                 ("array size is not a positive integer constant" +:+ newline)]
      /\ ctx_status (snd (array (Some sample_float_size) (sample_loc 10 9)
                            sample_ctx)) = PARSE_ERR)
  /\ (65536 < size ->
      fst (array (Some sample_float_size) (sample_loc 10 9) sample_ctx) = None
      /\ ctx_messages (snd (array (Some sample_float_size) (sample_loc 10 9)
                              sample_ctx))
         = ctx_messages sample_ctx
           ++ [message_line (sample_loc 10 9) HLSL_LEVEL_ERROR
                 "array size must be between 1 and 65536"]
      /\ ctx_status (snd (array (Some sample_float_size) (sample_loc 10 9)
                            sample_ctx)) = PARSE_ERR)
  /\ (1 <= size <= 65536 ->
      array (Some sample_float_size) (sample_loc 10 9) sample_ctx
      = (Some size, sample_ctx)).
Proof.
  apply (array_size_checked sample_float_size (sample_loc 10 9) sample_ctx).
  vm_compute. reflexivity.
Defined.

(** C9 (as stated) fails twice.  The size [1.5] is no positive integer
    constant, and yet [float a[1.5]] is accepted, as an array of one element
    and without a message.  And the size [2 + 2] is not folded: the node is
    an expression, its size is 0, and the declarator is refused. *)
Lemma float_constant_array_size_accepted :
  array (Some sample_float_size) (sample_loc 10 9) sample_ctx = (Some 1, sample_ctx)
  /\ ctx_messages sample_ctx = []
  /\ ctx_status sample_ctx = PARSE_SUCCESS
  /\ evaluate_array_dimension sample_sum_size = 0
  /\ fst (array (Some sample_sum_size) (sample_loc 10 9) sample_ctx) = None
  /\ ctx_status (snd (array (Some sample_sum_size) (sample_loc 10 9) sample_ctx))
     = PARSE_ERR.
Proof.
  split; [vm_compute; reflexivity|]. split; [vm_compute; reflexivity|].
  split; [vm_compute; reflexivity|]. split; [vm_compute; reflexivity|].
  split; vm_compute; reflexivity.
Qed.

(** ** The entry point *)

(** [parse_hlsl] has no way to return a shader. *)
Lemma parse_hlsl_no_shader hlsl_parse type major minor entrypoint messages h
    shader out :
  parse_hlsl hlsl_parse type major minor entrypoint messages h
  <> completes (Some shader, out).
Proof.
  unfold parse_hlsl.
  destruct (ctx_status (hlsl_parse (initial_ctx h))); try discriminate;
    destruct (get_func_entry entrypoint (hlsl_parse (initial_ctx h))) as [f|];
    try discriminate;
    destruct (index_and_liveness (hlsl_parse (initial_ctx h)) f); discriminate.
Qed.

(** It returns the null pointer unless the entry point was found and has no
    body. *)
Lemma parse_hlsl_returns_null hlsl_parse type major minor entrypoint messages h :
  (forall f, get_func_entry entrypoint (hlsl_parse (initial_ctx h)) = Some f ->
             ctx_status (hlsl_parse (initial_ctx h)) <> PARSE_ERR ->
             is_Some (func_body f)) ->
  exists out,
    parse_hlsl hlsl_parse type major minor entrypoint messages h
    = completes (None, out).
Proof.
  intros Hbody. unfold parse_hlsl.
  destruct (ctx_status (hlsl_parse (initial_ctx h))) eqn:Hs;
    try (eexists; reflexivity);
    destruct (get_func_entry entrypoint (hlsl_parse (initial_ctx h))) as [f|];
    try (eexists; reflexivity);
    (destruct (Hbody f eq_refl ltac:(discriminate)) as [body Hb];
     unfold index_and_liveness; rewrite Hb; eexists; reflexivity).
Qed.

(** C10.  For the program [float4 main();] compiled with the entry point
    [main], the parse succeeds and the entry point is found, with a null
    body; [index_instructions] is handed that null list and walks it, so
    [parse_hlsl] does not come to its [return NULL]. *)
Theorem parse_hlsl_prototype_entry_stops :
  ctx_status (parse_prototype_of_main (initial_ctx sample_heap)) = PARSE_SUCCESS
  /\ (exists f, get_func_entry "main" (parse_prototype_of_main (initial_ctx sample_heap))
                = Some f /\ func_body f = None)
  /\ parse_hlsl parse_prototype_of_main ST_PIXEL 2 0 "main" true sample_heap = stops
  /\ (exists out,
        parse_hlsl parse_definition_of_main ST_PIXEL 2 0 "main" true sample_heap
        = completes (None, out)).
Proof.
  split; [vm_compute; reflexivity|].
  split; [eexists; split; vm_compute; reflexivity|].
  split; [vm_compute; reflexivity|].
  eexists. vm_compute. reflexivity.
Qed.

(** * Part III: further properties of the code *)

(** ** Modifiers *)

Lemma report_never_fails loc level text c :
  never_fails c ->
  never_fails (hlsl_report_message loc level text c)
  /\ ctx_messages (hlsl_report_message loc level text c)
     = ctx_messages c ++ [message_line loc level text]
  /\ ctx_status (hlsl_report_message loc level text c)
     = match level with
       | HLSL_LEVEL_ERROR => PARSE_ERR
       | HLSL_LEVEL_WARNING => set_parse_status (ctx_status c) PARSE_WARN
       | HLSL_LEVEL_NOTE => ctx_status c
       end.
Proof.
  unfold never_fails, hlsl_report_message, ctx_alloc, d3dcompiler_alloc.
  destruct c as [s m mm sc f vs cf [nx fails]]. simpl. intros ->.
  destruct level; simpl; repeat split.
Qed.

Lemma add_modifiers_keeps (modifiers md : Z) loc c :
  never_fails c ->
  never_fails (snd (add_modifiers modifiers md loc c))
  /\ (ctx_status c = PARSE_ERR ->
      ctx_status (snd (add_modifiers modifiers md loc c)) = PARSE_ERR)
  /\ (forall b, has_bits modifiers b = true ->
                has_bits (fst (add_modifiers modifiers md loc c)) b = true).
Proof.
  intros Hn. unfold add_modifiers.
  destruct (has_bits modifiers md);
    [|destruct (has_bits md HLSL_MODIFIERS_MAJORITY_MASK
                && has_bits modifiers HLSL_MODIFIERS_MAJORITY_MASK)]; simpl.
  - destruct (report_never_fails loc HLSL_LEVEL_ERROR
                ("modifier '" +:+ debug_modifiers md +:+ "' already specified") c Hn)
      as (N & _ & S). auto.
  - destruct (report_never_fails loc HLSL_LEVEL_ERROR
                "more than one matrix majority keyword" c Hn) as (N & _ & S). auto.
  - repeat split; auto. intros b Hb. rewrite has_bits_lor, Hb. reflexivity.
Qed.

Lemma var_modifiers_keeps kws c :
  never_fails c -> never_fails (snd (var_modifiers kws c)).
Proof.
  intros Hn. induction kws as [|[k loc] rest IH]; simpl; [exact Hn|].
  destruct (var_modifiers rest c) as [m c1]. simpl in IH.
  apply add_modifiers_keeps, IH.
Qed.

(** A keyword that was written is among the modifiers, unless an error was
    reported. *)
Lemma var_modifiers_holds_keyword kws c k :
  never_fails c -> k ∈ keywords kws ->
  has_bits (fst (var_modifiers kws c)) (keyword_modifier k) = true
  \/ ctx_status (snd (var_modifiers kws c)) = PARSE_ERR.
Proof.
  intros Hn. induction kws as [|[k' loc] rest IH]; intros Hin; [inversion Hin|].
  simpl. pose proof (var_modifiers_keeps rest c Hn) as Hn1.
  destruct (var_modifiers rest c) as [m c1]. simpl in IH, Hn1.
  destruct (add_modifiers_keeps m (keyword_modifier k') loc c1 Hn1) as (_ & Hs & Hb).
  simpl in Hin. apply elem_of_cons in Hin as [->|Hin].
  - clear IH. unfold add_modifiers.
    destruct (has_bits m (keyword_modifier k')) eqn:E1; simpl.
    + right. apply (report_never_fails _ HLSL_LEVEL_ERROR _ c1 Hn1).
    + destruct (has_bits (keyword_modifier k') HLSL_MODIFIERS_MAJORITY_MASK
                && has_bits m HLSL_MODIFIERS_MAJORITY_MASK); simpl.
      * right. apply (report_never_fails _ HLSL_LEVEL_ERROR _ c1 Hn1).
      * left. rewrite has_bits_lor. destruct k'; apply orb_true_r.
  - destruct (IH Hin) as [H|H]; [left; apply Hb, H|right; apply Hs, H].
Qed.

(** X1.  Whatever keywords are written, the modifiers the rule
    [var_modifiers] builds never hold both majority bits; and when both
    [row_major] and [column_major] are written (and the messages can be
    allocated) the parse status is an error afterwards. *)
Theorem var_modifiers_majorities (kws : list (modifier_keyword * source_location))
    (c : hlsl_parse_ctx) :
  never_fails c ->
  majority_consistent (fst (var_modifiers kws c)) = true
  /\ (KW_ROW_MAJOR ∈ keywords kws -> KW_COLUMN_MAJOR ∈ keywords kws ->
      ctx_status (snd (var_modifiers kws c)) = PARSE_ERR).
Proof.
  intros Hn. split; [apply var_modifiers_consistent|].
  induction kws as [|[k loc] rest IH]; intros Hr Hc; [inversion Hr|].
  simpl. pose proof (var_modifiers_keeps rest c Hn) as Hn1.
  pose proof (var_modifiers_holds_keyword rest c KW_ROW_MAJOR Hn) as Lr.
  pose proof (var_modifiers_holds_keyword rest c KW_COLUMN_MAJOR Hn) as Lc.
  destruct (var_modifiers rest c) as [m c1]. simpl in IH, Hn1, Lr, Lc.
  destruct (add_modifiers_keeps m (keyword_modifier k) loc c1 Hn1) as (_ & Hs & _).
  assert (Hclash : forall other,
             has_bits (keyword_modifier k) HLSL_MODIFIERS_MAJORITY_MASK = true ->
             (has_bits m other = true \/ ctx_status c1 = PARSE_ERR) ->
             has_bits other HLSL_MODIFIERS_MAJORITY_MASK = true ->
             (forall x, has_bits x other = true ->
                        has_bits x HLSL_MODIFIERS_MAJORITY_MASK = true) ->
             ctx_status (snd (add_modifiers m (keyword_modifier k) loc c1)) = PARSE_ERR).
  { intros other Hk [Hm|He] Ho Hsub; [|apply Hs, He].
    unfold add_modifiers. destruct (has_bits m (keyword_modifier k)); simpl.
    - apply (report_never_fails _ HLSL_LEVEL_ERROR _ c1 Hn1).
    - rewrite Hk, (Hsub m Hm). simpl.
      apply (report_never_fails _ HLSL_LEVEL_ERROR _ c1 Hn1). }
  assert (Hsub_r : forall x, has_bits x HLSL_MODIFIER_ROW_MAJOR = true ->
                             has_bits x HLSL_MODIFIERS_MAJORITY_MASK = true)
    by (intros x Hx; rewrite has_bits_majority, Hx; reflexivity).
  assert (Hsub_c : forall x, has_bits x HLSL_MODIFIER_COLUMN_MAJOR = true ->
                             has_bits x HLSL_MODIFIERS_MAJORITY_MASK = true)
    by (intros x Hx; rewrite has_bits_majority, Hx; apply orb_true_r).
  simpl in Hr, Hc. apply elem_of_cons in Hr as [Hr|Hr];
    apply elem_of_cons in Hc as [Hc|Hc].
  - congruence.
  - subst k. apply (Hclash HLSL_MODIFIER_COLUMN_MAJOR); auto.
  - subst k. apply (Hclash HLSL_MODIFIER_ROW_MAJOR); auto.
  - apply Hs, IH; assumption.
Qed.

Lemma var_modifiers_majorities_witness :
  majority_consistent
    (fst (var_modifiers [(KW_ROW_MAJOR, sample_loc 2 1); (KW_COLUMN_MAJOR, sample_loc 2 11)]
            sample_ctx)) = true
  /\ (KW_ROW_MAJOR
        ∈ keywords [(KW_ROW_MAJOR, sample_loc 2 1); (KW_COLUMN_MAJOR, sample_loc 2 11)] ->
      KW_COLUMN_MAJOR
        ∈ keywords [(KW_ROW_MAJOR, sample_loc 2 1); (KW_COLUMN_MAJOR, sample_loc 2 11)] ->
      ctx_status
        (snd (var_modifiers
                [(KW_ROW_MAJOR, sample_loc 2 1); (KW_COLUMN_MAJOR, sample_loc 2 11)]
                sample_ctx)) = PARSE_ERR).
Proof.
  apply (var_modifiers_majorities
           [(KW_ROW_MAJOR, sample_loc 2 1); (KW_COLUMN_MAJOR, sample_loc 2 11)]
           sample_ctx).
  vm_compute. reflexivity.
Defined.

Lemma clear_bits_type_mask (m : Z) :
  0 <= m <= UINT_MAX ->
  has_bits (clear_bits m HLSL_TYPE_MODIFIERS_MASK) HLSL_TYPE_MODIFIERS_MASK = false
  /\ Z.lor (clear_bits m HLSL_TYPE_MODIFIERS_MASK) (Z.land m HLSL_TYPE_MODIFIERS_MASK)
     = m.
Proof.
  intros Hm. unfold clear_bits, has_bits. split.
  - rewrite <- Z.land_assoc.
    change (Z.land (Z.lxor UINT_MAX HLSL_TYPE_MODIFIERS_MASK) HLSL_TYPE_MODIFIERS_MASK)
      with 0.
    rewrite Z.land_0_r. reflexivity.
  - rewrite <- Z.land_lor_distr_r.
    change (Z.lor (Z.lxor UINT_MAX HLSL_TYPE_MODIFIERS_MASK) HLSL_TYPE_MODIFIERS_MASK)
      with (Z.ones 32).
    rewrite Z.land_ones by lia. apply Z.mod_small. unfold UINT_MAX in Hm. lia.
Qed.

(** X2.  Of the modifiers of a declaration, [apply_type_modifiers] leaves for
    the variable exactly those that are no type modifiers: what it hands back
    holds none of [const], [precise], [volatile], [row_major],
    [column_major], and together with the type modifiers of the declaration
    it makes up the modifiers that were written. *)
Theorem apply_type_modifiers_leaves_storage (type : hlsl_type) (modifiers : Z)
    (loc : source_location) (c : hlsl_parse_ctx) (t : hlsl_type) (m : Z)
    (c' : hlsl_parse_ctx) :
  0 <= modifiers <= UINT_MAX ->
  apply_type_modifiers type modifiers loc c = (Some t, m, c') ->
  has_bits m HLSL_TYPE_MODIFIERS_MASK = false
  /\ Z.lor m (Z.land modifiers HLSL_TYPE_MODIFIERS_MASK) = modifiers.
Proof.
  intros Hm. unfold apply_type_modifiers.
  match goal with
  | |- context [if (?d =? 0) && ?nn then _ else _] => destruct ((d =? 0) && nn) eqn:E
  end.
  - intros H. inversion H; subst. apply andb_true_iff in E as [_ E].
    apply negb_true_iff in E. split; [exact E|].
    unfold has_bits in E. apply negb_false_iff, Z.eqb_eq in E.
    rewrite E, Z.lor_0_r. reflexivity.
  - match goal with
    | |- context [clone_hlsl_type ?a ?b ?cc] => destruct (clone_hlsl_type a b cc) as [[nt|] c1]
    end; [|discriminate].
    destruct (add_modifiers (ty_modifiers nt) modifiers loc c1) as [m1 c2].
    intros H. inversion H; subst. apply clear_bits_type_mask, Hm.
Qed.

Lemma apply_type_modifiers_leaves_storage_witness :
  has_bits
    (snd (fst (apply_type_modifiers (predefined_type "float")
                 (Z.lor HLSL_MODIFIER_CONST HLSL_STORAGE_STATIC) (sample_loc 2 1)
                 sample_ctx)))
    HLSL_TYPE_MODIFIERS_MASK = false
  /\ Z.lor
       (snd (fst (apply_type_modifiers (predefined_type "float")
                    (Z.lor HLSL_MODIFIER_CONST HLSL_STORAGE_STATIC) (sample_loc 2 1)
                    sample_ctx)))
       (Z.land (Z.lor HLSL_MODIFIER_CONST HLSL_STORAGE_STATIC) HLSL_TYPE_MODIFIERS_MASK)
     = Z.lor HLSL_MODIFIER_CONST HLSL_STORAGE_STATIC.
Proof.
  apply (apply_type_modifiers_leaves_storage (predefined_type "float")
           (Z.lor HLSL_MODIFIER_CONST HLSL_STORAGE_STATIC) (sample_loc 2 1) sample_ctx
           (set_ty_modifiers (predefined_type "float")
              (Z.lor HLSL_MODIFIER_CONST HLSL_STORAGE_STATIC))
           _ (snd (ctx_alloc sample_ctx)));
    vm_compute; try reflexivity; split; discriminate.
Defined.

(** ** Swizzles, continued *)

Lemma vector_swizzle_scan_end_inv (set dimx : Z) (f : ascii -> option Z)
    (chars : list ascii) (swiz component swiz' component' : Z) :
  (forall ch, find_component (swizzle_set set) ch 0 = default 4 (f ch)) ->
  (f = xyzw_index \/ f = rgba_index) ->
  vector_swizzle_scan set dimx chars swiz component = scan_end swiz' component' ->
  forallb (fun ch => component_below dimx (f ch)) chars = true
  /\ component' = component + Z.of_nat (length chars).
Proof.
  intros Hfind Hf. revert swiz component.
  induction chars as [|ch rest IH]; intros swiz component H.
  - simpl in H. inversion H. split; [reflexivity|simpl; lia].
  - rewrite vector_swizzle_scan_cons, Hfind in H.
    destruct (f ch) as [i|] eqn:Ei; simpl in H; [|discriminate].
    pose proof (index_below_4 f ch i Hf Ei) as Hi.
    destruct (Z.eqb_spec i 4) as [->|_]; [lia|].
    destruct (Z.geb_spec i dimx) as [Hge|Hlt]; [discriminate|].
    destruct (IH _ _ H) as [Hall ->]. split.
    + simpl. rewrite Ei, Hall. simpl. rewrite andb_true_r. apply Z.ltb_lt. lia.
    + simpl length. lia.
Qed.

Lemma new_swizzle_result s components val vt loc c node c' :
  new_swizzle s components val vt loc c = (Some node, c') ->
  node_data_type node
  = Some (new_hlsl_type None HLSL_CLASS_VECTOR (ty_base_type vt) components 1)
  /\ swizzle_mask node = s.
Proof.
  unfold new_swizzle. destruct (ctx_alloc c) as [[a|] c1]; [|discriminate].
  intros H. inversion H. subst. split; reflexivity.
Qed.

Lemma string_length_chars (s : string) :
  String.length s = length (list_ascii_of_string s).
Proof. induction s; simpl; congruence. Qed.

(** X3.  [get_swizzle] yields a node for an operand that is no matrix only
    for a swizzle of at most four characters that all come from [xyzw] or all
    from [rgba] and each name a component the operand has; the node is a
    vector of as many components as the swizzle has characters.  (The empty
    swizzle passes: it has no character that could be wrong.) *)
Theorem get_swizzle_vector_sound (value : hlsl_ir_node) (vt : hlsl_type)
    (swizzle : string) (loc : source_location) (c : hlsl_parse_ctx)
    (node : hlsl_ir_node) (c' : hlsl_parse_ctx) :
  node_data_type value = Some vt ->
  class_eqb (ty_type vt) HLSL_CLASS_MATRIX = false ->
  get_swizzle value swizzle loc c = (Some node, c') ->
  (swizzle = EmptyString \/ valid_vector_swizzle (ty_dimx vt) swizzle = true)
  /\ node_data_type node
     = Some (new_hlsl_type None HLSL_CLASS_VECTOR (ty_base_type vt)
               (Z.of_nat (String.length swizzle)) 1).
Proof.
  intros Hvt Hcl. unfold get_swizzle. rewrite Hvt, Hcl.
  rewrite string_length_chars. unfold valid_vector_swizzle.
  assert (Hempty : list_ascii_of_string swizzle = [] -> swizzle = EmptyString)
    by (destruct swizzle; [reflexivity|discriminate]).
  set (chars := list_ascii_of_string swizzle) in *.
  destruct (Z.gtb_spec (Z.of_nat (length chars)) 4) as [|Hle]; [discriminate|].
  assert (Hvalid : forall f,
            forallb (fun ch => component_below (ty_dimx vt) (f ch)) chars = true ->
            (f = xyzw_index \/ f = rgba_index) ->
            swizzle = EmptyString
            \/ (1 <=? Z.of_nat (length chars)) && (Z.of_nat (length chars) <=? 4)
               && (forallb (fun ch => component_below (ty_dimx vt) (xyzw_index ch)) chars
                   || forallb (fun ch => component_below (ty_dimx vt) (rgba_index ch)) chars)
               = true).
  { intros f Hall Hf. destruct chars as [|ch rest] eqn:Echars; [left; auto|right].
    apply andb_true_iff. split.
    - apply andb_true_iff. split; [apply Z.leb_le; simpl length; lia|apply Z.leb_le; lia].
    - destruct Hf as [-> | ->]; rewrite Hall; [reflexivity|apply orb_true_r]. }
  destruct (vector_swizzle_scan 0 (ty_dimx vt) chars 0 0) as [swiz| |swiz comp] eqn:E0.
  - destruct (vector_swizzle_scan 1 (ty_dimx vt) chars swiz 0) as [|  |swiz1 comp] eqn:E1;
      try discriminate.
    intros H. apply new_swizzle_result in H as [Ht _].
    destruct (vector_swizzle_scan_end_inv 1 _ rgba_index _ _ _ _ _
                find_component_rgba (or_intror eq_refl) E1) as [Hall ->].
    split; [exact (Hvalid rgba_index Hall (or_intror eq_refl))|exact Ht].
  - discriminate.
  - intros H. apply new_swizzle_result in H as [Ht _].
    destruct (vector_swizzle_scan_end_inv 0 _ xyzw_index _ _ _ _ _
                find_component_xyzw (or_introl eq_refl) E0) as [Hall ->].
    split; [exact (Hvalid xyzw_index Hall (or_introl eq_refl))|exact Ht].
Qed.

Lemma get_swizzle_vector_sound_witness :
  (("rgb" : string) = EmptyString
   \/ valid_vector_swizzle (ty_dimx (predefined_type "float4")) "rgb" = true)
  /\ node_data_type
       (default sample_float4_value
          (fst (get_swizzle sample_float4_value "rgb" (sample_loc 3 13) sample_ctx)))
     = Some (new_hlsl_type None HLSL_CLASS_VECTOR
               (ty_base_type (predefined_type "float4"))
               (Z.of_nat (String.length "rgb")) 1).
Proof.
  apply (get_swizzle_vector_sound sample_float4_value (predefined_type "float4")
           "rgb" (sample_loc 3 13) sample_ctx _
           (snd (get_swizzle sample_float4_value "rgb" (sample_loc 3 13) sample_ctx)));
    vm_compute; reflexivity.
Defined.

(** *** The mask of a vector swizzle *)

Lemma testbit_small (a k n : Z) :
  0 <= a < 2 ^ k -> 0 <= k <= n -> Z.testbit a n = false.
Proof.
  intros Ha Hk. rewrite <- (Z.mod_small a (2 ^ k)) by lia.
  apply Z.mod_pow2_bits_high. lia.
Qed.

Lemma testbit_3 (n : Z) : Z.testbit 3 n = (0 <=? n) && (n <? 2).
Proof.
  destruct (Z.ltb_spec n 0) as [Hneg|Hpos].
  - rewrite Z.testbit_neg_r by lia. destruct (Z.leb_spec 0 n); [lia|reflexivity].
  - destruct (Z.eq_dec n 0) as [->|]; [reflexivity|].
    destruct (Z.eq_dec n 1) as [->|]; [reflexivity|].
    rewrite (testbit_small 3 2 n) by lia.
    destruct (Z.ltb_spec n 2); [lia|]. apply eq_sym, andb_false_r.
Qed.

Lemma mask_component_bit (swiz i n : Z) :
  0 <= i -> 0 <= n ->
  Z.testbit (mask_component swiz i) n = Z.testbit swiz (n + 2 * i) && (n <? 2).
Proof.
  intros Hi Hn. unfold mask_component.
  rewrite Z.land_spec, Z.shiftr_spec, testbit_3 by lia.
  destruct (Z.leb_spec 0 n); [reflexivity|lia].
Qed.

(** What the statement [swiz |= s << component * 2] does to the mask. *)
Lemma mask_component_step (swiz s component : Z) :
  0 <= swiz -> (forall n, 2 * component <= n -> Z.testbit swiz n = false) ->
  0 <= s < 4 -> 0 <= component < 16 ->
  let swiz' := Z.lor swiz (u32 (Z.shiftl s (component * 2))) in
  0 <= swiz'
  /\ (forall n, 2 * (component + 1) <= n -> Z.testbit swiz' n = false)
  /\ (forall j, 0 <= j < component -> mask_component swiz' j = mask_component swiz j)
  /\ mask_component swiz' component = s.
Proof.
  intros Hswiz Hhigh Hs Hc swiz'.
  assert (Hu : u32 (Z.shiftl s (component * 2)) = Z.shiftl s (component * 2)).
  { apply u32_small. rewrite Z.shiftl_mul_pow2 by lia. unfold UINT_MAX.
    assert (2 ^ (component * 2) <= 2 ^ 30) by (apply Z.pow_le_mono_r; lia).
    change (2 ^ 30) with 1073741824 in *. nia. }
  subst swiz'. rewrite Hu.
  assert (Hbit : forall n, 0 <= n ->
            Z.testbit (Z.lor swiz (Z.shiftl s (component * 2))) n
            = Z.testbit swiz n || Z.testbit s (n - component * 2)).
  { intros n Hn. rewrite Z.lor_spec, Z.shiftl_spec by lia. reflexivity. }
  split; [|split; [|split]].
  - apply Z.lor_nonneg. split; [lia|]. apply Z.shiftl_nonneg. lia.
  - intros n Hn. rewrite Hbit, Hhigh by lia.
    rewrite (testbit_small s 2) by lia. reflexivity.
  - intros j Hj. apply Z.bits_inj'. intros n Hn.
    rewrite !mask_component_bit, Hbit by lia.
    destruct (Z.ltb_spec n 2); [|rewrite !andb_false_r; reflexivity].
    rewrite (Z.testbit_neg_r s) by lia. rewrite orb_false_r. reflexivity.
  - apply Z.bits_inj'. intros n Hn.
    rewrite mask_component_bit, Hbit by lia.
    rewrite Hhigh by lia. simpl orb.
    replace (n + 2 * component - component * 2) with n by lia.
    destruct (Z.ltb_spec n 2); [apply andb_true_r|].
    rewrite andb_false_r. apply eq_sym, (testbit_small s 2); lia.
Qed.

Lemma vector_swizzle_scan_mask (set dimx : Z) (f : ascii -> option Z)
    (chars : list ascii) (swiz component swiz' component' : Z) :
  (forall ch, find_component (swizzle_set set) ch 0 = default 4 (f ch)) ->
  (f = xyzw_index \/ f = rgba_index) ->
  0 <= component -> component + Z.of_nat (length chars) <= 16 ->
  0 <= swiz -> (forall n, 2 * component <= n -> Z.testbit swiz n = false) ->
  vector_swizzle_scan set dimx chars swiz component = scan_end swiz' component' ->
  0 <= swiz'
  /\ (forall n, 2 * component' <= n -> Z.testbit swiz' n = false)
  /\ (forall j, 0 <= j < component -> mask_component swiz' j = mask_component swiz j)
  /\ (forall i ch, chars !! i = Some ch ->
        f ch = Some (mask_component swiz' (component + Z.of_nat i))).
Proof.
  intros Hfind Hf. revert swiz component.
  induction chars as [|ch rest IH]; intros swiz component Hc Hlen Hswiz Hhigh H.
  - simpl in H. inversion H. subst. split; [|split; [|split]]; auto.
    intros i ch Hi. discriminate Hi.
  - rewrite vector_swizzle_scan_cons, Hfind in H.
    destruct (f ch) as [s|] eqn:Es; simpl in H; [|discriminate].
    pose proof (index_below_4 f ch s Hf Es) as Hs.
    destruct (Z.eqb_spec s 4) as [->|_]; [lia|].
    destruct (Z.geb_spec s dimx) as [Hge|Hlt]; [discriminate|].
    simpl length in Hlen.
    destruct (mask_component_step swiz s component Hswiz Hhigh Hs ltac:(lia))
      as (Hswiz1 & Hhigh1 & Hlow1 & Hat1).
    destruct (IH (Z.lor swiz (u32 (Z.shiftl s (component * 2)))) (component + 1)
                ltac:(lia) ltac:(lia) Hswiz1 Hhigh1 H)
      as (Hswiz' & Hhigh' & Hlow' & Hchars).
    split; [exact Hswiz'|split; [exact Hhigh'|split]].
    + intros j Hj. rewrite Hlow' by lia. apply Hlow1. lia.
    + intros [|i] ch' Hi.
      * simpl in Hi. inversion Hi. subst ch'.
        rewrite Es. f_equal. rewrite Z.add_0_r, Hlow' by lia. auto.
      * simpl in Hi. rewrite (Hchars i ch' Hi). do 2 f_equal. lia.
Qed.

Lemma vector_swizzle_scan_break_first (dimx : Z) (chars : list ascii)
    (swiz swiz1 : Z) (ch : ascii) (rest : list ascii) :
  chars = ch :: rest -> xyzw_index ch = None ->
  vector_swizzle_scan 0 dimx chars swiz 0 = scan_break swiz1 -> swiz1 = swiz.
Proof.
  intros -> Hch. rewrite vector_swizzle_scan_cons, find_component_xyzw, Hch.
  simpl. intros H. inversion H. reflexivity.
Qed.

Lemma vector_swizzle_scan_nil_end (set dimx swiz component : Z) :
  vector_swizzle_scan set dimx [] swiz component = scan_end swiz component.
Proof. reflexivity. Qed.

(** X4.  The mask of the node [get_swizzle] yields for an operand that is no
    matrix holds, in the two bits of each position, the index of the
    component the character at that position names (0 to 3 for [x y z w] and
    for [r g b a]), and nothing above the last position: what the first
    pass over [xyzw] wrote before it gave up never reaches the result. *)
Theorem get_swizzle_vector_mask (value : hlsl_ir_node) (vt : hlsl_type)
    (swizzle : string) (loc : source_location) (c : hlsl_parse_ctx)
    (node : hlsl_ir_node) (c' : hlsl_parse_ctx) :
  node_data_type value = Some vt ->
  class_eqb (ty_type vt) HLSL_CLASS_MATRIX = false ->
  get_swizzle value swizzle loc c = (Some node, c') ->
  (forall i ch, list_ascii_of_string swizzle !! i = Some ch ->
     component_index ch = Some (mask_component (swizzle_mask node) (Z.of_nat i)))
  /\ (forall j, Z.of_nat (String.length swizzle) <= j ->
        mask_component (swizzle_mask node) j = 0).
Proof.
  intros Hvt Hcl. unfold get_swizzle. rewrite Hvt, Hcl.
  rewrite string_length_chars.
  set (chars := list_ascii_of_string swizzle) in *.
  destruct (Z.gtb_spec (Z.of_nat (length chars)) 4) as [|Hle]; [discriminate|].
  assert (Hzero : forall n, 2 * 0 <= n -> Z.testbit 0 n = false)
    by (intros; apply Z.bits_0).
  assert (Hhigh : forall swiz k, 0 <= k ->
            (forall n, 2 * k <= n -> Z.testbit swiz n = false) ->
            forall j, k <= j -> mask_component swiz j = 0).
  { intros swiz k Hk Hbits j Hj. apply Z.bits_inj'. intros n Hn.
    rewrite mask_component_bit, Hbits, Z.bits_0 by lia. reflexivity. }
  destruct (vector_swizzle_scan 0 (ty_dimx vt) chars 0 0) as [swiz| |swiz comp] eqn:E0.
  - destruct (vector_swizzle_scan 1 (ty_dimx vt) chars swiz 0) as [|  |swiz1 comp] eqn:E1;
      try discriminate.
    intros H. apply new_swizzle_result in H as [_ ->].
    destruct (vector_swizzle_scan_end_inv 1 _ rgba_index _ _ _ _ _
                find_component_rgba (or_intror eq_refl) E1) as [Hall Hcomp].
    assert (Hswiz : swiz = 0).
    { destruct chars as [|ch rest] eqn:Echars.
      - rewrite vector_swizzle_scan_nil_end in E0. discriminate E0.
      - simpl in Hall. apply andb_true_iff in Hall as [Hch _].
        destruct (rgba_index ch) as [i|] eqn:Ei; [|discriminate].
        exact (vector_swizzle_scan_break_first _ _ _ _ _ _ eq_refl
                 (rgba_not_xyzw _ _ Ei) E0). }
    subst swiz.
    destruct (vector_swizzle_scan_mask 1 (ty_dimx vt) rgba_index chars 0 0 swiz1 comp
                find_component_rgba (or_intror eq_refl) ltac:(lia) ltac:(lia)
                ltac:(lia) Hzero E1) as (Hnn & Hbits & _ & Hchars).
    split.
    + intros i ch Hi. unfold component_index.
      pose proof (Hchars i ch Hi) as Hr. rewrite (rgba_not_xyzw _ _ Hr), Hr.
      reflexivity.
    + intros j Hj. apply (Hhigh swiz1 comp); [lia|exact Hbits|lia].
  - discriminate.
  - intros H. apply new_swizzle_result in H as [_ ->].
    destruct (vector_swizzle_scan_end_inv 0 _ xyzw_index _ _ _ _ _
                find_component_xyzw (or_introl eq_refl) E0) as [Hall Hcomp].
    destruct (vector_swizzle_scan_mask 0 (ty_dimx vt) xyzw_index chars 0 0 swiz comp
                find_component_xyzw (or_introl eq_refl) ltac:(lia) ltac:(lia)
                ltac:(lia) Hzero E0) as (Hnn & Hbits & _ & Hchars).
    split.
    + intros i ch Hi. unfold component_index. rewrite (Hchars i ch Hi). reflexivity.
    + intros j Hj. apply (Hhigh swiz comp); [lia|exact Hbits|lia].
Qed.

Lemma get_swizzle_vector_mask_witness :
  (forall i ch, list_ascii_of_string "wzy" !! i = Some ch ->
     component_index ch
     = Some (mask_component
               (swizzle_mask
                  (default sample_float4_value
                     (fst (get_swizzle sample_float4_value "wzy" (sample_loc 3 13)
                             sample_ctx))))
               (Z.of_nat i)))
  /\ (forall j, Z.of_nat (String.length "wzy") <= j ->
        mask_component
          (swizzle_mask
             (default sample_float4_value
                (fst (get_swizzle sample_float4_value "wzy" (sample_loc 3 13)
                        sample_ctx))))
          j = 0).
Proof.
  apply (get_swizzle_vector_mask sample_float4_value (predefined_type "float4")
           "wzy" (sample_loc 3 13) sample_ctx _
           (snd (get_swizzle sample_float4_value "wzy" (sample_loc 3 13) sample_ctx)));
    vm_compute; reflexivity.
Defined.

(** *** Matrix swizzles *)

Lemma matrix_swizzle_scan_count (m_swizzle : bool) (dimx dimy : Z) (n : nat) :
  forall chars swiz component swiz' component',
    (length chars <= n)%nat ->
    matrix_swizzle_scan m_swizzle dimx dimy chars swiz component
    = Some (swiz', component') ->
    Z.of_nat (length chars) = (if m_swizzle then 4 else 3) * (component' - component).
Proof.
  induction n as [|n IH]; intros chars swiz component swiz' component' Hn H.
  - destruct chars; [|simpl in Hn; lia]. simpl in H. inversion H.
    destruct m_swizzle; simpl; lia.
  - destruct chars as [|c0 tl0]; [simpl in H; inversion H; destruct m_swizzle; simpl; lia|].
    simpl in H. destruct (negb (ascii_eqb c0 "_")); [discriminate|].
    destruct m_swizzle.
    + destruct tl0 as [|c1 [|c2 [|c3 rest]]]; try discriminate.
      destruct (negb (ascii_eqb c1 "m")); [discriminate|].
      match type of H with (if ?b then _ else _) = _ => destruct b end; [discriminate|].
      apply IH in H; [|simpl in Hn; lia].
      simpl length. lia.
    + destruct tl0 as [|c1 [|c2 rest]]; try discriminate.
      match type of H with (if ?b then _ else _) = _ => destruct b end; [discriminate|].
      apply IH in H; [|simpl in Hn; lia].
      simpl length. lia.
Qed.

(** X5.  [get_swizzle] yields a node for a matrix operand only for a swizzle
    made of one to four groups of equal length, four characters each when the
    second character of the swizzle is [m] and three otherwise; the node is a
    vector of the operand's base type with one component for each group. *)
Theorem get_swizzle_matrix_components (value : hlsl_ir_node) (vt : hlsl_type)
    (swizzle : string) (loc : source_location) (c : hlsl_parse_ctx)
    (node : hlsl_ir_node) (c' : hlsl_parse_ctx) :
  node_data_type value = Some vt ->
  class_eqb (ty_type vt) HLSL_CLASS_MATRIX = true ->
  get_swizzle value swizzle loc c = (Some node, c') ->
  exists k,
    1 <= k <= 4
    /\ Z.of_nat (String.length swizzle) = matrix_swizzle_inc swizzle * k
    /\ node_data_type node
       = Some (new_hlsl_type None HLSL_CLASS_VECTOR (ty_base_type vt) k 1).
Proof.
  intros Hvt Hcl. unfold get_swizzle, matrix_swizzle_inc. rewrite Hvt, Hcl.
  rewrite string_length_chars.
  set (chars := list_ascii_of_string swizzle) in *.
  set (m_swizzle := ascii_eqb (nth 1 chars "000"%char) "m").
  destruct (Z.ltb_spec (Z.of_nat (length chars)) 3) as [|Hlen]; [discriminate|].
  simpl orb.
  destruct (negb (ascii_eqb (nth 0 chars "000"%char) "_")); [discriminate|].
  destruct (negb (Z.of_nat (length chars) mod (if m_swizzle then 4 else 3) =? 0));
    [discriminate|].
  simpl orb.
  destruct (Z.gtb_spec (Z.of_nat (length chars)) ((if m_swizzle then 4 else 3) * 4))
    as [|Hmax]; [discriminate|].
  destruct (matrix_swizzle_scan m_swizzle (ty_dimx vt) (ty_dimy vt) chars 0 0)
    as [[swiz component]|] eqn:Escan; [|discriminate].
  intros H. apply new_swizzle_result in H as [Ht _].
  apply (matrix_swizzle_scan_count _ _ _ (length chars)) in Escan; [|lia].
  exists component. split; [|split; [|exact Ht]].
  - destruct m_swizzle; lia.
  - rewrite Escan. f_equal. lia.
Qed.

Lemma get_swizzle_matrix_components_witness :
  exists k,
    1 <= k <= 4
    /\ Z.of_nat (String.length "_m00_m11") = matrix_swizzle_inc "_m00_m11" * k
    /\ node_data_type
         (default sample_float4x4_value
            (fst (get_swizzle sample_float4x4_value "_m00_m11" (sample_loc 3 13)
                    sample_ctx)))
       = Some (new_hlsl_type None HLSL_CLASS_VECTOR
                 (ty_base_type (predefined_type "float4x4")) k 1).
Proof.
  apply (get_swizzle_matrix_components sample_float4x4_value
           (predefined_type "float4x4") "_m00_m11" (sample_loc 3 13) sample_ctx _
           (snd (get_swizzle sample_float4x4_value "_m00_m11" (sample_loc 3 13)
                   sample_ctx)));
    vm_compute; reflexivity.
Defined.

(** ** Indexing, continued *)

Lemma index_instructions_again_list (l : list hlsl_ir_node) :
  Forall (fun instr => forall i j,
            index_instruction (fst (index_instruction instr i)) j
            = index_instruction instr j) l ->
  forall i j,
    index_instructions (fst (index_instructions l i)) j = index_instructions l j.
Proof.
  induction 1 as [|x r Hx _ IH]; intros i j; [reflexivity|].
  rewrite index_instructions_cons. simpl.
  rewrite Hx. destruct (index_instruction x j) as [x1 j1].
  rewrite IH. reflexivity.
Qed.

Lemma index_instruction_again (instr : hlsl_ir_node) (i j : Z) :
  index_instruction (fst (index_instruction instr i)) j = index_instruction instr j.
Proof.
  revert i j.
  induction instr as [a t loc i0 cond then_instrs else_instrs Hthen Helse
                     |a t loc i0 body next_index Hbody
                     |a t loc i0 p Hp] using hlsl_ir_node_nested_ind;
    intros i j.
  - rewrite index_instruction_if_fst, !index_instruction_if.
    rewrite (index_instructions_again_list _ Hthen).
    destruct (index_instructions then_instrs (u32 (j + 1))) as [then1 j2].
    destruct else_instrs as [else_instrs|]; [|reflexivity].
    simpl in Helse. rewrite (index_instructions_again_list _ Helse). reflexivity.
  - rewrite index_instruction_loop_fst, !index_instruction_loop.
    rewrite (index_instructions_again_list _ Hbody). reflexivity.
  - rewrite (index_instruction_plain _ _ _ _ _ i Hp). cbn [fst].
    rewrite !index_instruction_plain by exact Hp. reflexivity.
Qed.

Lemma clear_index_if a t loc i cond then_instrs else_instrs :
  clear_index (mk_node a t loc i (HLSL_IR_IF cond then_instrs else_instrs))
  = mk_node a t loc 0
      (HLSL_IR_IF cond (clear_indices then_instrs)
         match else_instrs with
         | Some else_instrs => Some (clear_indices else_instrs)
         | None => None
         end).
Proof. destruct else_instrs; reflexivity. Qed.

Lemma clear_index_loop a t loc i body next_index :
  clear_index (mk_node a t loc i (HLSL_IR_LOOP body next_index))
  = mk_node a t loc 0 (HLSL_IR_LOOP (clear_indices body) 0).
Proof. reflexivity. Qed.

Lemma clear_index_plain a t loc i p :
  is_control p = false -> clear_index (mk_node a t loc i p) = mk_node a t loc 0 p.
Proof. destruct p; try discriminate; reflexivity. Qed.

Lemma clear_index_control (instr : hlsl_ir_node) :
  is_control (node_payload (clear_index instr)) = is_control (node_payload instr).
Proof. destruct instr as [a t loc i p]. destruct p; reflexivity. Qed.

(** Indexing changes nothing but the indices. *)
Lemma index_instructions_clear_list (l : list hlsl_ir_node) :
  Forall (fun instr => forall i,
            clear_index (fst (index_instruction instr i)) = clear_index instr) l ->
  forall i, clear_indices (fst (index_instructions l i)) = clear_indices l.
Proof.
  induction 1 as [|x r Hx _ IH]; intros i; [reflexivity|].
  rewrite index_instructions_cons. unfold clear_indices in *. cbn [map].
  rewrite Hx, IH. reflexivity.
Qed.

Lemma index_instruction_clear (instr : hlsl_ir_node) (i : Z) :
  clear_index (fst (index_instruction instr i)) = clear_index instr.
Proof.
  revert i.
  induction instr as [a t loc i0 cond then_instrs else_instrs Hthen Helse
                     |a t loc i0 body next_index Hbody
                     |a t loc i0 p Hp] using hlsl_ir_node_nested_ind;
    intros i.
  - rewrite index_instruction_if_fst, !clear_index_if.
    rewrite (index_instructions_clear_list _ Hthen).
    destruct else_instrs as [else_instrs|]; [|reflexivity].
    simpl in Helse. rewrite (index_instructions_clear_list _ Helse). reflexivity.
  - rewrite index_instruction_loop_fst, !clear_index_loop.
    rewrite (index_instructions_clear_list _ Hbody). reflexivity.
  - rewrite (index_instruction_plain _ _ _ _ _ i Hp). cbn [fst].
    rewrite !clear_index_plain by exact Hp. reflexivity.
Qed.

(** Indexing reads none of the indices: instructions that differ in their
    indices only are indexed alike. *)
Lemma index_instructions_same_list (l : list hlsl_ir_node) :
  Forall (fun instr => forall instr' j,
            clear_index instr' = clear_index instr ->
            index_instruction instr' j = index_instruction instr j) l ->
  forall l' j,
    clear_indices l' = clear_indices l ->
    index_instructions l' j = index_instructions l j.
Proof.
  induction 1 as [|x r Hx _ IH]; intros l' j Heq.
  - destruct l'; [reflexivity|discriminate Heq].
  - destruct l' as [|x' r']; [discriminate Heq|].
    unfold clear_indices in Heq. cbn [map] in Heq.
    inversion Heq as [[Hhead Htail]]. cbn [index_instructions].
    rewrite (Hx x' j Hhead). destruct (index_instruction x j) as [x1 j1].
    rewrite (IH r' j1 Htail). reflexivity.
Qed.

Lemma index_instruction_same (instr : hlsl_ir_node) :
  forall instr' j,
    clear_index instr' = clear_index instr ->
    index_instruction instr' j = index_instruction instr j.
Proof.
  induction instr as [a t loc i0 cond then_instrs else_instrs Hthen Helse
                     |a t loc i0 body next_index Hbody
                     |a t loc i0 p Hp] using hlsl_ir_node_nested_ind;
    intros [a' t' loc' i' p'] j Heq.
  - rewrite clear_index_if in Heq.
    destruct p'; try (rewrite clear_index_plain in Heq by reflexivity; discriminate Heq);
      [|rewrite clear_index_loop in Heq; discriminate Heq].
    rewrite clear_index_if in Heq. inversion Heq as [[Ha Ht Hl Hc Hth Hel]].
    rewrite !index_instruction_if.
    rewrite (index_instructions_same_list _ Hthen _ _ Hth).
    destruct (index_instructions then_instrs (u32 (j + 1))) as [then1 j2].
    destruct else_instrs as [e|], else_instrs0 as [e'|]; try discriminate Hel;
      [|reflexivity].
    inversion Hel as [He]. simpl in Helse.
    rewrite (index_instructions_same_list _ Helse _ _ He). reflexivity.
  - rewrite clear_index_loop in Heq.
    destruct p'; try (rewrite clear_index_plain in Heq by reflexivity; discriminate Heq);
      [rewrite clear_index_if in Heq; discriminate Heq|].
    rewrite clear_index_loop in Heq. inversion Heq as [[Ha Ht Hl Hb]].
    rewrite !index_instruction_loop.
    rewrite (index_instructions_same_list _ Hbody _ _ Hb). reflexivity.
  - rewrite (clear_index_plain _ _ _ _ _ Hp) in Heq.
    assert (Hp' : is_control p' = false).
    { pose proof (clear_index_control (mk_node a' t' loc' i' p')) as Hc.
      rewrite Heq in Hc. simpl in Hc. congruence. }
    rewrite (clear_index_plain _ _ _ _ _ Hp') in Heq. inversion Heq. subst.
    rewrite !index_instruction_plain by assumption. reflexivity.
Qed.

(** X6.  [index_instructions] writes the index fields and nothing else, and
    reads none of them.  An indexed list is the list it was made from in all
    but the [index] of its nodes and the [next_index] of its loops: addresses,
    types, locations, operands and nesting are as they were.  Two lists that
    differ in those fields only are indexed alike.  So indexing a list that
    was indexed before, from whatever number, gives what indexing the
    original list gives. *)
Theorem index_instructions_again (instrs : list hlsl_ir_node) (i j : Z) :
  clear_indices (fst (index_instructions instrs i)) = clear_indices instrs
  /\ (forall instrs',
        clear_indices instrs' = clear_indices instrs ->
        index_instructions instrs' j = index_instructions instrs j)
  /\ index_instructions (fst (index_instructions instrs i)) j
     = index_instructions instrs j.
Proof.
  assert (Hclear : forall k,
            clear_indices (fst (index_instructions instrs k)) = clear_indices instrs).
  { apply index_instructions_clear_list, Forall_forall.
    intros x _. apply index_instruction_clear. }
  assert (Hsame : forall instrs',
            clear_indices instrs' = clear_indices instrs ->
            index_instructions instrs' j = index_instructions instrs j).
  { intros instrs' Heq. apply (index_instructions_same_list instrs); [|exact Heq].
    apply Forall_forall. intros x _. apply index_instruction_same. }
  split; [apply Hclear|]. split; [exact Hsame|]. apply Hsame, Hclear.
Qed.

(** ** Liveness, continued *)

Lemma same_declaration_refl (v : hlsl_ir_var) : same_declaration v v.
Proof. unfold same_declaration. auto 10. Qed.

Lemma same_declaration_trans (v1 v2 v3 : hlsl_ir_var) :
  same_declaration v1 v2 -> same_declaration v2 v3 -> same_declaration v1 v3.
Proof.
  unfold same_declaration.
  intros (A1 & B1 & C1 & D1 & E1 & F1) (A2 & B2 & C2 & D2 & E2 & F2).
  repeat split; congruence.
Qed.

Lemma liveness_kept_refl (derefs : list Z) (var : Z) (v : hlsl_ir_var) :
  liveness_kept derefs var v v.
Proof. split; [apply same_declaration_refl|]. auto. Qed.

Lemma liveness_kept_app (d1 d2 : list Z) (var : Z) (v1 v2 v3 : hlsl_ir_var) :
  liveness_kept d1 var v1 v2 -> liveness_kept d2 var v2 v3 ->
  liveness_kept (d1 ++ d2) var v1 v3.
Proof.
  intros (S1 & W1 & R1) (S2 & W2 & R2).
  split; [exact (same_declaration_trans _ _ _ S1 S2)|]. split.
  - intros Hw. rewrite W2, W1; [reflexivity|exact Hw|]. rewrite W1; exact Hw.
  - intros Hn. rewrite R2, R1; [reflexivity| |];
      intros Hin; apply Hn, elem_of_app; auto.
Qed.

Lemma liveness_kept_first_write (derefs : list Z) (var var0 i : Z) (st : liveness)
    (v v0 : hlsl_ir_var) :
  live_vars st !! var = Some v ->
  live_vars st !! var0 = Some v0 -> ivar_first_write v0 = 0 ->
  exists v', live_vars (set_first_write var0 i st) !! var = Some v'
             /\ liveness_kept derefs var v v'.
Proof.
  intros Hv Hv0 Hw. unfold set_first_write. simpl.
  destruct (decide (var0 = var)) as [->|Hne].
  - rewrite lookup_alter_eq, Hv. simpl. eexists. split; [reflexivity|].
    assert (v0 = v) by congruence. subst v0.
    split; [unfold same_declaration; simpl; auto 10|].
    split; [intros Hn; contradiction|reflexivity].
  - rewrite lookup_alter_ne by exact Hne. exists v.
    split; [exact Hv|apply liveness_kept_refl].
Qed.

Lemma liveness_kept_last_read (var var0 i : Z) (st : liveness) (v : hlsl_ir_var) :
  live_vars st !! var = Some v ->
  exists v', live_vars (set_last_read var0 i st) !! var = Some v'
             /\ liveness_kept [var0] var v v'.
Proof.
  intros Hv. unfold set_last_read. simpl.
  destruct (decide (var0 = var)) as [->|Hne].
  - rewrite lookup_alter_eq, Hv. simpl. eexists. split; [reflexivity|].
    split; [unfold same_declaration; simpl; auto 10|]. split; [reflexivity|].
    intros Hn. exfalso. apply Hn, list_elem_of_singleton. reflexivity.
  - rewrite lookup_alter_ne by exact Hne. exists v.
    split; [exact Hv|apply liveness_kept_refl].
Qed.

Lemma live_vars_constructor (args : list Z) (i : Z) (st : liveness) :
  live_vars (fold_left (fun s arg => set_node_last_read arg i s) args st)
  = live_vars st.
Proof.
  revert st. induction args as [|x r IH]; intros st; simpl; [reflexivity|].
  rewrite IH. reflexivity.
Qed.

Lemma compute_liveness_recurse_kept_list (l : list hlsl_ir_node) :
  Forall (fun instr => forall lf ll st var v,
            live_vars st !! var = Some v ->
            exists v', live_vars (compute_liveness_instr instr lf ll st) !! var = Some v'
                       /\ liveness_kept (dereferenced_vars_instr instr) var v v') l ->
  forall lf ll st var v,
    live_vars st !! var = Some v ->
    exists v', live_vars (compute_liveness_recurse l lf ll st) !! var = Some v'
               /\ liveness_kept (dereferenced_vars l) var v v'.
Proof.
  induction 1 as [|x r Hx _ IH]; intros lf ll st var v Hv; simpl.
  - exists v. split; [exact Hv|apply liveness_kept_refl].
  - destruct (Hx lf ll st var v Hv) as (v1 & Hv1 & K1).
    destruct (IH lf ll _ var v1 Hv1) as (v2 & Hv2 & K2).
    exists v2. split; [exact Hv2|exact (liveness_kept_app _ _ _ _ _ _ K1 K2)].
Qed.

Lemma compute_liveness_instr_kept (instr : hlsl_ir_node) :
  forall lf ll st var v,
    live_vars st !! var = Some v ->
    exists v', live_vars (compute_liveness_instr instr lf ll st) !! var = Some v'
               /\ liveness_kept (dereferenced_vars_instr instr) var v v'.
Proof.
  induction instr as [a t loc i0 cond then_instrs else_instrs Hthen Helse
                     |a t loc i0 body next_index Hbody
                     |a t loc i0 p Hp] using hlsl_ir_node_nested_ind;
    intros lf ll st var v Hv.
  - rewrite compute_liveness_instr_if, dereferenced_vars_if, live_vars_set_node_last_read.
    destruct (compute_liveness_recurse_kept_list _ Hthen lf ll st var v Hv)
      as (v1 & Hv1 & K1).
    destruct else_instrs as [else_instrs|]; simpl in Helse |- *.
    + destruct (compute_liveness_recurse_kept_list _ Helse lf ll _ var v1 Hv1)
        as (v2 & Hv2 & K2).
      exists v2. split; [exact Hv2|exact (liveness_kept_app _ _ _ _ _ _ K1 K2)].
    + exists v1. split; [exact Hv1|]. rewrite app_nil_r. exact K1.
  - rewrite compute_liveness_instr_loop, dereferenced_vars_loop.
    apply (compute_liveness_recurse_kept_list _ Hbody). exact Hv.
  - destruct p; try discriminate Hp; simpl.
    + destruct (live_vars st !! hlsl_var_from_deref lhs) as [v0|] eqn:Hv0;
        [|exists v; split; [exact Hv|apply liveness_kept_refl]].
      destruct (Z.eqb_spec (ivar_first_write v0) 0) as [Hw|_];
        [|exists v; split; [exact Hv|apply liveness_kept_refl]].
      exact (liveness_kept_first_write _ _ _ _ _ _ _ Hv Hv0 Hw).
    + exists v. split; [exact Hv|apply liveness_kept_refl].
    + rewrite live_vars_constructor.
      exists v. split; [exact Hv|apply liveness_kept_refl].
    + destruct (liveness_kept_last_read var (hlsl_var_from_deref src)
                  (if negb (ll =? 0) then max i0 ll else i0) st v Hv)
        as (v' & Hv' & K).
      exists v'. split; [|exact K]. destruct src; exact Hv'.
    + exists v. split; [|apply liveness_kept_refl].
      destruct operand1, operand2; exact Hv.
    + exists v. split; [|apply liveness_kept_refl].
      destruct type, return_value; exact Hv.
    + exists v. split; [exact Hv|apply liveness_kept_refl].
Qed.

(** X7.  The walk of [compute_liveness_recurse] over any list, inside or
    outside a loop, loses no variable and writes nothing of a variable but
    [first_write] and [last_read]: the declaration stays; a [first_write] that
    is set (not 0) is never written again; and the [last_read] of a variable
    the list does not dereference stays. *)
Theorem compute_liveness_recurse_kept (instrs : list hlsl_ir_node)
    (loop_first loop_last : Z) (st : liveness) (var : Z) (v : hlsl_ir_var) :
  live_vars st !! var = Some v ->
  exists v',
    live_vars (compute_liveness_recurse instrs loop_first loop_last st) !! var = Some v'
    /\ same_declaration v v'
    /\ (ivar_first_write v <> 0 -> ivar_first_write v' = ivar_first_write v)
    /\ (var ∉ dereferenced_vars instrs -> ivar_last_read v' = ivar_last_read v).
Proof.
  apply compute_liveness_recurse_kept_list, Forall_forall.
  intros x _. apply compute_liveness_instr_kept.
Qed.

Lemma compute_liveness_recurse_kept_witness :
  exists v',
    live_vars (compute_liveness_recurse (fst (index_instructions sample_body 2)) 0 0
                 sample_liveness) !! 8 = Some v'
    /\ same_declaration sample_var v'
    /\ (ivar_first_write sample_var <> 0 ->
        ivar_first_write v' = ivar_first_write sample_var)
    /\ (8 ∉ dereferenced_vars (fst (index_instructions sample_body 2)) ->
        ivar_last_read v' = ivar_last_read sample_var).
Proof.
  apply (compute_liveness_recurse_kept (fst (index_instructions sample_body 2)) 0 0
           sample_liveness 8 sample_var).
  vm_compute. reflexivity.
Defined.

(** X8.  What [compute_liveness] as a whole leaves in the variables: every
    global keeps the [first_write] of 1 it is given at the start, whatever the
    body assigns; so does every parameter with input storage; and a parameter
    with output storage that the body never dereferences keeps its
    [last_read] of [UINT_MAX]. *)
Theorem compute_liveness_marks (globals : list Z)
    (entry_func : hlsl_ir_function_decl) (body : list hlsl_ir_node)
    (st : liveness) (var : Z) (v : hlsl_ir_var) :
  live_vars st !! var = Some v ->
  exists v',
    live_vars (compute_liveness globals entry_func body st) !! var = Some v'
    /\ same_declaration v v'
    /\ (var ∈ globals -> ivar_first_write v' = 1)
    /\ (var ∈ func_parameters entry_func ->
        has_bits (ivar_modifiers v) HLSL_STORAGE_IN = true ->
        ivar_first_write v' = 1)
    /\ (var ∈ func_parameters entry_func ->
        has_bits (ivar_modifiers v) HLSL_STORAGE_OUT = true ->
        var ∉ dereferenced_vars body ->
        ivar_last_read v' = UINT_MAX).
Proof.
  intros Hv.
  unfold compute_liveness, compute_liveness_start, liveness_globals, liveness_parameters.
  assert (Hdecl : forall (step : liveness -> Z -> liveness),
            (forall s a x w, live_vars s !! x = Some w ->
               exists w', live_vars (step s a) !! x = Some w' /\ same_declaration w w') ->
            forall l s x w, live_vars s !! x = Some w ->
               exists w', live_vars (fold_left step l s) !! x = Some w'
                          /\ same_declaration w w').
  { intros step Hstep. induction l as [|a r IH]; intros s x w Hw; simpl.
    - exists w. split; [exact Hw|apply same_declaration_refl].
    - destruct (Hstep s a x w Hw) as (w1 & Hw1 & S1).
      destruct (IH _ x w1 Hw1) as (w2 & Hw2 & S2).
      exists w2. split; [exact Hw2|exact (same_declaration_trans _ _ _ S1 S2)]. }
  assert (Halter : forall (f : hlsl_ir_var -> hlsl_ir_var) a s x w,
            (forall u, same_declaration u (f u)) ->
            live_vars s !! x = Some w ->
            exists w', alter f a (live_vars s) !! x = Some w' /\ same_declaration w w').
  { intros f a s x w Hf Hw. destruct (decide (a = x)) as [->|Hne].
    - rewrite lookup_alter_eq, Hw. simpl. eauto.
    - rewrite lookup_alter_ne by exact Hne. exists w.
      split; [exact Hw|apply same_declaration_refl]. }
  assert (Hfw : forall i u, same_declaration u (set_ivar_first_write u i))
    by (intros; unfold same_declaration; simpl; auto 10).
  assert (Hlr : forall i u, same_declaration u (set_ivar_last_read u i))
    by (intros; unfold same_declaration; simpl; auto 10).
  destruct (fold_left_start (fun s var => set_first_write var 1 s)
              (fun v => ivar_first_write v = 1)
              (fun st a x v H => set_first_write_start a st x v H)
              (fun v v' K H => proj1 (proj2 K) H)
              globals st var v Hv) as (v1 & Hv1 & K1 & G1).
  destruct (Hdecl (fun s var => set_first_write var 1 s)
              (fun s a x w Hw => Halter _ a s x w (Hfw 1) Hw)
              globals st var v Hv) as (v1' & Hv1' & S1).
  assert (v1' = v1) by congruence. subst v1'.
  destruct (fold_left_start (fun s var => liveness_parameter var s)
              storage_marked
              (fun st a x v H => liveness_parameter_start a st x v H)
              storage_marked_kept
              (func_parameters entry_func) _ var v1 Hv1) as (v2 & Hv2 & K2 & P2).
  assert (Hparam : forall s a x w, live_vars s !! x = Some w ->
            exists w', live_vars (liveness_parameter a s) !! x = Some w'
                       /\ same_declaration w w').
  { intros s a x w Hw. unfold liveness_parameter.
    destruct (live_vars s !! a) as [p|];
      [|exists w; split; [exact Hw|apply same_declaration_refl]].
    destruct (has_bits (ivar_modifiers p) HLSL_STORAGE_IN);
      destruct (has_bits (ivar_modifiers p) HLSL_STORAGE_OUT).
    - destruct (Halter _ a s x w (Hfw 1) Hw) as (w1 & Hw1 & T1).
      destruct (Halter _ a (set_first_write a 1 s) x w1 (Hlr UINT_MAX) Hw1)
        as (w2 & Hw2 & T2).
      exists w2. split; [exact Hw2|exact (same_declaration_trans _ _ _ T1 T2)].
    - exact (Halter _ a s x w (Hfw 1) Hw).
    - exact (Halter _ a s x w (Hlr UINT_MAX) Hw).
    - exists w. split; [exact Hw|apply same_declaration_refl]. }
  destruct (Hdecl (fun s var => liveness_parameter var s) Hparam
              (func_parameters entry_func) _ var v1 Hv1) as (v2' & Hv2' & S2).
  assert (v2' = v2) by congruence. subst v2'.
  destruct (compute_liveness_recurse_kept_list body
              ltac:(apply Forall_forall; intros x _; apply compute_liveness_instr_kept)
              0 0 _ var v2 Hv2) as (v3 & Hv3 & S3 & W3 & R3).
  pose proof (start_kept_trans _ _ _ K1 K2) as (M & _ & _).
  exists v3. split; [exact Hv3|]. split; [|split; [|split]].
  - exact (same_declaration_trans _ _ _ (same_declaration_trans _ _ _ S1 S2) S3).
  - intros Hin. assert (Hone : ivar_first_write v2 = 1) by (apply K2, G1, Hin).
    rewrite W3; [exact Hone|lia].
  - intros Hin Hbit.
    assert (Hone : ivar_first_write v2 = 1) by (apply (P2 Hin); rewrite M; exact Hbit).
    rewrite W3; [exact Hone|lia].
  - intros Hin Hbit Hnot. rewrite (R3 Hnot). apply (P2 Hin). rewrite M. exact Hbit.
Qed.

Lemma compute_liveness_marks_witness :
  exists v',
    live_vars (compute_liveness [8] sample_entry_func
                 (fst (index_instructions sample_body 2)) sample_start) !! 8 = Some v'
    /\ same_declaration sample_var v'
    /\ (8 ∈ [8] -> ivar_first_write v' = 1)
    /\ (8 ∈ func_parameters sample_entry_func ->
        has_bits (ivar_modifiers sample_var) HLSL_STORAGE_IN = true ->
        ivar_first_write v' = 1)
    /\ (8 ∈ func_parameters sample_entry_func ->
        has_bits (ivar_modifiers sample_var) HLSL_STORAGE_OUT = true ->
        8 ∉ dereferenced_vars (fst (index_instructions sample_body 2)) ->
        ivar_last_read v' = UINT_MAX).
Proof.
  apply (compute_liveness_marks [8] sample_entry_func
           (fst (index_instructions sample_body 2)) sample_start 8 sample_var).
  vm_compute. reflexivity.
Defined.

(** ** Diagnostics are never lost *)

Lemma reports_kept_refl (c : hlsl_parse_ctx) : reports_kept c c.
Proof. unfold reports_kept. auto. Qed.

Lemma reports_kept_trans (c1 c2 c3 : hlsl_parse_ctx) :
  reports_kept c1 c2 -> reports_kept c2 c3 -> reports_kept c1 c3.
Proof.
  intros (M1 & S1 & F1 & J1) (M2 & S2 & F2 & J2).
  split; [etrans; eassumption|]. split; [auto|]. split; congruence.
Qed.

Lemma ctx_alloc_kept (c c1 : hlsl_parse_ctx) (p : option Z) :
  ctx_alloc c = (p, c1) ->
  reports_kept c c1 /\ ctx_scopes c1 = ctx_scopes c /\ ctx_vars c1 = ctx_vars c.
Proof.
  unfold ctx_alloc. destruct (d3dcompiler_alloc (ctx_heap c)) as [q h].
  intros H. inversion H. subst. unfold reports_kept. simpl. auto 10.
Qed.

Lemma hlsl_report_message_kept loc level text (c : hlsl_parse_ctx) :
  reports_kept c (hlsl_report_message loc level text c)
  /\ ctx_scopes (hlsl_report_message loc level text c) = ctx_scopes c
  /\ ctx_vars (hlsl_report_message loc level text c) = ctx_vars c.
Proof.
  unfold hlsl_report_message.
  destruct (ctx_alloc c) as [[a|] c1] eqn:E;
    apply ctx_alloc_kept in E as ((M & S & F & J) & Sc & V);
    [|split; [split; auto|auto]].
  split; [|destruct level; simpl; auto].
  split; [|split; [|split]].
  - destruct level; simpl; (etrans; [exact M|apply prefix_app_r; reflexivity]).
  - intros Herr. specialize (S Herr).
    destruct level; simpl; [reflexivity|rewrite S; reflexivity|exact S].
  - destruct level; simpl; exact F.
  - destruct level; simpl; exact J.
Qed.

Lemma report_kept_after loc level text (c c1 : hlsl_parse_ctx) :
  reports_kept c c1 -> reports_kept c (hlsl_report_message loc level text c1).
Proof.
  intros H. apply (reports_kept_trans _ _ _ H), hlsl_report_message_kept.
Qed.

Lemma check_invalid_matrix_modifiers_kept modifiers loc (c : hlsl_parse_ctx) :
  reports_kept c (check_invalid_matrix_modifiers modifiers loc c)
  /\ ctx_scopes (check_invalid_matrix_modifiers modifiers loc c) = ctx_scopes c
  /\ ctx_vars (check_invalid_matrix_modifiers modifiers loc c) = ctx_vars c.
Proof.
  unfold check_invalid_matrix_modifiers.
  destruct (has_bits modifiers HLSL_MODIFIERS_MAJORITY_MASK);
    [apply hlsl_report_message_kept|].
  split; [apply reports_kept_refl|auto].
Qed.

Lemma add_modifiers_kept modifiers md loc (c : hlsl_parse_ctx) :
  reports_kept c (snd (add_modifiers modifiers md loc c)).
Proof.
  unfold add_modifiers.
  destruct (has_bits modifiers md);
    [|destruct (has_bits md HLSL_MODIFIERS_MAJORITY_MASK
                && has_bits modifiers HLSL_MODIFIERS_MAJORITY_MASK)]; simpl;
    try apply hlsl_report_message_kept; apply reports_kept_refl.
Qed.

Lemma var_modifiers_kept kws (c : hlsl_parse_ctx) :
  reports_kept c (snd (var_modifiers kws c)).
Proof.
  induction kws as [|[k loc] rest IH]; simpl; [apply reports_kept_refl|].
  destruct (var_modifiers rest c) as [m c1]. simpl in IH.
  apply (reports_kept_trans _ _ _ IH), add_modifiers_kept.
Qed.

Lemma clone_hlsl_type_kept old default_majority (c : hlsl_parse_ctx) :
  reports_kept c (snd (clone_hlsl_type old default_majority c)).
Proof.
  unfold clone_hlsl_type. destruct (ctx_alloc c) as [[a|] c1] eqn:E;
    apply ctx_alloc_kept in E as [K _]; exact K.
Qed.

Lemma apply_type_modifiers_kept type modifiers loc (c : hlsl_parse_ctx) :
  reports_kept c (snd (apply_type_modifiers type modifiers loc c)).
Proof.
  unfold apply_type_modifiers.
  match goal with |- context [if ?b then (Some type, modifiers, c) else _] =>
    destruct b end; [apply reports_kept_refl|].
  match goal with |- context [clone_hlsl_type type ?d c] =>
    pose proof (clone_hlsl_type_kept type d c) as K;
    destruct (clone_hlsl_type type d c) as [[new_type|] c1] end;
    simpl in K; [|exact K].
  pose proof (add_modifiers_kept (ty_modifiers new_type) modifiers loc c1) as K2.
  destruct (add_modifiers (ty_modifiers new_type) modifiers loc c1) as [m c2].
  simpl in K2 |- *. exact (reports_kept_trans _ _ _ K K2).
Qed.

Lemma add_type_to_scope_kept name def (c : hlsl_parse_ctx) :
  reports_kept c (snd (add_type_to_scope name def c)).
Proof.
  unfold add_type_to_scope. destruct (ctx_scopes c) as [|s upper]; simpl;
    [apply reports_kept_refl|].
  destruct (scope_types s !! name); simpl; unfold reports_kept; simpl; auto.
Qed.

Lemma add_typedef_one_kept modifiers orig_type v (c : hlsl_parse_ctx) :
  reports_kept c (snd (add_typedef_one modifiers orig_type v c)).
Proof.
  unfold add_typedef_one.
  assert (K1 : reports_kept c
            (snd (if negb (v_array_size v =? 0)
                  then (Some (new_array_type orig_type (v_array_size v)), c)
                  else clone_hlsl_type orig_type 0 c))).
  { destruct (negb (v_array_size v =? 0)); simpl;
      [apply reports_kept_refl|apply clone_hlsl_type_kept]. }
  destruct (if negb (v_array_size v =? 0)
            then (Some (new_array_type orig_type (v_array_size v)), c)
            else clone_hlsl_type orig_type 0 c) as [[type|] c1]; simpl in K1;
    [|exact K1].
  set (type2 := set_ty_modifiers (set_ty_name type (Some (v_name v)))
                  (Z.lor (ty_modifiers (set_ty_name type (Some (v_name v)))) modifiers)).
  assert (K2 : reports_kept c
            (snd (if negb (class_eqb (ty_type type2) HLSL_CLASS_MATRIX)
                  then (type2,
                        check_invalid_matrix_modifiers (ty_modifiers type2) (v_loc v) c1)
                  else (set_ty_reg_size type2
                          (if is_row_major type2 then ty_dimy type2 else ty_dimx type2),
                        c1)))).
  { destruct (negb (class_eqb (ty_type type2) HLSL_CLASS_MATRIX)); simpl;
      [|exact K1].
    apply (reports_kept_trans _ _ _ K1), check_invalid_matrix_modifiers_kept. }
  destruct (if negb (class_eqb (ty_type type2) HLSL_CLASS_MATRIX)
            then (type2,
                  check_invalid_matrix_modifiers (ty_modifiers type2) (v_loc v) c1)
            else (set_ty_reg_size type2
                    (if is_row_major type2 then ty_dimy type2 else ty_dimx type2),
                  c1)) as [type3 c2]; simpl in K2.
  match goal with |- context [add_type_to_scope (v_name v) type3 ?c3] =>
    assert (K3 : reports_kept c c3)
      by (destruct (has_bits (ty_modifiers type3) HLSL_MODIFIER_COLUMN_MAJOR
                    && has_bits (ty_modifiers type3) HLSL_MODIFIER_ROW_MAJOR);
          [apply report_kept_after|]; exact K2);
    pose proof (add_type_to_scope_kept (v_name v) type3 c3) as K4;
    destruct (add_type_to_scope (v_name v) type3 c3) as [ret c4]
  end.
  simpl in K4 |- *. pose proof (reports_kept_trans _ _ _ K3 K4) as K5.
  destruct ret; [exact K5|apply report_kept_after, K5].
Qed.

Lemma add_typedef_kept modifiers orig_type l (c : hlsl_parse_ctx) :
  reports_kept c (snd (add_typedef modifiers orig_type l c)).
Proof.
  revert c. induction l as [|v rest IH]; intros c; simpl; [apply reports_kept_refl|].
  pose proof (add_typedef_one_kept modifiers orig_type v c) as K.
  destruct (add_typedef_one modifiers orig_type v c) as [[|] c1]; simpl in K |- *;
    [|exact K].
  exact (reports_kept_trans _ _ _ K (IH c1)).
Qed.

(** X9.  The rule [typedef] never takes back a diagnostic: whatever it is
    given, the messages reported before are the first messages afterwards,
    a status of error stays, and the function table and the default majority
    are as they were. *)
Theorem typedef_keeps_reports (kws : list (modifier_keyword * source_location))
    (typedef_type : hlsl_type) (type_specs : list parse_variable_def)
    (loc : source_location) (c : hlsl_parse_ctx) :
  reports_kept c (snd (typedef kws typedef_type type_specs loc c)).
Proof.
  unfold typedef. pose proof (var_modifiers_kept kws c) as K.
  destruct (var_modifiers kws c) as [modifiers c1]. simpl in K.
  destruct (negb (clear_bits modifiers HLSL_TYPE_MODIFIERS_MASK =? 0)); simpl.
  - apply report_kept_after, K.
  - apply (reports_kept_trans _ _ _ K), add_typedef_kept.
Qed.

Lemma add_declaration_kept a decl local_var (c : hlsl_parse_ctx) :
  reports_kept c (snd (add_declaration a decl local_var c)).
Proof.
  unfold add_declaration. destruct (ctx_scopes c) as [|s upper]; simpl;
    [apply reports_kept_refl|].
  destruct (find (var_named c (ivar_name decl)) (scope_vars s)); simpl;
    unfold reports_kept; simpl; auto.
Qed.

Lemma declare_variable_kept a decl local (c : hlsl_parse_ctx) :
  reports_kept c (snd (declare_variable a decl local c)).
Proof.
  unfold declare_variable.
  set (c1 := if negb (class_eqb (ty_type (ivar_data_type decl)) HLSL_CLASS_MATRIX)
             then check_invalid_matrix_modifiers (ivar_modifiers decl) (ivar_loc decl) c
             else c).
  assert (K1 : reports_kept c c1).
  { subst c1. destruct (negb (class_eqb (ty_type (ivar_data_type decl)) HLSL_CLASS_MATRIX));
      [apply check_invalid_matrix_modifiers_kept|apply reports_kept_refl]. }
  assert (Hafter : forall c2, reports_kept c c2 ->
            reports_kept c
              (snd (let '(ret, c3) := add_declaration a decl local c2 in
                    if negb ret then
                      match get_variable c3 (ivar_name decl) with
                      | Some old_addr =>
                          let c4 :=
                            hlsl_report_message (ivar_loc decl) HLSL_LEVEL_ERROR
                              (dquote +:+ ivar_name decl +:+ dquote +:+ " already declared")
                              c3 in
                          let old_loc :=
                            default no_location (ivar_loc <$> ctx_vars c4 !! old_addr) in
                          let old_name :=
                            default EmptyString (ivar_name <$> ctx_vars c4 !! old_addr) in
                          (false,
                           hlsl_report_message old_loc HLSL_LEVEL_NOTE
                             (dquote +:+ old_name +:+ dquote
                              +:+ " was previously declared here") c4)
                      | None => (false, c3)
                      end
                    else (true, c3)))).
  { intros c2 K2. pose proof (add_declaration_kept a decl local c2) as K3.
    destruct (add_declaration a decl local c2) as [ret c3]. simpl in K3.
    pose proof (reports_kept_trans _ _ _ K2 K3) as K4.
    destruct ret; simpl; [exact K4|].
    destruct (get_variable c3 (ivar_name decl)); simpl; [|exact K4].
    apply report_kept_after, report_kept_after, K4. }
  destruct local.
  - match goal with |- context [match ivar_semantic decl with
                                | Some _ => (false, hlsl_report_message _ _ _ ?c2)
                                | None => _ end] =>
      assert (K2 : reports_kept c c2)
        by (destruct (negb (Z.land (ivar_modifiers decl) local_invalid_modifiers =? 0));
            [apply report_kept_after|]; exact K1)
    end.
    destruct (ivar_semantic decl); [simpl; apply report_kept_after, K2|].
    apply Hafter, K2.
  - destruct (find_function (ivar_name decl) c1);
      [simpl; apply report_kept_after, K1|apply Hafter, K1].
Qed.

Lemma new_var_deref_kept var var_type (c : hlsl_parse_ctx) :
  reports_kept c (snd (new_var_deref var var_type c)).
Proof.
  unfold new_var_deref. destruct (ctx_alloc c) as [[a|] c1] eqn:E;
    apply ctx_alloc_kept in E as [K _]; exact K.
Qed.

Lemma new_record_deref_kept record field (c : hlsl_parse_ctx) :
  reports_kept c (snd (new_record_deref record field c)).
Proof.
  unfold new_record_deref. destruct (deref_src record); [|apply reports_kept_refl].
  destruct (ctx_alloc c) as [[a|] c1] eqn:E;
    apply ctx_alloc_kept in E as [K _]; exact K.
Qed.

Lemma make_assignment_kept lhs rhs (c : hlsl_parse_ctx) :
  reports_kept c (snd (make_assignment lhs rhs c)).
Proof.
  unfold make_assignment. destruct (deref_src lhs); [|apply reports_kept_refl].
  destruct (ctx_alloc c) as [[a|] c1] eqn:E;
    apply ctx_alloc_kept in E as [K _]; exact K.
Qed.

Lemma struct_var_initializer_fields_kept var var_type fields :
  forall args instrs (c : hlsl_parse_ctx) l c',
    struct_var_initializer_fields var var_type fields args instrs c = Some (l, c') ->
    reports_kept c c' /\ instrs `prefix_of` l.
Proof.
  induction fields as [|field fields' IH]; intros args instrs c l c' H; simpl in H.
  - inversion H. subst. split; [apply reports_kept_refl|reflexivity].
  - destruct args as [|node args'];
      [inversion H; subst; split; [apply reports_kept_refl|reflexivity]|].
    destruct (components_count_type (field_type field) =? node_components node);
      [|exact (IH _ _ _ _ _ H)].
    pose proof (new_var_deref_kept var var_type c) as K1.
    destruct (new_var_deref var var_type c) as [[var_deref|] c1]; [|discriminate].
    pose proof (new_record_deref_kept var_deref field c1) as K2.
    destruct (new_record_deref var_deref field c1) as [[deref|] c2]; simpl in K1, K2.
    + pose proof (make_assignment_kept (set_node_loc deref (node_loc node)) node c2) as K3.
      destruct (make_assignment (set_node_loc deref (node_loc node)) node c2)
        as [[assignment|] c3]; [|discriminate].
      simpl in K3. apply IH in H as [K4 P4]. split.
      * exact (reports_kept_trans _ _ _ K1
                 (reports_kept_trans _ _ _ K2 (reports_kept_trans _ _ _ K3 K4))).
      * etrans; [apply prefix_app_r; reflexivity|exact P4].
    + inversion H. subst. split; [exact (reports_kept_trans _ _ _ K1 K2)|reflexivity].
Qed.

Lemma struct_var_initializer_kept instrs var var_decl initializer
    (c : hlsl_parse_ctx) l c' :
  struct_var_initializer instrs var var_decl initializer c = Some (l, c') ->
  reports_kept c c' /\ instrs `prefix_of` l.
Proof.
  unfold struct_var_initializer.
  destruct (negb (initializer_size initializer
                  =? components_count_type (ivar_data_type var_decl))).
  - intros H. inversion H. subst.
    split; [apply hlsl_report_message_kept|reflexivity].
  - intros H. apply struct_var_initializer_fields_kept in H as [K P].
    split; [exact K|]. etrans; [apply prefix_app_r; reflexivity|exact P].
Qed.

Lemma declare_var_kept basic_type modifiers v statements (c : hlsl_parse_ctx) l c' :
  declare_var basic_type modifiers v statements c = Some (l, c') ->
  reports_kept c c' /\ statements `prefix_of` l.
Proof.
  unfold declare_var.
  destruct (ctx_alloc c) as [[var|] c1] eqn:E;
    apply ctx_alloc_kept in E as [K1 _];
    [|intros H; inversion H; subst; split; [exact K1|reflexivity]].
  set (type := if negb (v_array_size v =? 0)
               then new_array_type basic_type (v_array_size v) else basic_type).
  set (m1 := if is_global_scope c1 then Z.lor modifiers HLSL_STORAGE_UNIFORM
             else modifiers).
  set (decl := mk_hlsl_ir_var type (v_loc v) (v_name v) m1 (v_semantic v)
                 (v_reg_reservation v) 0 0).
  destruct (has_bits (ty_modifiers type) HLSL_MODIFIER_CONST
            && negb (has_bits m1 HLSL_STORAGE_UNIFORM)
            && (args_count (v_initializer v) =? 0)).
  { intros H. inversion H. subst.
    split; [apply report_kept_after, K1|reflexivity]. }
  pose proof (declare_variable_kept var decl (negb (is_global_scope c1)) c1) as K2.
  destruct (declare_variable var decl (negb (is_global_scope c1)) c1) as [ret c2].
  simpl in K2. pose proof (reports_kept_trans _ _ _ K1 K2) as K3.
  assert (Hsame : forall l0 c0, Some (statements, c2) = Some (l0, c0) ->
            reports_kept c c0 /\ statements `prefix_of` l0)
    by (intros l0 c0 H; inversion H; subst; split; [exact K3|reflexivity]).
  assert (Hreport : forall loc0 level text l0 c0,
            Some (statements, hlsl_report_message loc0 level text c2) = Some (l0, c0) ->
            reports_kept c c0 /\ statements `prefix_of` l0)
    by (intros loc0 level text l0 c0 H; inversion H; subst;
        split; [apply report_kept_after, K3|reflexivity]).
  destruct (negb ret); [apply Hsame|].
  destruct (args_count (v_initializer v) =? 0); [apply Hsame|].
  match goal with |- (if ?b then _ else _) = _ -> _ => destruct b end;
    [apply Hreport|].
  match goal with |- (if ?b then _ else _) = _ -> _ => destruct b end;
    [apply Hreport|].
  destruct (class_eqb (ty_type type) HLSL_CLASS_STRUCT).
  { intros H. apply struct_var_initializer_kept in H as [K4 P4].
    split; [exact (reports_kept_trans _ _ _ K3 K4)|exact P4]. }
  destruct (negb (class_leb (ty_type type) HLSL_CLASS_LAST_NUMERIC)); [apply Hsame|].
  destruct (v_array_size v >? 0); [apply Hsame|].
  destruct (args_count (v_initializer v) >? 1); [apply Hsame|].
  pose proof (new_var_deref_kept var type c2) as K4.
  destruct (new_var_deref var type c2) as [[deref|] c3]; [|discriminate].
  destruct (init_args (v_initializer v)) as [|arg0 args]; [discriminate|].
  pose proof (make_assignment_kept deref arg0 c3) as K5.
  destruct (make_assignment deref arg0 c3) as [[assignment|] c4]; [|discriminate].
  simpl in K4, K5. intros H. inversion H. subst. split.
  - exact (reports_kept_trans _ _ _ K3 (reports_kept_trans _ _ _ K4 K5)).
  - rewrite <- app_assoc. apply prefix_app_r. reflexivity.
Qed.

Lemma declare_vars_loop_kept basic_type modifiers var_list :
  forall statements (c : hlsl_parse_ctx) l c',
    declare_vars_loop basic_type modifiers var_list statements c = Some (l, c') ->
    reports_kept c c' /\ statements `prefix_of` l.
Proof.
  induction var_list as [|v rest IH]; intros statements c l c' H; simpl in H.
  - inversion H. subst. split; [apply reports_kept_refl|reflexivity].
  - destruct (declare_var basic_type modifiers v statements c) as [[l1 c1]|] eqn:E;
      [|discriminate].
    apply declare_var_kept in E as [K1 P1]. apply IH in H as [K2 P2].
    split; [exact (reports_kept_trans _ _ _ K1 K2)|etrans; eassumption].
Qed.

Lemma declare_vars_kept basic_type modifiers var_list (c : hlsl_parse_ctx) r c' :
  declare_vars basic_type modifiers var_list c = completes (r, c') ->
  reports_kept c c'.
Proof.
  unfold declare_vars. destruct (ctx_alloc c) as [statements_list c1] eqn:E.
  apply ctx_alloc_kept in E as [K1 _].
  match goal with |- (if ?b then _ else _) = _ -> _ => destruct b end; [discriminate|].
  destruct statements_list; [|intros H; inversion H; subst; exact K1].
  destruct var_list as [var_list|]; [|intros H; inversion H; subst; exact K1].
  destruct (declare_vars_loop basic_type modifiers var_list [] c1) as [[l c2]|] eqn:E;
    [|discriminate].
  apply declare_vars_loop_kept in E as [K2 _].
  intros H. inversion H. subst. exact (reports_kept_trans _ _ _ K1 K2).
Qed.

(** X10.  The rule [declaration], when it completes (also by [YYABORT]),
    never takes back a diagnostic: the messages reported before are the first
    messages afterwards, a status of error stays, and the function table and
    the default majority are as they were. *)
Theorem declaration_keeps_reports (kws : list (modifier_keyword * source_location))
    (type : hlsl_type) (variables_def : list parse_variable_def)
    (loc : source_location) (c : hlsl_parse_ctx)
    (r : option (option (list hlsl_ir_node))) (c' : hlsl_parse_ctx) :
  declaration kws type variables_def loc c = completes (r, c') ->
  reports_kept c c'.
Proof.
  unfold declaration. pose proof (var_modifiers_kept kws c) as K1.
  destruct (var_modifiers kws c) as [modifiers c1]. simpl in K1.
  pose proof (apply_type_modifiers_kept type modifiers loc c1) as K2.
  destruct (apply_type_modifiers type modifiers loc c1) as [[[type1|] modifiers1] c2];
    simpl in K2.
  - destruct (declare_vars type1 modifiers1 (Some variables_def) c2) as [[l c3]|] eqn:E;
      [|discriminate].
    apply declare_vars_kept in E. intros H. inversion H. subst.
    exact (reports_kept_trans _ _ _ K1 (reports_kept_trans _ _ _ K2 E)).
  - intros H. inversion H. subst. exact (reports_kept_trans _ _ _ K1 K2).
Qed.

Lemma declaration_keeps_reports_witness :
  reports_kept sample_ctx (snd (outcome_value (None, sample_ctx) declaration_of_m)).
Proof.
  apply (declaration_keeps_reports two_majorities (predefined_type "float4x4")
           [plain_declarator "m" (sample_loc 2 33)] (sample_loc 2 1) sample_ctx
           (fst (outcome_value (None, sample_ctx) declaration_of_m))).
  vm_compute. reflexivity.
Defined.

(** ** Declaring a variable *)

Lemma find_app_last {A : Type} (p : A -> bool) (l : list A) (a : A) :
  p a = true -> (forall x, x ∈ l -> p x = true -> x = a) ->
  find p (l ++ [a]) = Some a.
Proof.
  intros Ha. induction l as [|y r IH]; intros Hl; simpl.
  - rewrite Ha. reflexivity.
  - destruct (p y) eqn:Ey.
    + f_equal. apply Hl; [left|exact Ey].
    + apply IH. intros x Hx. apply Hl. right. exact Hx.
Qed.

Lemma find_none_elem {A : Type} (p : A -> bool) (l : list A) (x : A) :
  find p l = None -> x ∈ l -> p x = false.
Proof.
  intros Hf Hx. apply list_elem_of_In in Hx. exact (find_none p l Hf x Hx).
Qed.

Lemma add_declaration_true a decl local_var (c c' : hlsl_parse_ctx) :
  add_declaration a decl local_var c = (true, c') ->
  ctx_vars c' !! a = Some decl /\ get_variable c' (ivar_name decl) = Some a.
Proof.
  unfold add_declaration. destruct (ctx_scopes c) as [|s upper] eqn:Es; [discriminate|].
  destruct (find (var_named c (ivar_name decl)) (scope_vars s)) eqn:Ef; [discriminate|].
  intros H. inversion H. subst c'. clear H.
  split; [simpl; apply lookup_insert_eq|].
  unfold get_variable. simpl.
  rewrite find_app_last; [reflexivity| |].
  - unfold var_named. simpl. rewrite lookup_insert_eq. apply String.eqb_refl.
  - intros x Hx Hp. destruct (decide (x = a)) as [->|Hne]; [reflexivity|].
    pose proof (find_none_elem _ _ x Ef Hx) as Hfalse.
    unfold var_named in Hp, Hfalse. simpl in Hp.
    rewrite lookup_insert_ne in Hp by (intros Heq; apply Hne; symmetry; exact Heq).
    congruence.
Qed.

Lemma add_declaration_false a decl local_var (c c' : hlsl_parse_ctx) :
  add_declaration a decl local_var c = (false, c') ->
  c' = c /\ (ctx_scopes c <> [] -> is_Some (get_variable c (ivar_name decl))).
Proof.
  unfold add_declaration, get_variable.
  destruct (ctx_scopes c) as [|s upper] eqn:Es.
  - intros H. inversion H. split; [reflexivity|]. intros Hn. contradiction.
  - destruct (find (var_named c (ivar_name decl)) (scope_vars s)) eqn:Ef; [|discriminate].
    intros H. inversion H. subst c'. split; [reflexivity|]. intros _.
    cbn [get_variable_from]. rewrite Ef. eauto.
Qed.

(** X11.  When [declare_variable] accepts a variable, the variable is in the
    store at its address and [get_variable] finds that address under the
    variable's name from the current scope; a local variable so accepted has
    no semantic, and a global one does not bear the name of a function. *)
Theorem declare_variable_declares (a : Z) (decl : hlsl_ir_var) (local : bool)
    (c c' : hlsl_parse_ctx) :
  declare_variable a decl local c = (true, c') ->
  ctx_vars c' !! a = Some decl
  /\ get_variable c' (ivar_name decl) = Some a
  /\ (if local then ivar_semantic decl = None
      else find_function (ivar_name decl) c = false).
Proof.
  unfold declare_variable.
  set (c1 := if negb (class_eqb (ty_type (ivar_data_type decl)) HLSL_CLASS_MATRIX)
             then check_invalid_matrix_modifiers (ivar_modifiers decl) (ivar_loc decl) c
             else c).
  assert (Hfun : ctx_functions c1 = ctx_functions c).
  { subst c1. destruct (negb (class_eqb (ty_type (ivar_data_type decl)) HLSL_CLASS_MATRIX));
      [|reflexivity].
    apply (check_invalid_matrix_modifiers_kept (ivar_modifiers decl) (ivar_loc decl) c). }
  assert (Hafter : forall c2,
            (let '(ret, c3) := add_declaration a decl local c2 in
             if negb ret then
               match get_variable c3 (ivar_name decl) with
               | Some old_addr =>
                   let c4 :=
                     hlsl_report_message (ivar_loc decl) HLSL_LEVEL_ERROR
                       (dquote +:+ ivar_name decl +:+ dquote +:+ " already declared")
                       c3 in
                   let old_loc :=
                     default no_location (ivar_loc <$> ctx_vars c4 !! old_addr) in
                   let old_name :=
                     default EmptyString (ivar_name <$> ctx_vars c4 !! old_addr) in
                   (false,
                    hlsl_report_message old_loc HLSL_LEVEL_NOTE
                      (dquote +:+ old_name +:+ dquote
                       +:+ " was previously declared here") c4)
               | None => (false, c3)
               end
             else (true, c3)) = (true, c') ->
            ctx_vars c' !! a = Some decl
            /\ get_variable c' (ivar_name decl) = Some a).
  { intros c2. destruct (add_declaration a decl local c2) as [[|] c3] eqn:E; simpl.
    - intros H. inversion H. subst c3. exact (add_declaration_true _ _ _ _ _ E).
    - destruct (get_variable c3 (ivar_name decl)); discriminate. }
  destruct local.
  - destruct (ivar_semantic decl); [discriminate|].
    intros H. apply Hafter in H as [Hv Hg]. auto.
  - destruct (find_function (ivar_name decl) c1) eqn:Ef; [discriminate|].
    intros H. apply Hafter in H as [Hv Hg]. split; [exact Hv|]. split; [exact Hg|].
    unfold find_function in Ef |- *. rewrite <- Hfun. exact Ef.
Qed.

Lemma declare_variable_declares_witness :
  ctx_vars (snd (declare_variable 4096 sample_local_var true sample_local_ctx)) !! 4096
  = Some sample_local_var
  /\ get_variable (snd (declare_variable 4096 sample_local_var true sample_local_ctx))
       (ivar_name sample_local_var) = Some 4096
  /\ ivar_semantic sample_local_var = None.
Proof.
  apply (declare_variable_declares 4096 sample_local_var true sample_local_ctx).
  vm_compute. reflexivity.
Defined.

Lemma report_error_never_fails loc text (c : hlsl_parse_ctx) :
  never_fails c ->
  never_fails (hlsl_report_message loc HLSL_LEVEL_ERROR text c)
  /\ ctx_status (hlsl_report_message loc HLSL_LEVEL_ERROR text c) = PARSE_ERR.
Proof.
  intros Hn. destruct (report_never_fails loc HLSL_LEVEL_ERROR text c Hn) as (N & _ & S).
  auto.
Qed.

Lemma report_note_never_fails loc text (c : hlsl_parse_ctx) :
  never_fails c ->
  ctx_status (hlsl_report_message loc HLSL_LEVEL_NOTE text c) = ctx_status c.
Proof.
  intros Hn. destruct (report_never_fails loc HLSL_LEVEL_NOTE text c Hn) as (N & _ & S).
  exact S.
Qed.

(** X12.  When [declare_variable] refuses a variable, nothing is declared:
    the scopes and the variables are as they were; and (inside a scope, with
    no allocation failing) the refusal comes with an error, so the parse
    cannot end in success. *)
Theorem declare_variable_refuses (a : Z) (decl : hlsl_ir_var) (local : bool)
    (c c' : hlsl_parse_ctx) :
  declare_variable a decl local c = (false, c') ->
  ctx_scopes c' = ctx_scopes c
  /\ ctx_vars c' = ctx_vars c
  /\ (ctx_scopes c <> [] -> never_fails c -> ctx_status c' = PARSE_ERR).
Proof.
  unfold declare_variable.
  set (c1 := if negb (class_eqb (ty_type (ivar_data_type decl)) HLSL_CLASS_MATRIX)
             then check_invalid_matrix_modifiers (ivar_modifiers decl) (ivar_loc decl) c
             else c).
  assert (H1 : ctx_scopes c1 = ctx_scopes c /\ ctx_vars c1 = ctx_vars c
               /\ (never_fails c -> never_fails c1)).
  { subst c1. destruct (negb (class_eqb (ty_type (ivar_data_type decl)) HLSL_CLASS_MATRIX));
      [|auto].
    destruct (check_invalid_matrix_modifiers_kept (ivar_modifiers decl) (ivar_loc decl) c)
      as (_ & S & V).
    split; [exact S|]. split; [exact V|].
    unfold check_invalid_matrix_modifiers.
    destruct (has_bits (ivar_modifiers decl) HLSL_MODIFIERS_MAJORITY_MASK); [|auto].
    intros Hn. apply report_error_never_fails, Hn. }
  destruct H1 as (S1 & V1 & N1).
  assert (Hafter : forall c2,
            ctx_scopes c2 = ctx_scopes c -> ctx_vars c2 = ctx_vars c ->
            (never_fails c -> never_fails c2) ->
            (let '(ret, c3) := add_declaration a decl local c2 in
             if negb ret then
               match get_variable c3 (ivar_name decl) with
               | Some old_addr =>
                   let c4 :=
                     hlsl_report_message (ivar_loc decl) HLSL_LEVEL_ERROR
                       (dquote +:+ ivar_name decl +:+ dquote +:+ " already declared")
                       c3 in
                   let old_loc :=
                     default no_location (ivar_loc <$> ctx_vars c4 !! old_addr) in
                   let old_name :=
                     default EmptyString (ivar_name <$> ctx_vars c4 !! old_addr) in
                   (false,
                    hlsl_report_message old_loc HLSL_LEVEL_NOTE
                      (dquote +:+ old_name +:+ dquote
                       +:+ " was previously declared here") c4)
               | None => (false, c3)
               end
             else (true, c3)) = (false, c') ->
            ctx_scopes c' = ctx_scopes c
            /\ ctx_vars c' = ctx_vars c
            /\ (ctx_scopes c <> [] -> never_fails c -> ctx_status c' = PARSE_ERR)).
  { intros c2 S2 V2 N2.
    destruct (add_declaration a decl local c2) as [[|] c3] eqn:E; simpl; [discriminate|].
    apply add_declaration_false in E as [-> Hfound].
    destruct (get_variable c2 (ivar_name decl)) as [old_addr|] eqn:Eg.
    - intros H. inversion H. subst c'. clear H.
      match goal with |- context [hlsl_report_message ?l HLSL_LEVEL_NOTE ?t ?c4] =>
        destruct (hlsl_report_message_kept l HLSL_LEVEL_NOTE t c4) as (_ & Sn & Vn);
        pose proof (report_note_never_fails l t c4) as Hnote
      end.
      destruct (hlsl_report_message_kept (ivar_loc decl) HLSL_LEVEL_ERROR
                  (dquote +:+ ivar_name decl +:+ dquote +:+ " already declared") c2)
        as (_ & Se & Ve).
      split; [congruence|]. split; [congruence|].
      intros _ Hn.
      destruct (report_error_never_fails (ivar_loc decl)
                  (dquote +:+ ivar_name decl +:+ dquote +:+ " already declared") c2
                  (N2 Hn)) as [Ne Ee].
      rewrite (Hnote Ne). exact Ee.
    - intros H. inversion H. subst c'. split; [exact S2|]. split; [exact V2|].
      intros Hne _. rewrite <- S2 in Hne. destruct (Hfound Hne) as [x Hx]. discriminate Hx. }
  assert (Hreport : forall text c2,
            ctx_scopes c2 = ctx_scopes c -> ctx_vars c2 = ctx_vars c ->
            (never_fails c -> never_fails c2) ->
            (false, hlsl_report_message (ivar_loc decl) HLSL_LEVEL_ERROR text c2)
            = (false, c') ->
            ctx_scopes c' = ctx_scopes c
            /\ ctx_vars c' = ctx_vars c
            /\ (ctx_scopes c <> [] -> never_fails c -> ctx_status c' = PARSE_ERR)).
  { intros text c2 S2 V2 N2 H. inversion H. subst c'.
    destruct (hlsl_report_message_kept (ivar_loc decl) HLSL_LEVEL_ERROR text c2)
      as (_ & Se & Ve).
    split; [congruence|]. split; [congruence|].
    intros _ Hn. apply report_error_never_fails, N2, Hn. }
  destruct local.
  - match goal with |- context [match ivar_semantic decl with
                                | Some _ => (false, hlsl_report_message _ _ _ ?c2)
                                | None => _ end] =>
      assert (H2 : ctx_scopes c2 = ctx_scopes c /\ ctx_vars c2 = ctx_vars c
                   /\ (never_fails c -> never_fails c2))
    end.
    { destruct (negb (Z.land (ivar_modifiers decl) local_invalid_modifiers =? 0));
        [|auto].
      match goal with |- context [hlsl_report_message ?l HLSL_LEVEL_ERROR ?t c1] =>
        destruct (hlsl_report_message_kept l HLSL_LEVEL_ERROR t c1) as (_ & Se & Ve)
      end.
      split; [congruence|]. split; [congruence|].
      intros Hn. apply report_error_never_fails, N1, Hn. }
    destruct H2 as (S2 & V2 & N2).
    destruct (ivar_semantic decl); [apply Hreport|apply Hafter]; assumption.
  - destruct (find_function (ivar_name decl) c1);
      [apply Hreport|apply Hafter]; assumption.
Qed.

Lemma declare_variable_refuses_witness :
  ctx_scopes (snd (declare_variable 4096 sample_local_var_semantic true sample_local_ctx))
  = ctx_scopes sample_local_ctx
  /\ ctx_vars (snd (declare_variable 4096 sample_local_var_semantic true
                      sample_local_ctx))
     = ctx_vars sample_local_ctx
  /\ (ctx_scopes sample_local_ctx <> [] -> never_fails sample_local_ctx ->
      ctx_status (snd (declare_variable 4096 sample_local_var_semantic true
                         sample_local_ctx)) = PARSE_ERR).
Proof.
  apply (declare_variable_refuses 4096 sample_local_var_semantic true sample_local_ctx).
  vm_compute. reflexivity.
Defined.

(** ** The variables [declare_vars] stores *)

Lemma same_scopes_refl (c : hlsl_parse_ctx) : same_scopes c c.
Proof. split; reflexivity. Qed.

Lemma same_scopes_trans (c1 c2 c3 : hlsl_parse_ctx) :
  same_scopes c1 c2 -> same_scopes c2 c3 -> same_scopes c1 c3.
Proof. intros [S1 V1] [S2 V2]. split; congruence. Qed.

Lemma ctx_alloc_same (c c1 : hlsl_parse_ctx) (p : option Z) :
  ctx_alloc c = (p, c1) -> same_scopes c c1.
Proof. intros H. apply ctx_alloc_kept in H as (_ & S & V). split; assumption. Qed.

Lemma hlsl_report_message_same loc level text (c : hlsl_parse_ctx) :
  same_scopes c (hlsl_report_message loc level text c).
Proof. exact (proj2 (hlsl_report_message_kept loc level text c)). Qed.

Lemma report_same_after loc level text (c c1 : hlsl_parse_ctx) :
  same_scopes c c1 -> same_scopes c (hlsl_report_message loc level text c1).
Proof.
  intros H. apply (same_scopes_trans _ _ _ H), hlsl_report_message_same.
Qed.

Lemma new_var_deref_same var var_type (c : hlsl_parse_ctx) :
  same_scopes c (snd (new_var_deref var var_type c)).
Proof.
  unfold new_var_deref. destruct (ctx_alloc c) as [[a|] c1] eqn:E;
    apply ctx_alloc_same in E; exact E.
Qed.

Lemma new_record_deref_same record field (c : hlsl_parse_ctx) :
  same_scopes c (snd (new_record_deref record field c)).
Proof.
  unfold new_record_deref. destruct (deref_src record); [|apply same_scopes_refl].
  destruct (ctx_alloc c) as [[a|] c1] eqn:E; apply ctx_alloc_same in E; exact E.
Qed.

Lemma make_assignment_same lhs rhs (c : hlsl_parse_ctx) :
  same_scopes c (snd (make_assignment lhs rhs c)).
Proof.
  unfold make_assignment. destruct (deref_src lhs); [|apply same_scopes_refl].
  destruct (ctx_alloc c) as [[a|] c1] eqn:E; apply ctx_alloc_same in E; exact E.
Qed.

Lemma struct_var_initializer_fields_same var var_type fields :
  forall args instrs (c : hlsl_parse_ctx) l c',
    struct_var_initializer_fields var var_type fields args instrs c = Some (l, c') ->
    same_scopes c c'.
Proof.
  induction fields as [|field fields' IH]; intros args instrs c l c' H; simpl in H.
  - inversion H. subst. apply same_scopes_refl.
  - destruct args as [|node args']; [inversion H; subst; apply same_scopes_refl|].
    destruct (components_count_type (field_type field) =? node_components node);
      [|exact (IH _ _ _ _ _ H)].
    pose proof (new_var_deref_same var var_type c) as K1.
    destruct (new_var_deref var var_type c) as [[var_deref|] c1]; [|discriminate].
    pose proof (new_record_deref_same var_deref field c1) as K2.
    destruct (new_record_deref var_deref field c1) as [[deref|] c2]; simpl in K1, K2.
    + pose proof (make_assignment_same (set_node_loc deref (node_loc node)) node c2) as K3.
      destruct (make_assignment (set_node_loc deref (node_loc node)) node c2)
        as [[assignment|] c3]; [|discriminate].
      simpl in K3. apply IH in H.
      exact (same_scopes_trans _ _ _ K1
               (same_scopes_trans _ _ _ K2 (same_scopes_trans _ _ _ K3 H))).
    + inversion H. subst. exact (same_scopes_trans _ _ _ K1 K2).
Qed.

Lemma struct_var_initializer_same instrs var var_decl initializer
    (c : hlsl_parse_ctx) l c' :
  struct_var_initializer instrs var var_decl initializer c = Some (l, c') ->
  same_scopes c c'.
Proof.
  unfold struct_var_initializer.
  destruct (negb (initializer_size initializer
                  =? components_count_type (ivar_data_type var_decl))).
  - intros H. inversion H. subst. apply hlsl_report_message_same.
  - apply struct_var_initializer_fields_same.
Qed.

Lemma same_scopes_grows (P : hlsl_ir_var -> Prop) (c c' : hlsl_parse_ctx) :
  same_scopes c c' -> store_grows P c c'.
Proof.
  intros [S V]. split; [unfold is_global_scope; rewrite S; reflexivity|].
  intros a d Hd. left. rewrite <- V. exact Hd.
Qed.

Lemma store_grows_trans (P : hlsl_ir_var -> Prop) (c1 c2 c3 : hlsl_parse_ctx) :
  store_grows P c1 c2 -> store_grows P c2 c3 -> store_grows P c1 c3.
Proof.
  intros [G1 V1] [G2 V2]. split; [congruence|].
  intros a d Hd. destruct (V2 a d Hd) as [H|H]; [exact (V1 a d H)|right; exact H].
Qed.

Lemma store_grows_weaken (P Q : hlsl_ir_var -> Prop) (c c' : hlsl_parse_ctx) :
  (forall d, P d -> Q d) -> store_grows P c c' -> store_grows Q c c'.
Proof.
  intros HPQ [G V]. split; [exact G|].
  intros a d Hd. destruct (V a d Hd) as [H|H]; [left; exact H|right; exact (HPQ d H)].
Qed.

Lemma add_declaration_grows a decl local_var (c : hlsl_parse_ctx) :
  store_grows (eq decl) c (snd (add_declaration a decl local_var c)).
Proof.
  unfold add_declaration. destruct (ctx_scopes c) as [|s upper] eqn:Es; simpl;
    [apply same_scopes_grows, same_scopes_refl|].
  destruct (find (var_named c (ivar_name decl)) (scope_vars s)); simpl;
    [apply same_scopes_grows, same_scopes_refl|].
  split.
  - unfold is_global_scope. simpl. rewrite Es. reflexivity.
  - intros x d. simpl. rewrite lookup_insert.
    destruct (decide (a = x)); [intros H; inversion H; right; reflexivity|auto].
Qed.

Lemma declare_variable_grows a decl local (c : hlsl_parse_ctx) :
  store_grows (eq decl) c (snd (declare_variable a decl local c)).
Proof.
  unfold declare_variable.
  set (c1 := if negb (class_eqb (ty_type (ivar_data_type decl)) HLSL_CLASS_MATRIX)
             then check_invalid_matrix_modifiers (ivar_modifiers decl) (ivar_loc decl) c
             else c).
  assert (K1 : same_scopes c c1).
  { subst c1. destruct (negb (class_eqb (ty_type (ivar_data_type decl)) HLSL_CLASS_MATRIX));
      [|apply same_scopes_refl].
    exact (proj2 (check_invalid_matrix_modifiers_kept _ _ c)). }
  assert (Hafter : forall c2, same_scopes c c2 ->
            store_grows (eq decl) c
              (snd (let '(ret, c3) := add_declaration a decl local c2 in
                    if negb ret then
                      match get_variable c3 (ivar_name decl) with
                      | Some old_addr =>
                          let c4 :=
                            hlsl_report_message (ivar_loc decl) HLSL_LEVEL_ERROR
                              (dquote +:+ ivar_name decl +:+ dquote +:+ " already declared")
                              c3 in
                          let old_loc :=
                            default no_location (ivar_loc <$> ctx_vars c4 !! old_addr) in
                          let old_name :=
                            default EmptyString (ivar_name <$> ctx_vars c4 !! old_addr) in
                          (false,
                           hlsl_report_message old_loc HLSL_LEVEL_NOTE
                             (dquote +:+ old_name +:+ dquote
                              +:+ " was previously declared here") c4)
                      | None => (false, c3)
                      end
                    else (true, c3)))).
  { intros c2 K2. pose proof (add_declaration_grows a decl local c2) as K3.
    destruct (add_declaration a decl local c2) as [ret c3]. simpl in K3.
    pose proof (store_grows_trans _ _ _ _ (same_scopes_grows (eq decl) _ _ K2) K3) as K4.
    destruct ret; simpl; [exact K4|].
    destruct (get_variable c3 (ivar_name decl)); simpl; [|exact K4].
    apply (store_grows_trans _ _ _ _ K4), same_scopes_grows.
    apply report_same_after, hlsl_report_message_same. }
  destruct local.
  - match goal with |- context [match ivar_semantic decl with
                                | Some _ => (false, hlsl_report_message _ _ _ ?c2)
                                | None => _ end] =>
      assert (K2 : same_scopes c c2)
        by (destruct (negb (Z.land (ivar_modifiers decl) local_invalid_modifiers =? 0));
            [apply report_same_after|]; exact K1)
    end.
    destruct (ivar_semantic decl);
      [simpl; apply same_scopes_grows, report_same_after, K2|apply Hafter, K2].
  - destruct (find_function (ivar_name decl) c1);
      [simpl; apply same_scopes_grows, report_same_after, K1|apply Hafter, K1].
Qed.

Lemma declare_var_grows basic_type modifiers v statements (c : hlsl_parse_ctx) l c' :
  declare_var basic_type modifiers v statements c = Some (l, c') ->
  store_grows (eq (declared_var basic_type modifiers v c)) c c'.
Proof.
  unfold declare_var, declared_var, declared_type, declared_modifiers.
  destruct (ctx_alloc c) as [[var|] c1] eqn:E; apply ctx_alloc_same in E as K1;
    [|intros H; inversion H; subst; apply same_scopes_grows, K1].
  assert (Hg : is_global_scope c1 = is_global_scope c)
    by (unfold is_global_scope; rewrite (proj1 K1); reflexivity).
  rewrite Hg.
  set (type := if negb (v_array_size v =? 0)
               then new_array_type basic_type (v_array_size v) else basic_type).
  set (m1 := if is_global_scope c then Z.lor modifiers HLSL_STORAGE_UNIFORM
             else modifiers).
  set (decl := mk_hlsl_ir_var type (v_loc v) (v_name v) m1 (v_semantic v)
                 (v_reg_reservation v) 0 0).
  destruct (has_bits (ty_modifiers type) HLSL_MODIFIER_CONST
            && negb (has_bits m1 HLSL_STORAGE_UNIFORM)
            && (args_count (v_initializer v) =? 0)).
  { intros H. inversion H. subst.
    apply same_scopes_grows, report_same_after, K1. }
  pose proof (declare_variable_grows var decl (negb (is_global_scope c)) c1) as K2.
  destruct (declare_variable var decl (negb (is_global_scope c)) c1) as [ret c2].
  simpl in K2.
  pose proof (store_grows_trans _ _ _ _ (same_scopes_grows (eq decl) _ _ K1) K2) as K3.
  assert (Hafter : forall c0, same_scopes c2 c0 -> store_grows (eq decl) c c0)
    by (intros c0 K0; apply (store_grows_trans _ _ _ _ K3), same_scopes_grows, K0).
  assert (Hsame : forall l0 c0, Some (statements, c2) = Some (l0, c0) ->
            store_grows (eq decl) c c0)
    by (intros l0 c0 H; inversion H; subst; exact K3).
  assert (Hreport : forall loc0 level text l0 c0,
            Some (statements, hlsl_report_message loc0 level text c2) = Some (l0, c0) ->
            store_grows (eq decl) c c0)
    by (intros loc0 level text l0 c0 H; inversion H; subst;
        apply Hafter, hlsl_report_message_same).
  destruct (negb ret); [apply Hsame|].
  destruct (args_count (v_initializer v) =? 0); [apply Hsame|].
  match goal with |- (if ?b then _ else _) = _ -> _ => destruct b end;
    [apply Hreport|].
  match goal with |- (if ?b then _ else _) = _ -> _ => destruct b end;
    [apply Hreport|].
  destruct (class_eqb (ty_type type) HLSL_CLASS_STRUCT).
  { intros H. apply struct_var_initializer_same in H. apply Hafter, H. }
  destruct (negb (class_leb (ty_type type) HLSL_CLASS_LAST_NUMERIC)); [apply Hsame|].
  destruct (v_array_size v >? 0); [apply Hsame|].
  destruct (args_count (v_initializer v) >? 1); [apply Hsame|].
  pose proof (new_var_deref_same var type c2) as K4.
  destruct (new_var_deref var type c2) as [[deref|] c3]; [|discriminate].
  destruct (init_args (v_initializer v)) as [|arg0 args]; [discriminate|].
  pose proof (make_assignment_same deref arg0 c3) as K5.
  destruct (make_assignment deref arg0 c3) as [[assignment|] c4]; [|discriminate].
  simpl in K4, K5. intros H. inversion H. subst.
  apply Hafter, (same_scopes_trans _ _ _ K4 K5).
Qed.

Lemma declared_var_scope basic_type modifiers v (c c' : hlsl_parse_ctx) :
  is_global_scope c' = is_global_scope c ->
  declared_var basic_type modifiers v c' = declared_var basic_type modifiers v c.
Proof. unfold declared_var, declared_modifiers. intros ->. reflexivity. Qed.

Lemma declare_vars_loop_grows basic_type modifiers var_list :
  forall statements (c : hlsl_parse_ctx) l c',
    declare_vars_loop basic_type modifiers var_list statements c = Some (l, c') ->
    store_grows (fun d => exists v, v ∈ var_list
                                    /\ d = declared_var basic_type modifiers v c) c c'.
Proof.
  induction var_list as [|v rest IH]; intros statements c l c' H; simpl in H.
  - inversion H. subst. apply same_scopes_grows, same_scopes_refl.
  - destruct (declare_var basic_type modifiers v statements c) as [[l1 c1]|] eqn:E;
      [|discriminate].
    apply declare_var_grows in E. apply IH in H.
    eapply store_grows_trans.
    + eapply store_grows_weaken; [|exact E].
      intros d <-. exists v. split; [left|reflexivity].
    + eapply store_grows_weaken; [|exact H].
      intros d (v' & Hin & ->). exists v'. split; [right; exact Hin|].
      apply declared_var_scope, E.
Qed.

(** X13.  Every variable the loop of [declare_vars] leaves in the store that
    was not there before is the variable of one of the declarators: its type
    is the basic type (or the array over it), its name, location, semantic and
    register reservation are the declarator's, its liveness fields are 0, and
    its modifiers are those of the declaration, with [uniform] added when the
    declaration stands at global scope. *)
Theorem declare_vars_loop_stores (basic_type : hlsl_type) (modifiers : Z)
    (var_list : list parse_variable_def) (statements : list hlsl_ir_node)
    (c : hlsl_parse_ctx) (l : list hlsl_ir_node) (c' : hlsl_parse_ctx)
    (a : Z) (d : hlsl_ir_var) :
  declare_vars_loop basic_type modifiers var_list statements c = Some (l, c') ->
  ctx_vars c' !! a = Some d ->
  ctx_vars c !! a <> Some d ->
  (exists v, v ∈ var_list /\ d = declared_var basic_type modifiers v c)
  /\ (is_global_scope c = true ->
      has_bits (ivar_modifiers d) HLSL_STORAGE_UNIFORM = true).
Proof.
  intros H Hd Hnew. apply declare_vars_loop_grows in H as [_ Hv].
  destruct (Hv a d Hd) as [Hold|(v & Hin & ->)]; [contradiction|].
  split; [exists v; auto|].
  intros Hg. unfold declared_var, declared_modifiers. simpl. rewrite Hg.
  rewrite has_bits_lor. apply orb_true_r.
Qed.

Lemma declare_vars_loop_stores_witness :
  (exists v, v ∈ [declarator_g]
             /\ declared_var (predefined_type "float") 0 declarator_g sample_ctx
                = declared_var (predefined_type "float") 0 v sample_ctx)
  /\ (is_global_scope sample_ctx = true ->
      has_bits (ivar_modifiers
                  (declared_var (predefined_type "float") 0 declarator_g sample_ctx))
        HLSL_STORAGE_UNIFORM = true).
Proof.
  apply (declare_vars_loop_stores (predefined_type "float") 0 [declarator_g] []
           sample_ctx (fst declared_g) (snd declared_g) 4096
           (declared_var (predefined_type "float") 0 declarator_g sample_ctx)).
  - vm_compute. reflexivity.
  - vm_compute. reflexivity.
  - vm_compute. discriminate.
Defined.

(** ** Types defined by [typedef] *)

Lemma add_modifiers_same modifiers md loc (c : hlsl_parse_ctx) :
  same_scopes c (snd (add_modifiers modifiers md loc c)).
Proof.
  unfold add_modifiers.
  destruct (has_bits modifiers md);
    [|destruct (has_bits md HLSL_MODIFIERS_MAJORITY_MASK
                && has_bits modifiers HLSL_MODIFIERS_MAJORITY_MASK)]; simpl;
    try apply hlsl_report_message_same; apply same_scopes_refl.
Qed.

Lemma var_modifiers_same kws (c : hlsl_parse_ctx) :
  same_scopes c (snd (var_modifiers kws c)).
Proof.
  induction kws as [|[k loc] rest IH]; simpl; [apply same_scopes_refl|].
  destruct (var_modifiers rest c) as [m c1]. simpl in IH.
  apply (same_scopes_trans _ _ _ IH), add_modifiers_same.
Qed.

Lemma clone_hlsl_type_same old default_majority (c : hlsl_parse_ctx) :
  same_scopes c (snd (clone_hlsl_type old default_majority c)).
Proof.
  unfold clone_hlsl_type. destruct (ctx_alloc c) as [[a|] c1] eqn:E;
    apply ctx_alloc_same in E; exact E.
Qed.

Lemma get_type_current (s : hlsl_scope) (upper : list hlsl_scope) (name : string) :
  get_type (s :: upper) name false = scope_types s !! name.
Proof. simpl. destruct (scope_types s !! name); reflexivity. Qed.

Lemma ctx_scopes_set (c : hlsl_parse_ctx) (scopes : list hlsl_scope) :
  ctx_scopes (set_ctx_scopes c scopes) = scopes.
Proof. reflexivity. Qed.

Lemma add_type_to_scope_types name def (c : hlsl_parse_ctx) :
  (forall n t, get_type (ctx_scopes c) n false = Some t ->
               get_type (ctx_scopes (snd (add_type_to_scope name def c))) n false = Some t)
  /\ (ctx_scopes c <> [] ->
      is_Some (get_type (ctx_scopes (snd (add_type_to_scope name def c))) name false)).
Proof.
  unfold add_type_to_scope. destruct (ctx_scopes c) as [|s upper] eqn:Es.
  - cbn [snd]. rewrite Es. split; [auto|]. intros H. contradiction.
  - destruct (get_type (s :: upper) name false) as [old|] eqn:Eg; cbn [snd].
    + rewrite Es. split; [auto|]. intros _. rewrite Eg. eauto.
    + rewrite ctx_scopes_set. rewrite get_type_current in Eg. split.
      * intros n t. rewrite !get_type_current. cbn [scope_types]. intros Hn.
        rewrite lookup_insert_ne; [exact Hn|]. intros ->. congruence.
      * intros _. rewrite get_type_current. cbn [scope_types].
        rewrite lookup_insert_eq. eauto.
Qed.

Lemma add_typedef_one_types modifiers orig_type v (c : hlsl_parse_ctx) :
  (forall n t, get_type (ctx_scopes c) n false = Some t ->
     get_type (ctx_scopes (snd (add_typedef_one modifiers orig_type v c))) n false
     = Some t)
  /\ (fst (add_typedef_one modifiers orig_type v c) = true -> ctx_scopes c <> [] ->
      is_Some (get_type (ctx_scopes (snd (add_typedef_one modifiers orig_type v c)))
                 (v_name v) false)).
Proof.
  unfold add_typedef_one.
  assert (K1 : same_scopes c
            (snd (if negb (v_array_size v =? 0)
                  then (Some (new_array_type orig_type (v_array_size v)), c)
                  else clone_hlsl_type orig_type 0 c))).
  { destruct (negb (v_array_size v =? 0)); simpl;
      [apply same_scopes_refl|apply clone_hlsl_type_same]. }
  destruct (if negb (v_array_size v =? 0)
            then (Some (new_array_type orig_type (v_array_size v)), c)
            else clone_hlsl_type orig_type 0 c) as [[type|] c1]; simpl in K1.
  2:{ simpl. rewrite (proj1 K1). split; [auto|discriminate]. }
  set (type2 := set_ty_modifiers (set_ty_name type (Some (v_name v)))
                  (Z.lor (ty_modifiers (set_ty_name type (Some (v_name v)))) modifiers)).
  assert (K2 : same_scopes c
            (snd (if negb (class_eqb (ty_type type2) HLSL_CLASS_MATRIX)
                  then (type2,
                        check_invalid_matrix_modifiers (ty_modifiers type2) (v_loc v) c1)
                  else (set_ty_reg_size type2
                          (if is_row_major type2 then ty_dimy type2 else ty_dimx type2),
                        c1)))).
  { destruct (negb (class_eqb (ty_type type2) HLSL_CLASS_MATRIX)); simpl;
      [|exact K1].
    apply (same_scopes_trans _ _ _ K1).
    exact (proj2 (check_invalid_matrix_modifiers_kept _ _ c1)). }
  destruct (if negb (class_eqb (ty_type type2) HLSL_CLASS_MATRIX)
            then (type2,
                  check_invalid_matrix_modifiers (ty_modifiers type2) (v_loc v) c1)
            else (set_ty_reg_size type2
                    (if is_row_major type2 then ty_dimy type2 else ty_dimx type2),
                  c1)) as [type3 c2]; simpl in K2.
  match goal with |- context [add_type_to_scope (v_name v) type3 ?c3] =>
    assert (K3 : same_scopes c c3)
      by (destruct (has_bits (ty_modifiers type3) HLSL_MODIFIER_COLUMN_MAJOR
                    && has_bits (ty_modifiers type3) HLSL_MODIFIER_ROW_MAJOR);
          [apply report_same_after|]; exact K2);
    destruct (add_type_to_scope_types (v_name v) type3 c3) as [T1 T2];
    destruct (add_type_to_scope (v_name v) type3 c3) as [ret c4]
  end.
  simpl in T1, T2 |- *. rewrite (proj1 K3) in T1, T2.
  assert (Hsc : ctx_scopes
                  (if ret then c4
                   else hlsl_report_message (v_loc v) HLSL_LEVEL_ERROR
                          ("redefinition of custom type '" +:+ v_name v +:+ "'") c4)
                = ctx_scopes c4)
    by (destruct ret; [reflexivity|apply hlsl_report_message_same]).
  rewrite Hsc. split; [exact T1|]. intros _. exact T2.
Qed.

Lemma add_typedef_types modifiers orig_type l :
  forall c : hlsl_parse_ctx,
    (forall n t, get_type (ctx_scopes c) n false = Some t ->
       get_type (ctx_scopes (snd (add_typedef modifiers orig_type l c))) n false = Some t)
    /\ (fst (add_typedef modifiers orig_type l c) = true -> ctx_scopes c <> [] ->
        forall v, v ∈ l ->
          is_Some (get_type (ctx_scopes (snd (add_typedef modifiers orig_type l c)))
                     (v_name v) false)).
Proof.
  induction l as [|v rest IH]; intros c; simpl.
  - split; [auto|]. intros _ _ v Hv. inversion Hv.
  - destruct (add_typedef_one_types modifiers orig_type v c) as [T1 T2].
    destruct (add_typedef_one modifiers orig_type v c) as [[|] c1]; simpl in T1, T2 |- *;
      [|split; [exact T1|discriminate]].
    destruct (IH c1) as [R1 R2]. split; [auto|].
    intros Hret Hne v' Hv'.
    assert (Hne1 : ctx_scopes c1 <> []).
    { destruct (T2 eq_refl Hne) as [t Ht]. intros Hnil. rewrite Hnil in Ht.
      discriminate Ht. }
    apply elem_of_cons in Hv' as [->|Hin]; [|exact (R2 Hret Hne1 v' Hin)].
    destruct (T2 eq_refl Hne) as [t Ht]. rewrite (R1 _ _ Ht). eauto.
Qed.

(** X14.  The rule [typedef] never redefines: a name that is a type of the
    current scope keeps the type it has (a second definition is only
    reported).  And when the rule does not abort, every name of its list is a
    type of the current scope afterwards. *)
Theorem typedef_types (kws : list (modifier_keyword * source_location))
    (typedef_type : hlsl_type) (type_specs : list parse_variable_def)
    (loc : source_location) (c : hlsl_parse_ctx) :
  (forall name t, get_type (ctx_scopes c) name false = Some t ->
     get_type (ctx_scopes (snd (typedef kws typedef_type type_specs loc c))) name false
     = Some t)
  /\ (fst (typedef kws typedef_type type_specs loc c) = true -> ctx_scopes c <> [] ->
      forall v, v ∈ type_specs ->
        is_Some (get_type (ctx_scopes (snd (typedef kws typedef_type type_specs loc c)))
                   (v_name v) false)).
Proof.
  unfold typedef. pose proof (var_modifiers_same kws c) as [K _].
  destruct (var_modifiers kws c) as [modifiers c1]. simpl in K.
  destruct (negb (clear_bits modifiers HLSL_TYPE_MODIFIERS_MASK =? 0)); simpl.
  - rewrite (proj1 (hlsl_report_message_same _ _ _ c1)), K. split; [auto|discriminate].
  - destruct (add_typedef_types modifiers typedef_type type_specs c1) as [T1 T2].
    rewrite K in T1, T2. split; assumption.
Qed.

(** ** The predefined types *)

(** X15.  After [declare_predefined_types], for each of the six scalar base
    types and all dimensions from 1 to 4, the global scope holds the matrix
    type [<base><x>x<y>] with [dimx] x and [dimy] y, the vector type
    [<base><x>] with x components, and the scalar type [<base>]: none of the
    120 names is taken by another of them. *)
Theorem declare_predefined_types_table (h : heap) (bt : hlsl_base_type)
    (name : string) (x y : Z) :
  (bt, name) ∈ scalar_base_types -> 1 <= x <= 4 -> 1 <= y <= 4 ->
  get_type (ctx_scopes (initial_ctx h)) (name +:+ pretty x +:+ "x" +:+ pretty y) true
  = Some (new_hlsl_type (Some (name +:+ pretty x +:+ "x" +:+ pretty y))
            HLSL_CLASS_MATRIX bt x y)
  /\ get_type (ctx_scopes (initial_ctx h)) (name +:+ pretty x) true
     = Some (new_hlsl_type (Some (name +:+ pretty x)) HLSL_CLASS_VECTOR bt x 1)
  /\ get_type (ctx_scopes (initial_ctx h)) name true
     = Some (new_hlsl_type (Some name) HLSL_CLASS_SCALAR bt 1 1).
Proof.
  intros Hin Hx Hy.
  assert (Hx' : x = 1 \/ x = 2 \/ x = 3 \/ x = 4) by lia.
  assert (Hy' : y = 1 \/ y = 2 \/ y = 3 \/ y = 4) by lia.
  clear Hx Hy.
  apply list_elem_of_In in Hin. unfold scalar_base_types in Hin. simpl in Hin.
  destruct Hin as [Hb|[Hb|[Hb|[Hb|[Hb|[Hb|[]]]]]]]; inversion Hb; subst bt name; clear Hb;
    destruct Hx' as [->|[->|[->| ->]]]; destruct Hy' as [->|[->|[->| ->]]];
    (split; [vm_compute; reflexivity|split; vm_compute; reflexivity]).
Qed.

Lemma declare_predefined_types_table_witness :
  get_type (ctx_scopes (initial_ctx sample_heap))
    ("half" +:+ pretty 3 +:+ "x" +:+ pretty 4) true
  = Some (new_hlsl_type (Some ("half" +:+ pretty 3 +:+ "x" +:+ pretty 4))
            HLSL_CLASS_MATRIX HLSL_TYPE_HALF 3 4)
  /\ get_type (ctx_scopes (initial_ctx sample_heap)) ("half" +:+ pretty 3) true
     = Some (new_hlsl_type (Some ("half" +:+ pretty 3)) HLSL_CLASS_VECTOR
               HLSL_TYPE_HALF 3 1)
  /\ get_type (ctx_scopes (initial_ctx sample_heap)) "half" true
     = Some (new_hlsl_type (Some "half") HLSL_CLASS_SCALAR HLSL_TYPE_HALF 1 1).
Proof.
  apply (declare_predefined_types_table sample_heap HLSL_TYPE_HALF "half" 3 4).
  - vm_compute. right. left.
  - lia.
  - lia.
Defined.

(** ** A declaration completes *)

Lemma never_fails_alloc (c : hlsl_parse_ctx) :
  never_fails c ->
  exists a c1, ctx_alloc c = (Some a, c1) /\ never_fails c1.
Proof.
  unfold never_fails, ctx_alloc, d3dcompiler_alloc.
  destruct c as [s m mm sc f vs cf [nx fails]]. simpl. intros ->.
  eexists _, _. split; reflexivity.
Qed.

Lemma never_fails_same_heap (c c' : hlsl_parse_ctx) :
  ctx_heap c' = ctx_heap c -> never_fails c -> never_fails c'.
Proof. unfold never_fails. intros ->. auto. Qed.

Lemma check_invalid_matrix_modifiers_never_fails modifiers loc (c : hlsl_parse_ctx) :
  never_fails c -> never_fails (check_invalid_matrix_modifiers modifiers loc c).
Proof.
  intros Hn. unfold check_invalid_matrix_modifiers.
  destruct (has_bits modifiers HLSL_MODIFIERS_MAJORITY_MASK); [|exact Hn].
  apply report_never_fails, Hn.
Qed.

Lemma apply_type_modifiers_never_fails type modifiers loc (c : hlsl_parse_ctx) :
  never_fails c ->
  exists t m c2,
    apply_type_modifiers type modifiers loc c = (Some t, m, c2)
    /\ never_fails c2 /\ ty_type t = ty_type type.
Proof.
  intros Hn. unfold apply_type_modifiers.
  match goal with |- context [if ?b then (Some type, modifiers, c) else _] =>
    destruct b end; [eexists _, _, _; split; [reflexivity|auto]|].
  unfold clone_hlsl_type.
  destruct (never_fails_alloc c Hn) as (a & c1 & -> & Hn1).
  match goal with |- context [add_modifiers ?tm modifiers loc c1] =>
    pose proof (add_modifiers_keeps tm modifiers loc c1 Hn1) as (Hn2 & _);
    destruct (add_modifiers tm modifiers loc c1) as [m c2]
  end.
  simpl in Hn2. eexists _, _, _. split; [reflexivity|]. split; [exact Hn2|].
  match goal with |- context [class_eqb ?x HLSL_CLASS_MATRIX] =>
    destruct (class_eqb x HLSL_CLASS_MATRIX) end;
    destruct (has_bits (ty_modifiers type) HLSL_MODIFIERS_MAJORITY_MASK);
    destruct type; reflexivity.
Qed.

Lemma declare_variable_never_fails a decl local (c : hlsl_parse_ctx) :
  never_fails c -> never_fails (snd (declare_variable a decl local c)).
Proof.
  intros Hn. unfold declare_variable.
  set (c1 := if negb (class_eqb (ty_type (ivar_data_type decl)) HLSL_CLASS_MATRIX)
             then check_invalid_matrix_modifiers (ivar_modifiers decl) (ivar_loc decl) c
             else c).
  assert (N1 : never_fails c1).
  { subst c1. destruct (negb (class_eqb (ty_type (ivar_data_type decl)) HLSL_CLASS_MATRIX));
      [apply check_invalid_matrix_modifiers_never_fails|]; exact Hn. }
  assert (Hafter : forall c2, never_fails c2 ->
            never_fails
              (snd (let '(ret, c3) := add_declaration a decl local c2 in
                    if negb ret then
                      match get_variable c3 (ivar_name decl) with
                      | Some old_addr =>
                          let c4 :=
                            hlsl_report_message (ivar_loc decl) HLSL_LEVEL_ERROR
                              (dquote +:+ ivar_name decl +:+ dquote +:+ " already declared")
                              c3 in
                          let old_loc :=
                            default no_location (ivar_loc <$> ctx_vars c4 !! old_addr) in
                          let old_name :=
                            default EmptyString (ivar_name <$> ctx_vars c4 !! old_addr) in
                          (false,
                           hlsl_report_message old_loc HLSL_LEVEL_NOTE
                             (dquote +:+ old_name +:+ dquote
                              +:+ " was previously declared here") c4)
                      | None => (false, c3)
                      end
                    else (true, c3)))).
  { intros c2 N2.
    assert (N3 : never_fails (snd (add_declaration a decl local c2))).
    { unfold add_declaration. destruct (ctx_scopes c2) as [|s upper]; [exact N2|].
      destruct (find (var_named c2 (ivar_name decl)) (scope_vars s)); exact N2. }
    destruct (add_declaration a decl local c2) as [ret c3]. simpl in N3.
    destruct ret; simpl; [exact N3|].
    destruct (get_variable c3 (ivar_name decl)); simpl; [|exact N3].
    apply report_never_fails, report_never_fails, N3. }
  destruct local.
  - match goal with |- context [match ivar_semantic decl with
                                | Some _ => (false, hlsl_report_message _ _ _ ?c2)
                                | None => _ end] =>
      assert (N2 : never_fails c2)
        by (destruct (negb (Z.land (ivar_modifiers decl) local_invalid_modifiers =? 0));
            [apply report_never_fails|]; exact N1)
    end.
    destruct (ivar_semantic decl); [simpl; apply report_never_fails, N2|].
    apply Hafter, N2.
  - destruct (find_function (ivar_name decl) c1);
      [simpl; apply report_never_fails, N1|apply Hafter, N1].
Qed.

Lemma new_var_deref_never_fails var var_type (c : hlsl_parse_ctx) :
  never_fails c ->
  exists node c1,
    new_var_deref var var_type c = (Some node, c1)
    /\ never_fails c1 /\ is_Some (deref_src node).
Proof.
  intros Hn. unfold new_var_deref.
  destruct (never_fails_alloc c Hn) as (a & c1 & -> & Hn1).
  eexists _, _. split; [reflexivity|]. split; [exact Hn1|]. simpl. eauto.
Qed.

Lemma new_record_deref_never_fails record field (c : hlsl_parse_ctx) :
  never_fails c -> is_Some (deref_src record) ->
  exists node c1,
    new_record_deref record field c = (Some node, c1)
    /\ never_fails c1 /\ forall l, is_Some (deref_src (set_node_loc node l)).
Proof.
  intros Hn [src Hsrc]. unfold new_record_deref. rewrite Hsrc.
  destruct (never_fails_alloc c Hn) as (a & c1 & -> & Hn1).
  eexists _, _. split; [reflexivity|]. split; [exact Hn1|]. intros l. simpl. eauto.
Qed.

Lemma make_assignment_never_fails lhs rhs (c : hlsl_parse_ctx) :
  never_fails c -> is_Some (deref_src lhs) ->
  exists node c1, make_assignment lhs rhs c = (Some node, c1) /\ never_fails c1.
Proof.
  intros Hn [src Hsrc]. unfold make_assignment. rewrite Hsrc.
  destruct (never_fails_alloc c Hn) as (a & c1 & -> & Hn1).
  eexists _, _. split; [reflexivity|exact Hn1].
Qed.

Lemma struct_var_initializer_fields_never_fails var var_type fields :
  forall args instrs (c : hlsl_parse_ctx),
    never_fails c ->
    exists l c',
      struct_var_initializer_fields var var_type fields args instrs c = Some (l, c')
      /\ never_fails c'.
Proof.
  induction fields as [|field fields' IH]; intros args instrs c Hn; simpl.
  - eauto.
  - destruct args as [|node args']; [eauto|].
    destruct (components_count_type (field_type field) =? node_components node);
      [|apply IH, Hn].
    destruct (new_var_deref_never_fails var var_type c Hn) as (vd & c1 & -> & N1 & S1).
    destruct (new_record_deref_never_fails vd field c1 N1 S1) as (d & c2 & -> & N2 & S2).
    destruct (make_assignment_never_fails (set_node_loc d (node_loc node)) node c2 N2
                (S2 _)) as (asg & c3 & -> & N3).
    apply IH, N3.
Qed.

Lemma declare_var_never_fails basic_type modifiers v statements (c : hlsl_parse_ctx) :
  never_fails c ->
  exists l c',
    declare_var basic_type modifiers v statements c = Some (l, c') /\ never_fails c'.
Proof.
  intros Hn. unfold declare_var.
  destruct (never_fails_alloc c Hn) as (var & c1 & -> & N1).
  set (type := if negb (v_array_size v =? 0)
               then new_array_type basic_type (v_array_size v) else basic_type).
  set (m1 := if is_global_scope c1 then Z.lor modifiers HLSL_STORAGE_UNIFORM
             else modifiers).
  set (decl := mk_hlsl_ir_var type (v_loc v) (v_name v) m1 (v_semantic v)
                 (v_reg_reservation v) 0 0).
  destruct (has_bits (ty_modifiers type) HLSL_MODIFIER_CONST
            && negb (has_bits m1 HLSL_STORAGE_UNIFORM)
            && (args_count (v_initializer v) =? 0)).
  { eexists _, _. split; [reflexivity|]. apply report_never_fails, N1. }
  pose proof (declare_variable_never_fails var decl (negb (is_global_scope c1)) c1 N1)
    as N2.
  destruct (declare_variable var decl (negb (is_global_scope c1)) c1) as [ret c2].
  simpl in N2.
  destruct (negb ret); [eauto|].
  destruct (Z.eqb_spec (args_count (v_initializer v)) 0) as [|Hargs]; [eauto|].
  match goal with |- context [if ?b then Some (statements, hlsl_report_message _ _ _ c2)
                              else _] => destruct b end;
    [eexists _, _; split; [reflexivity|apply report_never_fails, N2]|].
  match goal with |- context [if ?b then Some (statements, hlsl_report_message _ _ _ c2)
                              else _] => destruct b end;
    [eexists _, _; split; [reflexivity|apply report_never_fails, N2]|].
  destruct (class_eqb (ty_type type) HLSL_CLASS_STRUCT).
  { unfold struct_var_initializer.
    destruct (negb (initializer_size (v_initializer v)
                    =? components_count_type (ivar_data_type decl)));
      [eexists _, _; split; [reflexivity|apply report_never_fails, N2]|].
    apply struct_var_initializer_fields_never_fails, N2. }
  destruct (negb (class_leb (ty_type type) HLSL_CLASS_LAST_NUMERIC)); [eauto|].
  destruct (v_array_size v >? 0); [eauto|].
  destruct (args_count (v_initializer v) >? 1); [eauto|].
  destruct (new_var_deref_never_fails var type c2 N2) as (deref & c3 & -> & N3 & S3).
  destruct (init_args (v_initializer v)) as [|arg0 args] eqn:Eargs.
  { exfalso. apply Hargs. unfold args_count. rewrite Eargs. reflexivity. }
  destruct (make_assignment_never_fails deref arg0 c3 N3 S3) as (asg & c4 & -> & N4).
  eauto.
Qed.

Lemma declare_vars_loop_never_fails basic_type modifiers var_list :
  forall statements (c : hlsl_parse_ctx),
    never_fails c ->
    exists l c',
      declare_vars_loop basic_type modifiers var_list statements c = Some (l, c')
      /\ never_fails c'.
Proof.
  induction var_list as [|v rest IH]; intros statements c Hn; simpl; [eauto|].
  destruct (declare_var_never_fails basic_type modifiers v statements c Hn)
    as (l1 & c1 & -> & N1).
  apply IH, N1.
Qed.

(** X16.  When no allocation fails, the rule [declaration] completes with a
    statement list for every list of declarators, provided that, for a matrix
    type, the type does not carry both majorities and none of its modifiers
    is repeated in the declaration: the assertion of [declare_vars] holds and
    no null pointer is dereferenced. *)
Theorem declaration_completes (kws : list (modifier_keyword * source_location))
    (type : hlsl_type) (variables_def : list parse_variable_def)
    (loc : source_location) (c : hlsl_parse_ctx) :
  never_fails c ->
  (ty_type type = HLSL_CLASS_MATRIX ->
   majority_consistent (ty_modifiers type) = true
   /\ has_bits (ty_modifiers type) (fst (var_modifiers kws c)) = false) ->
  exists l c',
    declaration kws type variables_def loc c = completes (Some (Some l), c')
    /\ never_fails c'.
Proof.
  intros Hn Hmatrix. unfold declaration.
  pose proof (var_modifiers_keeps kws c Hn) as N1.
  pose proof (var_modifiers_consistent kws c) as Hcons.
  destruct (var_modifiers kws c) as [modifiers c1]. simpl in N1, Hcons, Hmatrix.
  destruct (apply_type_modifiers_never_fails type modifiers loc c1 N1)
    as (t & m & c2 & Happly & N2 & Hclass).
  rewrite Happly. unfold declare_vars.
  destruct (never_fails_alloc c2 N2) as (a & c3 & -> & N3).
  assert (Hassert : class_eqb (ty_type t) HLSL_CLASS_MATRIX
                    && negb (has_bits (ty_modifiers t) HLSL_MODIFIERS_MAJORITY_MASK)
                    = false).
  { destruct (class_eqb (ty_type t) HLSL_CLASS_MATRIX) eqn:Ecl; [|reflexivity].
    assert (Hm : ty_type type = HLSL_CLASS_MATRIX)
      by (rewrite <- Hclass; destruct (ty_type t); try discriminate Ecl; reflexivity).
    destruct (Hmatrix Hm) as [Hc Hdup].
    destruct (apply_type_modifiers_majority type modifiers loc c1 t m c2 Hm Hc Hcons
                Hdup Happly) as (_ & Hone & _).
    unfold one_majority_bit in Hone. rewrite has_bits_majority.
    destruct (has_bits (ty_modifiers t) HLSL_MODIFIER_ROW_MAJOR),
             (has_bits (ty_modifiers t) HLSL_MODIFIER_COLUMN_MAJOR);
      try discriminate Hone; reflexivity. }
  rewrite Hassert.
  destruct (declare_vars_loop_never_fails t m variables_def [] c3 N3)
    as (l & c4 & -> & N4).
  eauto.
Qed.

Lemma declaration_completes_witness :
  exists l c',
    declaration [(KW_ROW_MAJOR, sample_loc 2 1)] (predefined_type "float4x4")
      [plain_declarator "m" (sample_loc 2 20)] (sample_loc 2 1) sample_ctx
    = completes (Some (Some l), c')
    /\ never_fails c'.
Proof.
  apply (declaration_completes [(KW_ROW_MAJOR, sample_loc 2 1)]
           (predefined_type "float4x4") [plain_declarator "m" (sample_loc 2 20)]
           (sample_loc 2 1) sample_ctx).
  - vm_compute. reflexivity.
  - intros _. split; vm_compute; reflexivity.
Defined.

(** ** Structures *)

Lemma add_struct_field_result (fields : list hlsl_struct_field)
    (field : hlsl_struct_field) :
  (add_struct_field fields field = (false, fields)
   /\ field_name field ∈ map field_name fields)
  \/ (add_struct_field fields field = (true, fields ++ [field])
      /\ field_name field ∉ map field_name fields).
Proof.
  unfold add_struct_field.
  destruct (existsb (fun f => String.eqb (field_name f) (field_name field)) fields) eqn:E.
  - left. split; [reflexivity|].
    apply existsb_exists in E as (f & Hin & Heq).
    apply String.eqb_eq in Heq. rewrite <- Heq.
    apply list_elem_of_In, in_map, Hin.
  - right. split; [reflexivity|]. intros Hin.
    apply list_elem_of_In, in_map_iff in Hin as (f & Heq & Hin).
    assert (Ht : existsb (fun f => String.eqb (field_name f) (field_name field)) fields
                 = true)
      by (apply existsb_exists; exists f; split; [exact Hin|apply String.eqb_eq, Heq]).
    congruence.
Qed.

Lemma fields_list_result (new_fields : list hlsl_struct_field) :
  forall fields loc (c : hlsl_parse_ctx),
    NoDup (map field_name fields) ->
    NoDup (map field_name (fst (fields_list fields new_fields loc c)))
    /\ fields `prefix_of` fst (fields_list fields new_fields loc c)
    /\ (forall f, f ∈ fst (fields_list fields new_fields loc c) ->
                  f ∈ fields \/ f ∈ new_fields)
    /\ (forall f, f ∈ new_fields ->
                  field_name f ∈ map field_name (fst (fields_list fields new_fields loc c)))
    /\ (never_fails c ->
        never_fails (snd (fields_list fields new_fields loc c))
        /\ (ctx_status c = PARSE_ERR
            \/ (length (fst (fields_list fields new_fields loc c))
                < length fields + length new_fields)%nat ->
            ctx_status (snd (fields_list fields new_fields loc c)) = PARSE_ERR)).
Proof.
  induction new_fields as [|field rest IH]; intros fields loc c Hnd.
  - simpl. split; [exact Hnd|]. split; [reflexivity|]. split; [auto|].
    split; [intros f Hf; inversion Hf|].
    intros Hn. split; [exact Hn|]. intros [H|H]; [exact H|lia].
  - cbn [fields_list].
    destruct (add_struct_field_result fields field) as [[-> Hin]|[-> Hnew]];
      cbv beta iota zeta.
    + destruct (IH fields loc
                  (hlsl_report_message loc HLSL_LEVEL_ERROR
                     ("redefinition of '" +:+ field_name field +:+ "'") c) Hnd)
        as (D & P & O & N & S).
      split; [exact D|]. split; [exact P|]. split; [|split].
      * intros f Hf. destruct (O f Hf) as [H|H]; [left; exact H|right; right; exact H].
      * intros f Hf. apply elem_of_cons in Hf as [->|Hf]; [|exact (N f Hf)].
        destruct P as [k Hk]. rewrite Hk, map_app. apply elem_of_app. left. exact Hin.
      * intros Hn.
        destruct (report_error_never_fails loc
                    ("redefinition of '" +:+ field_name field +:+ "'") c Hn) as [N1 E1].
        destruct (S N1) as [N2 E2]. split; [exact N2|]. intros _. apply E2. left. exact E1.
    + assert (Hnd1 : NoDup (map field_name (fields ++ [field]))).
      { rewrite map_app. apply NoDup_app. split; [exact Hnd|]. split.
        - intros x Hx Hx'. simpl in Hx'. apply list_elem_of_singleton in Hx'. subst x.
          exact (Hnew Hx).
        - simpl. apply NoDup_singleton. }
      destruct (IH (fields ++ [field]) loc c Hnd1) as (D & P & O & N & S).
      split; [exact D|]. split; [|split; [|split]].
      * etrans; [apply prefix_app_r; reflexivity|exact P].
      * intros f Hf. destruct (O f Hf) as [H|H]; [|right; right; exact H].
        apply elem_of_app in H as [H|H]; [left; exact H|].
        apply list_elem_of_singleton in H. subst f. right. left.
      * intros f Hf. apply elem_of_cons in Hf as [->|Hf]; [|exact (N f Hf)].
        destruct P as [k Hk]. rewrite Hk, !map_app. apply elem_of_app. left.
        apply elem_of_app. right. left.
      * intros Hn. destruct (S Hn) as [N2 E2]. split; [exact N2|].
        intros [H|H]; apply E2; [left; exact H|right].
        rewrite length_app. cbn [length] in H |- *. lia.
Qed.

(** X17.  The rule [fields_list] keeps the names of the members of a
    structure distinct: the fields gathered before stay, in their places; a
    new field is appended unless its name is taken, so that every name is
    held by the field that came first; and (when no allocation fails) a field
    that is dropped leaves the parse with an error. *)
Theorem fields_list_distinct (fields new_fields : list hlsl_struct_field)
    (loc : source_location) (c : hlsl_parse_ctx) :
  NoDup (map field_name fields) ->
  NoDup (map field_name (fst (fields_list fields new_fields loc c)))
  /\ fields `prefix_of` fst (fields_list fields new_fields loc c)
  /\ (forall f, f ∈ fst (fields_list fields new_fields loc c) ->
                f ∈ fields \/ f ∈ new_fields)
  /\ (forall f, f ∈ new_fields ->
                field_name f ∈ map field_name (fst (fields_list fields new_fields loc c)))
  /\ (never_fails c ->
      (length (fst (fields_list fields new_fields loc c))
       < length fields + length new_fields)%nat ->
      ctx_status (snd (fields_list fields new_fields loc c)) = PARSE_ERR).
Proof.
  intros Hnd.
  destruct (fields_list_result new_fields fields loc c Hnd) as (D & P & O & N & S).
  split; [exact D|]. split; [exact P|]. split; [exact O|]. split; [exact N|].
  intros Hn Hlen. apply (S Hn). right. exact Hlen.
Qed.

Lemma fields_list_distinct_witness :
  NoDup (map field_name (fst (fields_list [] sample_fields (sample_loc 3 5) sample_ctx)))
  /\ [] `prefix_of` fst (fields_list [] sample_fields (sample_loc 3 5) sample_ctx)
  /\ (forall f, f ∈ fst (fields_list [] sample_fields (sample_loc 3 5) sample_ctx) ->
                f ∈ [] \/ f ∈ sample_fields)
  /\ (forall f, f ∈ sample_fields ->
                field_name f
                ∈ map field_name
                    (fst (fields_list [] sample_fields (sample_loc 3 5) sample_ctx)))
  /\ (never_fails sample_ctx ->
      (length (fst (fields_list [] sample_fields (sample_loc 3 5) sample_ctx))
       < length (@nil hlsl_struct_field) + length sample_fields)%nat ->
      ctx_status (snd (fields_list [] sample_fields (sample_loc 3 5) sample_ctx))
      = PARSE_ERR).
Proof.
  apply (fields_list_distinct [] sample_fields (sample_loc 3 5) sample_ctx).
  simpl. apply NoDup_nil_2.
Defined.

Lemma assign_reg_offsets_result (fields : list hlsl_struct_field) :
  forall reg_size,
    0 <= reg_size ->
    Forall (fun f => 0 <= ty_reg_size (field_type f)) fields ->
    reg_size + fields_reg_size fields <= UINT_MAX ->
    snd (assign_reg_offsets fields reg_size) = reg_size + fields_reg_size fields
    /\ length (fst (assign_reg_offsets fields reg_size)) = length fields
    /\ forall k f,
         fst (assign_reg_offsets fields reg_size) !! k = Some f ->
         exists f0, fields !! k = Some f0
                    /\ f = set_field_reg_offset f0
                             (reg_size + fields_reg_size (take k fields)).
Proof.
  induction fields as [|field rest IH]; intros reg_size Hr Hall Hmax; simpl.
  - split; [lia|]. split; [reflexivity|]. intros k f Hk. discriminate Hk.
  - inversion Hall as [|x l Hx Hl]. subst x l. simpl in Hmax.
    assert (Hrest : 0 <= fields_reg_size rest).
    { clear -Hl. induction Hl; simpl; lia. }
    assert (Hu : u32 (reg_size + ty_reg_size (field_type field))
                 = reg_size + ty_reg_size (field_type field))
      by (apply u32_small; lia).
    rewrite Hu.
    destruct (IH (reg_size + ty_reg_size (field_type field)) ltac:(lia) Hl ltac:(lia))
      as (T & L & O).
    destruct (assign_reg_offsets rest (reg_size + ty_reg_size (field_type field)))
      as [rest1 total].
    simpl in T, L, O |- *. split; [lia|]. split; [lia|].
    intros [|k] f Hk; simpl in Hk |- *.
    + inversion Hk. exists field. split; [reflexivity|]. f_equal. lia.
    + destruct (O k f Hk) as (f0 & Hf0 & ->). exists f0. split; [exact Hf0|].
      f_equal. lia.
Qed.

(** X18.  [new_struct_type] lays the fields of a structure out one after the
    other: when the register sizes of the field types add up without
    overflow, each field keeps its type, name, semantic and modifiers and is
    given as register offset the sum of the sizes of the fields before it, and
    the structure has the sum of all of them as its register size; its class
    is that of a structure, with dimensions 1 by 1. *)
Theorem new_struct_type_layout (name : option string)
    (fields : list hlsl_struct_field) (c : hlsl_parse_ctx)
    (t : hlsl_type) (c' : hlsl_parse_ctx) :
  Forall (fun f => 0 <= ty_reg_size (field_type f)) fields ->
  fields_reg_size fields <= UINT_MAX ->
  new_struct_type name fields c = (Some t, c') ->
  ty_type t = HLSL_CLASS_STRUCT /\ ty_name t = name
  /\ ty_dimx t = 1 /\ ty_dimy t = 1
  /\ ty_reg_size t = fields_reg_size fields
  /\ length (type_fields t) = length fields
  /\ forall k f,
       type_fields t !! k = Some f ->
       exists f0, fields !! k = Some f0
                  /\ f = set_field_reg_offset f0 (fields_reg_size (take k fields)).
Proof.
  intros Hall Hmax. unfold new_struct_type.
  destruct (ctx_alloc c) as [[a|] c1]; [|discriminate].
  destruct (assign_reg_offsets_result fields 0 ltac:(lia) Hall ltac:(lia))
    as (T & L & O).
  destruct (assign_reg_offsets fields 0) as [fields1 reg_size]. simpl in T, L, O.
  intros H. inversion H. subst t c'. simpl.
  split; [reflexivity|]. split; [reflexivity|]. split; [reflexivity|].
  split; [reflexivity|]. split; [lia|]. split; [exact L|].
  intros k f Hk. destruct (O k f Hk) as (f0 & Hf0 & ->). exists f0.
  split; [exact Hf0|]. f_equal.
Qed.

Lemma new_struct_type_layout_witness :
  ty_type (default (predefined_type "float")
             (fst (new_struct_type (Some "vs_in") (take 2 sample_fields) sample_ctx)))
  = HLSL_CLASS_STRUCT
  /\ ty_name (default (predefined_type "float")
                (fst (new_struct_type (Some "vs_in") (take 2 sample_fields) sample_ctx)))
     = Some "vs_in"
  /\ ty_dimx (default (predefined_type "float")
                (fst (new_struct_type (Some "vs_in") (take 2 sample_fields) sample_ctx)))
     = 1
  /\ ty_dimy (default (predefined_type "float")
                (fst (new_struct_type (Some "vs_in") (take 2 sample_fields) sample_ctx)))
     = 1
  /\ ty_reg_size
       (default (predefined_type "float")
          (fst (new_struct_type (Some "vs_in") (take 2 sample_fields) sample_ctx)))
     = fields_reg_size (take 2 sample_fields)
  /\ length
       (type_fields
          (default (predefined_type "float")
             (fst (new_struct_type (Some "vs_in") (take 2 sample_fields) sample_ctx))))
     = length (take 2 sample_fields)
  /\ forall k f,
       type_fields
         (default (predefined_type "float")
            (fst (new_struct_type (Some "vs_in") (take 2 sample_fields) sample_ctx)))
       !! k = Some f ->
       exists f0, take 2 sample_fields !! k = Some f0
                  /\ f = set_field_reg_offset f0
                           (fields_reg_size (take k (take 2 sample_fields))).
Proof.
  apply (new_struct_type_layout (Some "vs_in") (take 2 sample_fields) sample_ctx _
           (snd (new_struct_type (Some "vs_in") (take 2 sample_fields) sample_ctx))).
  - repeat constructor; vm_compute; discriminate.
  - vm_compute. discriminate.
  - vm_compute. reflexivity.
Defined.

(** ** Out of memory in a loop *)

(** X19.  [create_loop] returns a list exactly when none of the allocations
    it makes fails: three for a loop without condition, seven for one with a
    condition (four more for the conditional break); in every other case it
    returns the null pointer. *)
Theorem create_loop_null (type : loop_type) (init : option (list hlsl_ir_node))
    (cond : list hlsl_ir_node) (iter : option (list hlsl_ir_node))
    (body : list hlsl_ir_node) (loc : source_location) (c : hlsl_parse_ctx) :
  is_Some (fst (create_loop type init cond iter body loc c))
  <-> allocs_succeed (match cond with [] => 3 | _ => 7 end) (ctx_heap c) = true.
Proof.
  unfold create_loop, append_conditional_break, new_unary_expr, node_from_list,
    ctx_alloc, d3dcompiler_alloc, allocs_succeed.
  destruct c as [s m mm sc f vs cf [nx fails]]. cbn [ctx_heap heap_fails heap_next].
  assert (Hlast : last cond = None <-> cond = []) by apply last_None.
  destruct (last cond) as [condition|] eqn:El.
  - assert (Hc : cond <> []) by (intros ->; discriminate El).
    destruct cond as [|c0 crest]; [contradiction|].
    do 7 (destruct fails as [|[|] fails];
          cbn; try (split; [intros [x Hx]; discriminate Hx|intros Hx; discriminate Hx]);
          try (split; [reflexivity|eauto])).
  - assert (Hc : cond = []) by (apply Hlast; reflexivity). subst cond.
    do 3 (destruct fails as [|[|] fails];
          cbn; try (split; [intros [x Hx]; discriminate Hx|intros Hx; discriminate Hx]);
          try (split; [reflexivity|eauto])).
Qed.

(** ** A missing entry point *)

(** X20.  When the parser reported nothing and the entry point is not among
    the functions, [parse_hlsl] returns the null pointer and stores the null
    pointer through [messages]: the message on the missing entry point is
    written after the buffer was handed over, and does not reach the
    caller. *)
Theorem parse_hlsl_missing_entry_silent
    (hlsl_parse : hlsl_parse_ctx -> hlsl_parse_ctx) (type : shader_type)
    (major minor : Z) (entrypoint : string) (h : heap) :
  ctx_messages (hlsl_parse (initial_ctx h)) = [] ->
  ctx_status (hlsl_parse (initial_ctx h)) <> PARSE_ERR ->
  get_func_entry entrypoint (hlsl_parse (initial_ctx h)) = None ->
  parse_hlsl hlsl_parse type major minor entrypoint true h
  = completes (None, Some None).
Proof.
  intros Hm Hs He. unfold parse_hlsl. rewrite Hm, He.
  destruct (ctx_status (hlsl_parse (initial_ctx h))); [reflexivity|reflexivity|].
  exfalso. apply Hs. reflexivity.
Qed.

Lemma parse_hlsl_missing_entry_silent_witness :
  parse_hlsl (fun c => c) ST_PIXEL 2 0 "main" true sample_heap
  = completes (None, Some None).
Proof.
  apply (parse_hlsl_missing_entry_silent (fun c => c) ST_PIXEL 2 0 "main" sample_heap).
  - vm_compute. reflexivity.
  - vm_compute. discriminate.
  - vm_compute. reflexivity.
Defined.

(** ** Array sizes, continued *)

(** X21.  For a size that is a constant of type [int] with the value [n],
    the rule [array] yields the size [n] exactly when [1 <= n <= 65536]; in
    every other case it aborts.  A negative [n] is read as an
    [unsigned int], which makes it larger than 65536. *)
Theorem array_int_constant (a : Z) (t : hlsl_type) (l : source_location) (i : Z)
    (v : hlsl_constant_value) (loc : source_location) (c : hlsl_parse_ctx) :
  ty_type t = HLSL_CLASS_SCALAR -> ty_base_type t = HLSL_TYPE_INT ->
  - 2147483648 <= value_i v < 2147483648 ->
  (1 <= value_i v <= 65536 ->
   array (Some (mk_node a (Some t) l i (HLSL_IR_CONSTANT v))) loc c
   = (Some (value_i v), c))
  /\ (value_i v < 1 \/ 65536 < value_i v ->
      fst (array (Some (mk_node a (Some t) l i (HLSL_IR_CONSTANT v))) loc c) = None)
  /\ (value_i v < 0 ->
      evaluate_array_dimension (mk_node a (Some t) l i (HLSL_IR_CONSTANT v))
      = value_i v + 4294967296).
Proof.
  intros Hc Hb Hn. unfold array, evaluate_array_dimension. simpl.
  rewrite Hc, Hb. simpl.
  assert (Hneg : value_i v < 0 -> u32 (value_i v) = value_i v + 4294967296).
  { intros H. unfold u32. change (2 ^ 32) with 4294967296.
    rewrite <- (Z_mod_plus_full (value_i v) 1 4294967296).
    apply Z.mod_small. lia. }
  assert (Hpos : 0 <= value_i v -> u32 (value_i v) = value_i v)
    by (intros H; apply u32_small; unfold UINT_MAX; lia).
  split; [|split; [|exact Hneg]].
  - intros H. rewrite Hpos by lia.
    destruct (Z.eqb_spec (value_i v) 0); [lia|].
    destruct (Z.gtb_spec (value_i v) 65536); [lia|reflexivity].
  - intros H. destruct (Z_lt_le_dec (value_i v) 0) as [Hlt|Hge].
    + rewrite (Hneg Hlt).
      destruct (Z.eqb_spec (value_i v + 4294967296) 0); [reflexivity|].
      destruct (Z.gtb_spec (value_i v + 4294967296) 65536); [reflexivity|lia].
    + rewrite (Hpos Hge).
      destruct (Z.eqb_spec (value_i v) 0); [reflexivity|].
      destruct (Z.gtb_spec (value_i v) 65536); [reflexivity|lia].
Qed.

Lemma array_int_constant_witness :
  (1 <= value_i (mk_hlsl_constant_value 0 (-1) 0 0 0) <= 65536 ->
   array (Some (sample_int_constant (-1))) (sample_loc 10 8) sample_ctx
   = (Some (value_i (mk_hlsl_constant_value 0 (-1) 0 0 0)), sample_ctx))
  /\ (value_i (mk_hlsl_constant_value 0 (-1) 0 0 0) < 1
      \/ 65536 < value_i (mk_hlsl_constant_value 0 (-1) 0 0 0) ->
      fst (array (Some (sample_int_constant (-1))) (sample_loc 10 8) sample_ctx) = None)
  /\ (value_i (mk_hlsl_constant_value 0 (-1) 0 0 0) < 0 ->
      evaluate_array_dimension (sample_int_constant (-1))
      = value_i (mk_hlsl_constant_value 0 (-1) 0 0 0) + 4294967296).
Proof.
  apply (array_int_constant 18 (predefined_type "int") (sample_loc 10 9) 0
           (mk_hlsl_constant_value 0 (-1) 0 0 0) (sample_loc 10 8) sample_ctx).
  - vm_compute. reflexivity.
  - vm_compute. reflexivity.
  - simpl. lia.
Defined.

(** ** The instructions of an initializer *)

Lemma new_var_deref_variable var var_type (c : hlsl_parse_ctx) node c1 :
  new_var_deref var var_type c = (Some node, c1) ->
  deref_src node = Some (HLSL_IR_DEREF_VAR var) /\ node_variable node = Some var.
Proof.
  unfold new_var_deref. destruct (ctx_alloc c) as [[a|] c0]; [|discriminate].
  intros H. inversion H. split; reflexivity.
Qed.

Lemma new_record_deref_variable record field (c : hlsl_parse_ctx) node c1 src l :
  deref_src record = Some src ->
  new_record_deref record field c = (Some node, c1) ->
  deref_src (set_node_loc node l)
  = Some (HLSL_IR_DEREF_RECORD (node_addr record) src (field_name field))
  /\ node_variable (set_node_loc node l) = Some (hlsl_var_from_deref src).
Proof.
  intros Hsrc. unfold new_record_deref. rewrite Hsrc.
  destruct (ctx_alloc c) as [[a|] c0]; [|discriminate].
  intros H. inversion H. split; reflexivity.
Qed.

Lemma make_assignment_variable lhs rhs (c : hlsl_parse_ctx) node c1 src :
  deref_src lhs = Some src ->
  make_assignment lhs rhs c = (Some node, c1) ->
  node_variable node = Some (hlsl_var_from_deref src).
Proof.
  intros Hsrc. unfold make_assignment. rewrite Hsrc.
  destruct (ctx_alloc c) as [[a|] c0]; [|discriminate].
  intros H. inversion H. reflexivity.
Qed.

Lemma struct_var_initializer_fields_emits var var_type fields :
  forall args instrs (c : hlsl_parse_ctx) l c',
    struct_var_initializer_fields var var_type fields args instrs c = Some (l, c') ->
    exists emitted,
      l = instrs ++ emitted
      /\ Forall (fun n => node_variable n = Some var) emitted.
Proof.
  induction fields as [|field fields' IH]; intros args instrs c l c' H; simpl in H.
  - inversion H. subst. exists []. split; [symmetry; apply app_nil_r|constructor].
  - destruct args as [|node args'].
    { inversion H. subst. exists []. split; [symmetry; apply app_nil_r|constructor]. }
    destruct (components_count_type (field_type field) =? node_components node);
      [|exact (IH _ _ _ _ _ H)].
    destruct (new_var_deref var var_type c) as [[var_deref|] c1] eqn:E1; [|discriminate].
    apply new_var_deref_variable in E1 as [S1 _].
    destruct (new_record_deref var_deref field c1) as [[deref|] c2] eqn:E2.
    + destruct (new_record_deref_variable _ _ _ _ _ _ (node_loc node) S1 E2) as [S2 V2].
      destruct (make_assignment (set_node_loc deref (node_loc node)) node c2)
        as [[assignment|] c3] eqn:E3; [|discriminate].
      pose proof (make_assignment_variable _ _ _ _ _ _ S2 E3) as V3.
      apply IH in H as (emitted & -> & Hall).
      exists ([set_node_loc deref (node_loc node); assignment] ++ emitted).
      split; [rewrite <- app_assoc; reflexivity|].
      constructor; [exact V2|]. constructor; [exact V3|exact Hall].
    + inversion H. subst. exists []. split; [symmetry; apply app_nil_r|constructor].
Qed.

(** X22.  The instructions the loop body of [declare_vars] adds for one
    declarator are, when it adds any, the instructions of the initializer
    followed by dereferences of and assignments to the declarator's own
    variable, the one just allocated: all that [declare_vars] itself emits
    reads or writes, in the eyes of the liveness pass, that variable. *)
Theorem declare_var_emits (basic_type : hlsl_type) (modifiers : Z)
    (v : parse_variable_def) (statements : list hlsl_ir_node)
    (c : hlsl_parse_ctx) (l : list hlsl_ir_node) (c' : hlsl_parse_ctx) :
  declare_var basic_type modifiers v statements c = Some (l, c') ->
  l = statements
  \/ exists var emitted,
       fst (ctx_alloc c) = Some var
       /\ l = statements ++ init_instrs (v_initializer v) ++ emitted
       /\ Forall (fun n => node_variable n = Some var) emitted.
Proof.
  unfold declare_var.
  destruct (ctx_alloc c) as [[var|] c1] eqn:E;
    [|intros H; inversion H; left; reflexivity].
  set (type := if negb (v_array_size v =? 0)
               then new_array_type basic_type (v_array_size v) else basic_type).
  set (m1 := if is_global_scope c1 then Z.lor modifiers HLSL_STORAGE_UNIFORM
             else modifiers).
  set (decl := mk_hlsl_ir_var type (v_loc v) (v_name v) m1 (v_semantic v)
                 (v_reg_reservation v) 0 0).
  destruct (has_bits (ty_modifiers type) HLSL_MODIFIER_CONST
            && negb (has_bits m1 HLSL_STORAGE_UNIFORM)
            && (args_count (v_initializer v) =? 0));
    [intros H; inversion H; left; reflexivity|].
  destruct (declare_variable var decl (negb (is_global_scope c1)) c1) as [ret c2].
  assert (Hsame : forall (c0 : hlsl_parse_ctx) (l0 : list hlsl_ir_node)
                         (c3 : hlsl_parse_ctx),
            Some (statements, c0) = Some (l0, c3) ->
            l0 = statements
            \/ exists var0 emitted,
                 fst (Some var, c1) = Some var0
                 /\ l0 = statements ++ init_instrs (v_initializer v) ++ emitted
                 /\ Forall (fun n => node_variable n = Some var0) emitted)
    by (intros c0 l0 c3 H; inversion H; left; reflexivity).
  destruct (negb ret); [apply Hsame|].
  destruct (args_count (v_initializer v) =? 0); [apply Hsame|].
  match goal with |- (if ?b then _ else _) = _ -> _ => destruct b end; [apply Hsame|].
  match goal with |- (if ?b then _ else _) = _ -> _ => destruct b end; [apply Hsame|].
  destruct (class_eqb (ty_type type) HLSL_CLASS_STRUCT).
  { unfold struct_var_initializer.
    destruct (negb (initializer_size (v_initializer v)
                    =? components_count_type (ivar_data_type decl))); [apply Hsame|].
    intros H. apply struct_var_initializer_fields_emits in H as (emitted & -> & Hall).
    right. exists var, emitted. split; [reflexivity|].
    split; [symmetry; apply app_assoc|exact Hall]. }
  destruct (negb (class_leb (ty_type type) HLSL_CLASS_LAST_NUMERIC)); [apply Hsame|].
  destruct (v_array_size v >? 0); [apply Hsame|].
  destruct (args_count (v_initializer v) >? 1); [apply Hsame|].
  destruct (new_var_deref var type c2) as [[deref|] c3] eqn:E1; [|discriminate].
  apply new_var_deref_variable in E1 as [S1 V1].
  destruct (init_args (v_initializer v)) as [|arg0 args]; [discriminate|].
  destruct (make_assignment deref arg0 c3) as [[assignment|] c4] eqn:E2; [|discriminate].
  pose proof (make_assignment_variable _ _ _ _ _ _ S1 E2) as V2. simpl in V2.
  intros H. inversion H. subst. right. exists var, [deref; assignment].
  split; [reflexivity|]. split; [symmetry; apply app_assoc|].
  constructor; [exact V1|]. constructor; [exact V2|constructor].
Qed.

Lemma declare_var_emits_witness :
  fst (default ([], sample_local_ctx)
         (declare_var (predefined_type "float2") 0 declarator_v2 [] sample_local_ctx))
  = []
  \/ exists var emitted,
       fst (ctx_alloc sample_local_ctx) = Some var
       /\ fst (default ([], sample_local_ctx)
                 (declare_var (predefined_type "float2") 0 declarator_v2 []
                    sample_local_ctx))
          = [] ++ init_instrs (v_initializer declarator_v2) ++ emitted
       /\ Forall (fun n => node_variable n = Some var) emitted.
Proof.
  apply (declare_var_emits (predefined_type "float2") 0 declarator_v2 []
           sample_local_ctx _
           (snd (default ([], sample_local_ctx)
                   (declare_var (predefined_type "float2") 0 declarator_v2 []
                      sample_local_ctx)))).
  vm_compute. reflexivity.
Defined.
